(** * Source matcher of media-reliability: a shallow embedding

    The matcher ([src/matcher.ts]) decides, for every source of the registry,
    whether it is named in the title, the URL, the links or the body of a
    post.  Every decision is taken by a regular expression that is built at
    run time from a field of the source, so the embedding starts with the
    part of the ECMAScript pattern language those expressions live in:
    a parser from pattern text to syntax trees and a matcher on trees.

    Strings are sequences of code units below 256 (Rocq's [string]).
    A call that throws is the outcome [Throw]; a pattern that uses a
    construct outside the modelled fragment is the outcome [Beyond], about
    which nothing is stated.

    After the matcher come the code around it: the ignore list
    ([src/schema.ts], [src/helpers.ts]), the report ([src/comment.ts]) and
    the trigger that runs them ([src/main.ts]). *)

From Stdlib Require Import Ascii String List Bool Arith Lia ZArith.
From Stdlib Require Import Sorting.Sorted Sorting.Permutation.
Import ListNotations.

Local Open Scope string_scope.
Local Open Scope list_scope.
Local Open Scope nat_scope.

(** ** Outcomes of a call *)

Inductive res (A : Type) : Type :=
| Ret (a : A)
| Throw
| Beyond.

Arguments Ret {A} a.
Arguments Throw {A}.
Arguments Beyond {A}.

Definition bind {A B : Type} (x : res A) (f : A -> res B) : res B :=
  match x with
  | Ret a => f a
  | Throw => Throw
  | Beyond => Beyond
  end.

Notation "x <- c1 ;; c2" := (bind c1 (fun x => c2))
  (at level 61, c1 at next level, right associativity).

(** ** Code units *)

Module Char.

Definition code (c : ascii) : nat := nat_of_ascii c.

Definition between (lo hi n : nat) : bool := (lo <=? n) && (n <=? hi).

Definition is_digit (c : ascii) : bool := between 48 57 (code c).
Definition is_upper (c : ascii) : bool := between 65 90 (code c).
Definition is_lower (c : ascii) : bool := between 97 122 (code c).
Definition is_alnum (c : ascii) : bool := is_digit c || is_upper c || is_lower c.

(** [\w] without the unicode flag: the 63 ASCII word characters. *)
Definition is_word (c : ascii) : bool := is_alnum c || (code c =? 95).

(** [\s]: the white space and line terminators that lie below 256. *)
Definition is_space (c : ascii) : bool :=
  between 9 13 (code c) || (code c =? 32) || (code c =? 160).

(** Line terminators below 256: what [.] refuses. *)
Definition is_line_terminator (c : ascii) : bool :=
  (code c =? 10) || (code c =? 13).

(** Canonicalize of the ignore-case flag (no unicode flag): the upper case of
    a single code unit.  Below 256 the letters that change are a-z and the
    Latin-1 lower case letters E0-FE without the division sign F7. *)
Definition canonicalize (c : ascii) : ascii :=
  let n := code c in
  if between 97 122 n then ascii_of_nat (n - 32)
  else if between 224 254 n && negb (n =? 247) then ascii_of_nat (n - 32)
  else c.

Definition same (ignoreCase : bool) (a b : ascii) : bool :=
  if ignoreCase then Ascii.eqb (canonicalize a) (canonicalize b)
  else Ascii.eqb a b.

(** Characters that have a meaning in a pattern. *)
Definition is_syntax (c : ascii) : bool :=
  existsb (Ascii.eqb c)
    (list_ascii_of_string "^$\.*+?()[]{}|").

Definition plain (c : ascii) : bool := negb (is_syntax c).

End Char.

(** ** Pattern syntax trees *)

Inductive char_class : Type := Digit | Word | Space.

Inductive quantifier : Type := QStar | QPlus | QOpt.

Inductive regex : Type :=
| Eps
| Chr (c : ascii)
| Any
| Cls (negated : bool) (k : char_class)
| Bol
| Eol
| WordB (negated : bool)
| Seq (a b : regex)
| Alt (a b : regex)
| Rep (q : quantifier) (a : regex)
| Group (capturing : bool) (a : regex).

Definition mkSeq (l : list regex) : regex := fold_right Seq Eps l.

Fixpoint mkAlt (l : list regex) : regex :=
  match l with
  | [] => Eps
  | [a] => a
  | a :: rest => Alt a (mkAlt rest)
  end.

Definition lits (w : list ascii) : list regex := map Chr w.

(** ** Pattern parser

    One pass over the pattern text, one character at a time.  A frame holds
    the alternatives already closed and the terms of the open alternative of
    one group, both newest first; the stack of frames is the nesting of open
    groups. *)

Module Parser.

Record frame : Type := mkFrame {
  alts : list regex;
  terms : list regex;
  capturing : bool
}.

Inductive mode : Type :=
| Normal      (* between two terms *)
| Escape      (* after a backslash *)
| Opened      (* right after an opening parenthesis *)
| OpenedQ.    (* after an opening parenthesis and a question mark *)

(** What a quantifier met at this point would apply to. *)
Inductive target : Type :=
| Nothing     (* start, after an assertion, an opening parenthesis or a bar *)
| AnAtom      (* the newest term is a bare atom *)
| Quantified  (* the newest term already carries a quantifier *)
| Lazy.       (* ... and its lazy mark *)

Record state : Type := mkState {
  top : frame;
  below : list frame;
  md : mode;
  tg : target
}.

Definition empty_frame (cap : bool) : frame := mkFrame [] [] cap.

Definition initial : state := mkState (empty_frame false) [] Normal Nothing.

Definition close_frame (f : frame) : regex :=
  mkAlt (rev (mkSeq (rev (terms f)) :: alts f)).

Definition push_term (r : regex) (f : frame) : frame :=
  mkFrame (alts f) (r :: terms f) (capturing f).

Definition add_atom (r : regex) (st : state) : res state :=
  Ret (mkState (push_term r (top st)) (below st) Normal AnAtom).

Definition add_assertion (r : regex) (st : state) : res state :=
  Ret (mkState (push_term r (top st)) (below st) Normal Nothing).

Definition quantify (q : quantifier) (st : state) : res state :=
  match tg st, terms (top st) with
  | AnAtom, a :: rest =>
      Ret (mkState (mkFrame (alts (top st)) (Rep q a :: rest) (capturing (top st)))
                   (below st) Normal Quantified)
  | Quantified, _ =>
      match q with
      | QOpt => Ret (mkState (top st) (below st) Normal Lazy)
      | _ => Throw
      end
  | _, _ => Throw
  end.

Definition open_group (st : state) : res state :=
  Ret (mkState (empty_frame true) (top st :: below st) Opened Nothing).

Definition close_group (st : state) : res state :=
  match below st with
  | [] => Throw
  | parent :: others =>
      Ret (mkState (push_term (Group (capturing (top st)) (close_frame (top st))) parent)
                   others Normal AnAtom)
  end.

Definition next_alternative (st : state) : res state :=
  Ret (mkState (mkFrame (mkSeq (rev (terms (top st))) :: alts (top st)) []
                        (capturing (top st)))
               (below st) Normal Nothing).

Definition step_normal (st : state) (c : ascii) : res state :=
  match c with
  | "\"%char => Ret (mkState (top st) (below st) Escape (tg st))
  | "^"%char => add_assertion Bol st
  | "$"%char => add_assertion Eol st
  | "."%char => add_atom Any st
  | "*"%char => quantify QStar st
  | "+"%char => quantify QPlus st
  | "?"%char => quantify QOpt st
  | "("%char => open_group st
  | ")"%char => close_group st
  | "|"%char => next_alternative st
  | "["%char => Beyond
  | "{"%char => Beyond
  | _ => add_atom (Chr c) st
  end.

Definition step_escape (st : state) (c : ascii) : res state :=
  match c with
  | "b"%char => add_assertion (WordB false) st
  | "B"%char => add_assertion (WordB true) st
  | "d"%char => add_atom (Cls false Digit) st
  | "D"%char => add_atom (Cls true Digit) st
  | "w"%char => add_atom (Cls false Word) st
  | "W"%char => add_atom (Cls true Word) st
  | "s"%char => add_atom (Cls false Space) st
  | "S"%char => add_atom (Cls true Space) st
  | "t"%char => add_atom (Chr (ascii_of_nat 9)) st
  | "n"%char => add_atom (Chr (ascii_of_nat 10)) st
  | "v"%char => add_atom (Chr (ascii_of_nat 11)) st
  | "f"%char => add_atom (Chr (ascii_of_nat 12)) st
  | "r"%char => add_atom (Chr (ascii_of_nat 13)) st
  | _ => if Char.is_alnum c then Beyond else add_atom (Chr c) st
  end.

Definition step (st : state) (c : ascii) : res state :=
  match md st with
  | Normal => step_normal st c
  | Escape => step_escape st c
  | Opened =>
      match c with
      | "?"%char => Ret (mkState (top st) (below st) OpenedQ Nothing)
      | _ => step_normal st c
      end
  | OpenedQ =>
      match c with
      | ":"%char => Ret (mkState (mkFrame (alts (top st)) (terms (top st)) false)
                                 (below st) Normal Nothing)
      | _ => Beyond
      end
  end.

Fixpoint run (st : state) (p : list ascii) : res state :=
  match p with
  | [] => Ret st
  | c :: rest => st' <- step st c ;; run st' rest
  end.

Definition finish (st : state) : res regex :=
  match md st, below st with
  | Normal, [] => Ret (close_frame (top st))
  | _, _ => Throw
  end.

Definition parse (p : list ascii) : res regex :=
  st <- run initial p ;; finish st.

End Parser.

(** ** Matcher

    [matches ic r s i k] holds when [r] matches [s] from position [i] up to
    some position [j] for which the continuation [k j] holds.  A starred
    body that consumed nothing is not iterated again. *)

Section Matcher.

Variable ignoreCase : bool.
Variable s : list ascii.

Definition word_at (i : nat) : bool :=
  match nth_error s i with
  | Some c => Char.is_word c
  | None => false
  end.

Definition word_before (i : nat) : bool :=
  match i with
  | 0 => false
  | S j => word_at j
  end.

Definition boundary (i : nat) : bool := xorb (word_before i) (word_at i).

Definition in_class (k : char_class) (c : ascii) : bool :=
  match k with
  | Digit => Char.is_digit c
  | Word => Char.is_word c
  | Space => Char.is_space c
  end.

Definition one (p : ascii -> bool) (i : nat) (k : nat -> bool) : bool :=
  match nth_error s i with
  | Some c => p c && k (S i)
  | None => false
  end.

Fixpoint loop (body : nat -> (nat -> bool) -> bool) (k : nat -> bool)
    (fuel : nat) (i : nat) : bool :=
  k i ||
  match fuel with
  | 0 => false
  | S fuel' => body i (fun j => (i <? j) && loop body k fuel' j)
  end.

Fixpoint matches (r : regex) (i : nat) (k : nat -> bool) : bool :=
  match r with
  | Eps => k i
  | Chr c => one (Char.same ignoreCase c) i k
  | Any => one (fun d => negb (Char.is_line_terminator d)) i k
  | Cls neg cl => one (fun d => xorb neg (in_class cl d)) i k
  | Bol => (i =? 0) && k i
  | Eol => (i =? length s) && k i
  | WordB neg => xorb neg (boundary i) && k i
  | Seq a b => matches a i (fun j => matches b j k)
  | Alt a b => matches a i k || matches b i k
  | Rep QOpt a => matches a i k || k i
  | Rep QStar a => loop (matches a) k (length s) i
  | Rep QPlus a => matches a i (loop (matches a) k (length s))
  | Group _ a => matches a i k
  end.

(** Is there a match that starts at one of the positions [i .. i + n]? *)
Fixpoint search (r : regex) (n : nat) (i : nat) : bool :=
  matches r i (fun _ => true) ||
  match n with
  | 0 => false
  | S n' => search r n' (S i)
  end.

End Matcher.

(** ** RegExp objects *)

Record RegExp : Type := mkRegExp {
  pattern : regex;
  ignoreCase : bool;
  global : bool
}.

Record flags : Type := mkFlags { flag_i : bool; flag_g : bool }.

Definition no_flags : flags := mkFlags false false.
Definition flags_i : flags := mkFlags true false.
Definition flags_gi : flags := mkFlags true true.

(** [new RegExp(p, flags)]: throws a SyntaxError on a malformed pattern. *)
Definition new_RegExp (p : string) (f : flags) : res RegExp :=
  r <- Parser.parse (list_ascii_of_string p) ;;
  Ret (mkRegExp r (flag_i f) (flag_g f)).

(** [re.test(text)] on an object whose [lastIndex] is 0, which is every
    object of the matcher: each is either used once, right after it was
    built, or has no global flag.  The search starts at index 0. *)
Definition test (re : RegExp) (text : string) : bool :=
  let s := list_ascii_of_string text in
  search (ignoreCase re) s (pattern re) (length s) 0.

Definition test_new (p : string) (f : flags) (text : string) : res bool :=
  re <- new_RegExp p f ;; Ret (test re text).

(** ** Strings of the program *)

Definition lower (c : ascii) : ascii :=
  let n := Char.code c in
  if Char.between 65 90 n then ascii_of_nat (n + 32)
  else if Char.between 192 222 n && negb (n =? 215) then ascii_of_nat (n + 32)
  else c.

Fixpoint toLowerCase (t : string) : string :=
  match t with
  | EmptyString => EmptyString
  | String c rest => String (lower c) (toLowerCase rest)
  end.

Definition includes (l : list string) (x : string) : bool :=
  existsb (String.eqb x) l.

(** [domain.replace(/\./g, '\\.')]: a backslash before every period. *)
Fixpoint escape_periods (d : string) : string :=
  match d with
  | EmptyString => EmptyString
  | String c rest =>
      if Ascii.eqb c "."%char then String "\"%char (String "."%char (escape_periods rest))
      else String c (escape_periods rest)
  end.

(** [array.some(f)] for a callback that may throw: left to right, stopping
    at the first element accepted. *)
Fixpoint some {A : Type} (f : A -> res bool) (l : list A) : res bool :=
  match l with
  | [] => Ret false
  | x :: rest => b <- f x ;; if b then Ret true else some f rest
  end.

(** ** Data model ([src/schema.ts], [src/helpers.ts]) *)

Inductive source_type : Type := journalist | media | aggregator.

Record Source : Type := mkSource {
  id : string;
  name : string;
  nameIsCommon : bool;
  type : source_type;
  tier : option Z;
  organization : option string;
  twitter : option string;
  domains : option (list string);
  nameNormalized : string;
  twitterNormalized : option string
}.

Record URL : Type := mkURL {
  hostname : string;
  pathname : string
}.

Record PostData : Type := mkPostData {
  post_id : string;
  subredditName : string;
  titleNormalized : string;
  bodyNormalized : option string;
  url : option URL;
  links : option (list URL)
}.

Record AppSettings : Type := mkAppSettings {
  sources : list Source;
  flairTemplateId : string;
  flairCssClass : string;
  commentFooter : string;
  analyzePostBody : bool;
  ignoredUsers : list string;
  errorReportSubredditName : string
}.

(** A string or null used as a condition: null and the empty string fail. *)
Definition truthy (x : option string) : option string :=
  match x with
  | Some EmptyString => None
  | other => other
  end.

(** A boolean or undefined used as a condition. *)
Definition holds (x : option bool) : bool :=
  match x with
  | Some b => b
  | None => false
  end.

(** ** [Map<string, Source>]: keys in the order of their first insertion *)

Definition SourceMap : Type := list (string * Source).

Fixpoint map_set (k : string) (v : Source) (m : SourceMap) : SourceMap :=
  match m with
  | [] => [(k, v)]
  | (k', v') :: rest =>
      if String.eqb k' k then (k, v) :: rest else (k', v') :: map_set k v rest
  end.

Definition map_values (m : SourceMap) : list Source := List.map snd m.

(** ** The channel predicates ([src/matcher.ts]) *)

Definition isNameInTitle (titleNormalized : string) (source : Source) : res bool :=
  if nameIsCommon source then
    test_new ("^" ++ nameNormalized source ++ ":|(\(|\[)"
                  ++ nameNormalized source ++ "(\)|\])") flags_i titleNormalized
  else
    test_new ("\b" ++ nameNormalized source ++ "\b") flags_i titleNormalized.

Definition isTwitterInTitle (titleNormalized : string) (source : Source) : res bool :=
  match truthy (twitterNormalized source) with
  | None => Ret false
  | Some handle =>
      test_new ("^@?" ++ handle ++ ":|@" ++ handle ++ "\b|(\(|\[)"
                    ++ handle ++ "(\)|\])") flags_i titleNormalized
  end.

Definition isTwitterInUrl (url : URL) (source : Source) : res bool :=
  match truthy (twitterNormalized source) with
  | None => Ret false
  | Some handle =>
      if includes ["x.com"; "twitter.com"] (toLowerCase (hostname url))
      then test_new ("^\/" ++ handle ++ "(\/|\s|$)") flags_i (pathname url)
      else Ret false
  end.

Definition domain_pattern (domain : string) : string :=
  "^(.*\.)?" ++ escape_periods domain ++ "$".

(** The result is undefined ([None]) when the source has no domain list. *)
Definition isDomainInUrl (url : URL) (source : Source) : res (option bool) :=
  match domains source with
  | None => Ret None
  | Some ds =>
      b <- some (fun domain => test_new (domain_pattern domain) no_flags (hostname url)) ds ;;
      Ret (Some b)
  end.

Definition isTwitterInLinks (urls : list URL) (source : Source) : res bool :=
  match truthy (twitterNormalized source) with
  | None => Ret false
  | Some handle =>
      regex <- new_RegExp ("^/" ++ handle ++ "(\/|\s|$)") flags_i ;;
      Ret (existsb (fun url => test regex (pathname url)) urls)
  end.

Definition isDomainInLinks (urls : list URL) (source : Source) : res bool :=
  match domains source with
  | None => Ret false
  | Some ds =>
      if length ds <? 1 then Ret false
      else
        some (fun url =>
                some (fun domain =>
                        test_new (domain_pattern domain) no_flags (hostname url)) ds)
             urls
  end.

Definition isNameInBody (bodyNormalized : string) (source : Source) : res bool :=
  if nameIsCommon source then
    test_new (nameNormalized source ++ ":|(\[|\()"
                  ++ nameNormalized source ++ "(\]|\))") flags_gi bodyNormalized
  else
    test_new ("\b" ++ nameNormalized source ++ "\b") flags_gi bodyNormalized.

Definition isTwitterInBody (bodyNormalized : string) (source : Source) : res bool :=
  match truthy (twitterNormalized source) with
  | None => Ret false
  | Some handle =>
      test_new ("^@?" ++ handle ++ ":|@" ++ handle ++ "\b|(\(|\[)"
                    ++ handle ++ "(\)|\])") flags_gi bodyNormalized
  end.

(** ** The four scans and their union *)

Fixpoint findMatchesInTitle (titleNormalized : string) (srcs : list Source)
    (list : SourceMap) : res SourceMap :=
  match srcs with
  | [] => Ret list
  | source :: rest =>
      a <- isNameInTitle titleNormalized source ;;
      if a then findMatchesInTitle titleNormalized rest (map_set (id source) source list)
      else
        b <- isTwitterInTitle titleNormalized source ;;
        if b then findMatchesInTitle titleNormalized rest (map_set (id source) source list)
        else findMatchesInTitle titleNormalized rest list
  end.

Fixpoint findMatchesInUrl (url : URL) (srcs : list Source)
    (list : SourceMap) : res SourceMap :=
  match srcs with
  | [] => Ret list
  | source :: rest =>
      a <- isTwitterInUrl url source ;;
      if a then findMatchesInUrl url rest (map_set (id source) source list)
      else
        b <- isDomainInUrl url source ;;
        if holds b then findMatchesInUrl url rest (map_set (id source) source list)
        else findMatchesInUrl url rest list
  end.

Fixpoint findMatchesInLinks (urls : list URL) (srcs : list Source)
    (list : SourceMap) : res SourceMap :=
  match srcs with
  | [] => Ret list
  | source :: rest =>
      a <- isTwitterInLinks urls source ;;
      if a then findMatchesInLinks urls rest (map_set (id source) source list)
      else
        b <- isDomainInLinks urls source ;;
        if b then findMatchesInLinks urls rest (map_set (id source) source list)
        else findMatchesInLinks urls rest list
  end.

Fixpoint findMatchesInBody (bodyNormalized : string) (srcs : list Source)
    (list : SourceMap) : res SourceMap :=
  match srcs with
  | [] => Ret list
  | source :: rest =>
      a <- isNameInBody bodyNormalized source ;;
      if a then findMatchesInBody bodyNormalized rest (map_set (id source) source list)
      else
        b <- isTwitterInBody bodyNormalized source ;;
        if b then findMatchesInBody bodyNormalized rest (map_set (id source) source list)
        else findMatchesInBody bodyNormalized rest list
  end.

(** [a.tier ?? 6] and the comparator of the final sort.  Tiers are taken as
    integers. *)
Definition tier_or_6 (a : Source) : Z :=
  match tier a with
  | Some t => t
  | None => 6%Z
  end.

Definition compare_tier (a b : Source) : Z := (tier_or_6 a - tier_or_6 b)%Z.

(** [Array.prototype.sort] with a comparator: a stable sort.  An element is
    put in front of the first element it does not compare greater than. *)
Fixpoint insert_by (cmp : Source -> Source -> Z) (x : Source) (l : list Source)
    : list Source :=
  match l with
  | [] => [x]
  | y :: rest =>
      if (cmp x y <=? 0)%Z then x :: y :: rest else y :: insert_by cmp x rest
  end.

Definition sort_by (cmp : Source -> Source -> Z) (l : list Source) : list Source :=
  fold_right (insert_by cmp) [] l.

(** The map after the four scans, before it is turned into the result. *)
Definition collect (post : PostData) (settings : AppSettings) : res SourceMap :=
  list <- findMatchesInTitle (titleNormalized post) (sources settings) [] ;;
  list <- match url post with
          | Some u => findMatchesInUrl u (sources settings) list
          | None => Ret list
          end ;;
  list <- match links post with
          | Some ls => findMatchesInLinks ls (sources settings) list
          | None => Ret list
          end ;;
  match truthy (bodyNormalized post) with
  | Some body =>
      if analyzePostBody settings
      then findMatchesInBody body (sources settings) list
      else Ret list
  | None => Ret list
  end.

Definition findSourcesInPost (post : PostData) (settings : AppSettings)
    : res (option (list Source)) :=
  list <- collect post settings ;;
  let result := sort_by compare_tier (map_values list) in
  Ret (if 0 <? length result then Some result else None).

(** ** Content construction ([src/helpers.ts])

    [new URL], the link finder and the Unicode part of [normalizeText] are
    platform functions; the embedding takes them as fields of a record. *)

Record Platform : Type := mkPlatform {
  (* new URL(text, 'https://www.reddit.com'); None when it throws *)
  new_URL : string -> option URL;
  (* the url of every match of linkify.match(body), in order *)
  linkify_match : string -> list string;
  (* text.normalize('NFD'), combining marks U+0300..U+036F removed, toLowerCase() *)
  normalizeText : string -> string
}.

Record RedditPostV1 : Type := mkPost {
  raw_id : string;
  raw_subredditName : string;
  raw_title : string;
  raw_body : option string;
  raw_url : string
}.

Definition own_hosts : list string :=
  ["v.redd.it"; "i.redd.it"; "reddit.com"; "www.reddit.com"].

Fixpoint filter_nonNullable {A : Type} (l : list (option A)) : list A :=
  match l with
  | [] => []
  | Some x :: rest => x :: filter_nonNullable rest
  | None :: rest => filter_nonNullable rest
  end.

Definition getPostLinks (pf : Platform) (body : string) : option (list URL) :=
  let found :=
    filter_nonNullable
      (List.map (fun link =>
                   match new_URL pf link with
                   | Some u => if includes own_hosts (hostname u) then None else Some u
                   | None => None
                   end)
                (linkify_match pf body)) in
  if 0 <? length found then Some found else None.

Definition processPost (pf : Platform) (post : RedditPostV1) : res PostData :=
  match new_URL pf (raw_url post) with
  | None => Throw
  | Some u =>
      let found := match truthy (raw_body post) with
                   | Some body => getPostLinks pf body
                   | None => None
                   end in
      Ret (mkPostData (raw_id post) (raw_subredditName post)
             (normalizeText pf (raw_title post))
             (match truthy (raw_body post) with
              | Some body => Some (normalizeText pf body)
              | None => None
              end)
             (if negb (includes own_hosts (hostname u)) then Some u else None)
             found)
  end.

(** ** What a match is

    The declarative reading of a tree: [Match ic s r i j] says that [r]
    matches the text [s] from position [i] to position [j]. *)

Section MatchRelation.

Variable ic : bool.
Variable s : list ascii.

Inductive Match : regex -> nat -> nat -> Prop :=
| MEps i : Match Eps i i
| MChr c d i :
    nth_error s i = Some d -> Char.same ic c d = true -> Match (Chr c) i (S i)
| MAny d i :
    nth_error s i = Some d -> Char.is_line_terminator d = false -> Match Any i (S i)
| MCls neg cl d i :
    nth_error s i = Some d -> xorb neg (in_class cl d) = true ->
    Match (Cls neg cl) i (S i)
| MBol : Match Bol 0 0
| MEol : Match Eol (length s) (length s)
| MWordB neg i : xorb neg (boundary s i) = true -> Match (WordB neg) i i
| MSeq a b i j l : Match a i j -> Match b j l -> Match (Seq a b) i l
| MAltL a b i j : Match a i j -> Match (Alt a b) i j
| MAltR a b i j : Match b i j -> Match (Alt a b) i j
| MOptSome a i j : Match a i j -> Match (Rep QOpt a) i j
| MOptNone a i : Match (Rep QOpt a) i i
| MStarNil a i : Match (Rep QStar a) i i
| MStarCons a i j l :
    Match a i j -> i < j -> Match (Rep QStar a) j l -> Match (Rep QStar a) i l
| MPlus a i j l : Match a i j -> Match (Rep QStar a) j l -> Match (Rep QPlus a) i l
| MGroup cap a i j : Match a i j -> Match (Group cap a) i j.

End MatchRelation.

(** ** Texts without pattern syntax, and the trees of the matcher *)

Abbreviation chars := list_ascii_of_string.

Definition plain_text (t : string) : bool := forallb Char.plain (chars t).

Definition domain_text (d : string) : bool :=
  forallb (fun c => Char.plain c || Ascii.eqb c "."%char) (chars d).

(** The trees the patterns of the matcher parse to when the field put
    into them is [w]. *)

Definition either (a b : ascii) : regex :=
  Group true (Alt (mkSeq [Chr a]) (mkSeq [Chr b])).

Definition re_word (w : list ascii) : regex :=
  mkSeq (WordB false :: lits w ++ [WordB false]).

Definition re_common_title (w : list ascii) : regex :=
  Alt (mkSeq (Bol :: lits w ++ [Chr ":"%char]))
      (mkSeq (either "("%char "["%char :: lits w ++ [either ")"%char "]"%char])).

Definition re_common_body (w : list ascii) : regex :=
  Alt (mkSeq (lits w ++ [Chr ":"%char]))
      (mkSeq (either "["%char "("%char :: lits w ++ [either "]"%char ")"%char])).

Definition re_handle (w : list ascii) : regex :=
  Alt (mkSeq (Bol :: Rep QOpt (Chr "@"%char) :: lits w ++ [Chr ":"%char]))
   (Alt (mkSeq (Chr "@"%char :: lits w ++ [WordB false]))
        (mkSeq (either "("%char "["%char :: lits w ++ [either ")"%char "]"%char]))).

Definition re_path (w : list ascii) : regex :=
  mkSeq (Bol :: Chr "/"%char :: lits w ++
         [Group true (Alt (mkSeq [Chr "/"%char])
                       (Alt (mkSeq [Cls false Space]) (mkSeq [Eol])))]).

Definition re_domain (w : list ascii) : regex :=
  mkSeq (Bol :: Rep QOpt (Group true (mkSeq [Rep QStar Any; Chr "."%char]))
             :: lits w ++ [Eol]).

(** The parser state after a run of literal characters. *)
Definition push_lits (w : list ascii) (st : Parser.state) : Parser.state :=
  let f := Parser.top st in
  Parser.mkState
    (Parser.mkFrame (Parser.alts f) (rev (lits w) ++ Parser.terms f)
                    (Parser.capturing f))
    (Parser.below st) (Parser.md st)
    (match w with [] => Parser.tg st | _ => Parser.AnAtom end).

(** ** Occurrences of a word in a text *)

Section TextSpec.

Variable ic : bool.

(** [w] is a prefix of [s], letter case aside when [ic] is set. *)
Fixpoint prefix_of (w s : list ascii) : bool :=
  match w, s with
  | [], _ => true
  | c :: w', d :: s' => Char.same ic c d && prefix_of w' s'
  | _ :: _, [] => false
  end.

(** [w] occurs in [s] at position [i]. *)
Definition occurs_at (w s : list ascii) (i : nat) : bool :=
  prefix_of w (skipn i s).

End TextSpec.

Definition char_is (s : list ascii) (i : nat) (p : ascii -> bool) : bool :=
  match nth_error s i with
  | Some d => p d
  | None => false
  end.

Definition one_of (a b : ascii) (d : ascii) : bool :=
  Ascii.eqb d a || Ascii.eqb d b.

(** What each tree of the matcher looks for, position by position. *)

Section ShapeDefs.

Variable ic : bool.
Variable s : list ascii.

Definition word_bounded_at (w : list ascii) (i : nat) : bool :=
  boundary s i && occurs_at ic w s i && boundary s (i + length w).

Definition colon_after_at (w : list ascii) (i : nat) : bool :=
  occurs_at ic w s i && char_is s (i + length w) (Char.same ic ":"%char).

Definition enclosed_at (o1 o2 c1 c2 : ascii) (w : list ascii) (i : nat) : bool :=
  char_is s i (fun d => Char.same ic o1 d || Char.same ic o2 d)
  && occurs_at ic w s (S i)
  && char_is s (S i + length w) (fun d => Char.same ic c1 d || Char.same ic c2 d).

Definition at_tagged_at (w : list ascii) (i : nat) : bool :=
  char_is s i (Char.same ic "@"%char) && occurs_at ic w s (S i)
  && boundary s (S i + length w).

Definition first_segment (w : list ascii) : bool :=
  char_is s 0 (Char.same ic "/"%char) && occurs_at ic w s 1
  && (char_is s (1 + length w) (fun d => Char.same ic "/"%char d || Char.is_space d)
      || (1 + length w =? length s)).

Definition suffix_at (w : list ascii) (j : nat) : bool :=
  occurs_at ic w s j && (j + length w =? length s).

End ShapeDefs.

(** ** What the predicates are meant to decide, on texts *)

Definition anywhere (s : list ascii) (p : nat -> bool) : bool :=
  existsb p (seq 0 (S (length s))).

Definition opening (d : ascii) : bool := Ascii.eqb "("%char d || Ascii.eqb "["%char d.
Definition closing (d : ascii) : bool := Ascii.eqb ")"%char d || Ascii.eqb "]"%char d.

(** [w] stands at [i] with no word character on either side. *)
Definition isolated_at (w s : list ascii) (i : nat) : bool :=
  occurs_at true w s i && negb (word_before s i) && negb (word_at s (i + length w)).

(** [w] stands at [i] and a colon follows. *)
Definition before_colon_at (w s : list ascii) (i : nat) : bool :=
  occurs_at true w s i && char_is s (i + length w) (Ascii.eqb ":"%char).

(** An opening bracket stands at [i], then [w], then a closing bracket. *)
Definition in_brackets_at (w s : list ascii) (i : nat) : bool :=
  char_is s i opening && occurs_at true w s (S i)
  && char_is s (S i + length w) closing.

(** An at sign stands at [i], then [w], then a word boundary. *)
Definition mentioned_at (w s : list ascii) (i : nat) : bool :=
  char_is s i (Ascii.eqb "@"%char) && occurs_at true w s (S i)
  && boundary s (S i + length w).

Definition name_as_word (w s : list ascii) : bool := anywhere s (isolated_at w s).

Definition common_name_in_title (w s : list ascii) : bool :=
  before_colon_at w s 0 || anywhere s (in_brackets_at w s).

Definition common_name_in_body (w s : list ascii) : bool :=
  anywhere s (before_colon_at w s) || anywhere s (in_brackets_at w s).

Definition handle_in_text (w s : list ascii) : bool :=
  before_colon_at w s 0
  || (char_is s 0 (Ascii.eqb "@"%char) && before_colon_at w s 1)
  || anywhere s (mentioned_at w s)
  || anywhere s (in_brackets_at w s).

(** The path is [/w], alone or followed by a slash or by white space. *)
Definition handle_is_first_segment (w s : list ascii) : bool :=
  char_is s 0 (Ascii.eqb "/"%char) && occurs_at true w s 1
  && (char_is s (1 + length w) (fun d => Ascii.eqb "/"%char d || Char.is_space d)
      || (1 + length w =? length s)).

(** The host is the domain, or ends with a period and the domain. *)
Definition host_under (domain host : string) : Prop :=
  host = domain \/ exists labels, host = (labels ++ "." ++ domain)%string.

Definition no_line_terminator (t : string) : bool :=
  forallb (fun d => negb (Char.is_line_terminator d)) (chars t).

Definition word_ends (w : list ascii) : bool :=
  match w with
  | [] => false
  | c :: _ => Char.is_word c && Char.is_word (last w c)
  end.

(** ** Sample registry entries and posts *)

(** A source whose name and handle are already in normal form; its id is
    its name. *)
Definition sample_source (n : string) (common : bool) (handle : option string)
    (ds : option (list string)) (t : option Z) : Source :=
  mkSource n n common media t None handle ds n handle.

Definition sample_settings (srcs : list Source) : AppSettings :=
  mkAppSettings srcs "" "" "" true [] "".

Definition title_only (title : string) : PostData :=
  mkPostData "t3_1" "soccer" title None None None.

(** The line feed of a multi-line body. *)
Definition line_feed : string := String (ascii_of_nat 10) "".

(** ** What a result is allowed to contain *)

Definition title_hit (post : PostData) (source : Source) : Prop :=
  isNameInTitle (titleNormalized post) source = Ret true
  \/ isTwitterInTitle (titleNormalized post) source = Ret true.

Definition url_hit (post : PostData) (source : Source) : Prop :=
  exists u, url post = Some u
    /\ (isTwitterInUrl u source = Ret true
        \/ isDomainInUrl u source = Ret (Some true)).

Definition links_hit (post : PostData) (source : Source) : Prop :=
  exists ls, links post = Some ls
    /\ (isTwitterInLinks ls source = Ret true
        \/ isDomainInLinks ls source = Ret true).

Definition body_hit (post : PostData) (settings : AppSettings) (source : Source)
    : Prop :=
  exists body, truthy (bodyNormalized post) = Some body
    /\ analyzePostBody settings = true
    /\ (isNameInBody body source = Ret true
        \/ isTwitterInBody body source = Ret true).

Definition hit (post : PostData) (settings : AppSettings) (source : Source) : Prop :=
  In source (sources settings)
  /\ (title_hit post source \/ url_hit post source \/ links_hit post source
      \/ body_hit post settings source).

(** The loop the four scans share, for the facts that hold of all four:
    [first] is tried, [second] only when [first] said no; either one files
    the source under its id. *)
Fixpoint scan (first second : Source -> res bool) (srcs : list Source)
    (list : SourceMap) : res SourceMap :=
  match srcs with
  | [] => Ret list
  | source :: rest =>
      a <- first source ;;
      if a then scan first second rest (map_set (id source) source list)
      else
        b <- second source ;;
        if b then scan first second rest (map_set (id source) source list)
        else scan first second rest list
  end.

(** Every entry of the map is filed under the id of its source, and its
    source satisfies [P]. *)
Definition recorded (P : Source -> Prop) (m : SourceMap) : Prop :=
  forall k v, In (k, v) m -> k = id v /\ P v.

(** The order of the final sort. *)
Definition tier_le (a b : Source) : Prop := (tier_or_6 a <= tier_or_6 b)%Z.

Definition same_rank (k : Z) (a : Source) : bool := (tier_or_6 a =? k)%Z.

(** A source the patterns of the matcher can be built from. *)
Definition well_formed (source : Source) : bool :=
  plain_text (nameNormalized source)
  && match twitterNormalized source with
     | Some handle => plain_text handle
     | None => true
     end
  && match domains source with
     | Some ds => forallb domain_text ds
     | None => true
     end.

Definition domain_found (host domain : string) : bool :=
  search false (chars host) (re_domain (chars domain)) (length (chars host)) 0.

(** A platform for the sample posts: it knows the URLs of the samples, finds
    the one link of the sample body, and leaves texts that are already in
    normal form as they are. *)
Definition sample_platform : Platform :=
  mkPlatform
    (fun text =>
       if String.eqb text "https://www.example.com/story"
       then Some (mkURL "www.example.com" "/story")
       else if String.eqb text "https://www.foo.com/a"
       then Some (mkURL "www.foo.com" "/a")
       else None)
    (fun body =>
       if String.eqb body "see https://www.foo.com/a"
       then ["https://www.foo.com/a"] else [])
    (fun text => text).

Definition sample_post : RedditPostV1 :=
  mkPost "t3_1" "soccer" "a story" (Some "see https://www.foo.com/a")
         "https://www.example.com/story".

Definition starts_with_www (host : string) : bool :=
  prefix_of false (chars "www.") (chars host).

(** ** The ignore list ([src/helpers.ts], [src/schema.ts]) *)

Definition isIgnoredUser (username : string) (settings : AppSettings) : bool :=
  existsb (fun ignoredUser =>
             String.eqb (toLowerCase ignoredUser) (toLowerCase username))
          (ignoredUsers settings).

(** [text.split(',')]: the pieces between the commas, at least one. *)
Fixpoint split_commas (text : string) : list string :=
  match text with
  | EmptyString => [EmptyString]
  | String c rest =>
      if Ascii.eqb c ","%char then EmptyString :: split_commas rest
      else match split_commas rest with
           | piece :: pieces => String c piece :: pieces
           | [] => [String c EmptyString]
           end
  end.

Fixpoint trimStart (text : string) : string :=
  match text with
  | EmptyString => EmptyString
  | String c rest => if Char.is_space c then trimStart rest else text
  end.

Fixpoint trimEnd (text : string) : string :=
  match text with
  | EmptyString => EmptyString
  | String c rest =>
      match trimEnd rest with
      | EmptyString => if Char.is_space c then EmptyString else String c EmptyString
      | kept => String c kept
      end
  end.

(** [text.trim()]: white space and line terminators off both ends. *)
Definition trim (text : string) : string := trimEnd (trimStart text).

(** The class [a-zA-Z0-9_-] of the username check. *)
Definition username_char (c : ascii) : bool :=
  Char.is_alnum c || Ascii.eqb c "_"%char || Ascii.eqb c "-"%char.

(** [/[^a-zA-Z0-9_-]/.test(username)]. *)
Definition has_foreign_char (username : string) : bool :=
  existsb (fun c => negb (username_char c)) (list_ascii_of_string username).

(** A value of unknown type: a string or anything else. *)
Inductive unknown : Type :=
| a_string (text : string)
| not_a_string.

Inductive issue : Type :=
| invalid_type
| custom (message : string).

Inductive preprocessed (A : Type) : Type :=
| passed (a : A)
| never (i : issue).

Arguments passed {A} a.
Arguments never {A} i.

Definition preprocessCommaSeparated (value : unknown) : preprocessed (list string) :=
  match value with
  | not_a_string => never invalid_type
  | a_string text =>
      let usernames := List.map trim (split_commas text) in
      if existsb has_foreign_char usernames
      then never (custom "Invalid input. Reddit usernames can only contain alphanumeric characters, underscores and hyphens.")
      else passed usernames
  end.

(** [names.join(',')]. *)
Fixpoint join (separator : string) (pieces : list string) : string :=
  match pieces with
  | [] => EmptyString
  | [piece] => piece
  | piece :: rest => (piece ++ separator ++ join separator rest)%string
  end.

(** ** The report ([src/comment.ts])

    The texts of a report are only concatenated and compared with the empty
    string, so the one character of the source outside the code units below
    256, the heavy exclamation mark U+2757, is written as its three UTF-8
    bytes.  The calls to the platform are recorded in the order in which
    they are issued.  How a call ends is the platform's to decide: its
    promise is fulfilled or rejected, and a rejected promise throws where it
    is awaited. *)

Definition heavy_exclamation_mark : string :=
  String (ascii_of_nat 226) (String (ascii_of_nat 157) (String (ascii_of_nat 151) "")).

(** A number or null used as a condition: null and 0 fail. *)
Definition nonzero (t : option Z) : option Z :=
  match t with
  | Some 0%Z => None
  | other => other
  end.

Definition type_text (t : source_type) : string :=
  match t with
  | journalist => "journalist"
  | media => "media"
  | aggregator => "aggregator"
  end.

(** [c.toUpperCase()] of one code unit below 256.  The sharp s becomes two
    letters; the micro sign and the y with diaeresis leave the code units
    below 256 and are not modelled. *)
Definition upper_of_char (c : ascii) : res string :=
  let n := Char.code c in
  if Char.between 97 122 n then Ret (String (ascii_of_nat (n - 32)) "")
  else if Char.between 224 254 n && negb (n =? 247)
  then Ret (String (ascii_of_nat (n - 32)) "")
  else if n =? 223 then Ret "SS"
  else if (n =? 181) || (n =? 255) then Beyond
  else Ret (String c "").

Definition capitalizeString (text : string) : res string :=
  match text with
  | EmptyString => Ret EmptyString
  | String c rest => first <- upper_of_char c ;; Ret (first ++ rest)%string
  end.

Definition shouldFlairPost (postData : PostData) (srcs : list Source) : bool :=
  if match url postData with
     | Some u =>
         match truthy (Some (hostname u)) with
         | Some host => includes ["reddit.com"; "www.reddit.com"] host
         | None => false
         end
     | None => false
     end
  then false
  else match srcs with
       | first :: _ =>
           match nonzero (tier first) with
           | Some _ => true
           | None => false
           end
       | [] => false
       end.

Inductive call : Type :=
| setPostFlair (postId text cssClass flairTemplateId subreddit : string)
| reddit_submitComment (postId text : string)
| distinguish (asSticky : bool)
| lock.

Inductive settled : Type := fulfilled | rejected.

(** [await promise]. *)
Definition await (s : settled) : res unit :=
  match s with
  | fulfilled => Ret tt
  | rejected => Throw
  end.

Definition reliabilityLevel (t : option Z) : res string :=
  match t with
  | Some 1%Z => Ret "very reliable"
  | Some 2%Z => Ret "reliable"
  | Some 3%Z => Ret (heavy_exclamation_mark ++ " unreliable")%string
  | Some 4%Z => Ret (heavy_exclamation_mark ++ " very unreliable")%string
  | Some 5%Z => Ret (heavy_exclamation_mark ++ " extremely unrialable")%string
  | _ => Throw
  end.

Definition unreliable_warning : string :=
  (heavy_exclamation_mark ++ " Readers beware: This post contains information from unreliable and/or untrustworthy source(s). As such, we highly encourage our userbase to question the authenticity of any claims or quotes presented by it before jumping into conclusions or taking things as a fact.")%string.

Definition report_header : string := "**Media reliability report:**".

Definition blank_line : string := (line_feed ++ line_feed)%string.

(** [array.filter(Boolean)] on strings and nulls: null and the empty string
    are dropped. *)
Fixpoint filter_Boolean (items : list (option string)) : list string :=
  match items with
  | [] => []
  | item :: rest =>
      match truthy item with
      | Some text => text :: filter_Boolean rest
      | None => filter_Boolean rest
      end
  end.

(** [array.map(f)] for a callback that may throw: left to right. *)
Fixpoint map_res {A B : Type} (f : A -> res B) (l : list A) : res (list B) :=
  match l with
  | [] => Ret []
  | x :: rest => y <- f x ;; ys <- map_res f rest ;; Ret (y :: ys)
  end.

Section Report.

(** The text of a number in a template literal. *)
Variable number_text : Z -> string.

(** How the platform ends each call. *)
Variable answer : call -> settled.

Definition flairPost (postId : string) (srcs : list Source)
    (subreddit flairCssClass flairTemplateId : string) : list call * res unit :=
  match srcs with
  | [] => ([], Throw)
  | first :: _ =>
      let flairText :=
        match nonzero (tier first) with
        | Some t => Some ("Tier " ++ number_text t)%string
        | None =>
            match type first with
            | aggregator => Some "Aggregator"
            | _ => None
            end
        end in
      match truthy flairText with
      | None => ([], Ret tt)
      | Some text =>
          let flair :=
            setPostFlair postId text flairCssClass flairTemplateId subreddit in
          ([flair], await (answer flair))
      end
  end.

Definition getSourceLine (source : Source) : res string :=
  let domain := match domains source with
                | Some (d :: _) => Some d
                | _ => None
                end in
  let sourceName :=
    match truthy (twitter source) with
    | Some handle =>
        (name source ++ " ([@" ++ handle ++ "](https://twitter.com/" ++ handle ++ "))")%string
    | None =>
        match truthy domain with
        | Some d => (name source ++ " ([" ++ d ++ "](https://" ++ d ++ "))")%string
        | None => name source
        end
    end in
  match nonzero (tier source) with
  | Some t =>
      level <- reliabilityLevel (Some t) ;;
      Ret ("**Tier " ++ number_text t ++ "**: " ++ sourceName ++ " - " ++ level)%string
  | None =>
      kind <- capitalizeString (type_text (type source)) ;;
      Ret ("**" ++ kind ++ "**: " ++ sourceName)%string
  end.

Definition is_unreliable (source : Source) : bool :=
  match nonzero (tier source) with
  | Some t => (3 <=? t)%Z
  | None => false
  end.

(** The text of the comment, as [submitComment] puts it together: throws
    when a source line cannot be written. *)
Definition report_markdown (srcs : list Source) (settings : AppSettings)
    : res string :=
  lines <- map_res (fun source => line <- getSourceLine source ;;
                                  Ret ("- " ++ line)%string) srcs ;;
  Ret (join blank_line
         (filter_Boolean
            ([Some report_header] ++ List.map Some lines
             ++ [if existsb is_unreliable srcs then Some unreliable_warning else None]
             ++ [Some (commentFooter settings)]))).

(** The calls [submitComment] issues, and how it ends.  [Promise.all] issues
    both of its calls and is rejected when either of them is. *)
Definition submitComment (postData : PostData) (srcs : list Source)
    (settings : AppSettings) : list call * res unit :=
  let (flair, flaired) :=
    if shouldFlairPost postData srcs
    then flairPost (post_id postData) srcs (subredditName postData)
                   (flairCssClass settings) (flairTemplateId settings)
    else ([], Ret tt) in
  match flaired with
  | Ret _ =>
      match report_markdown srcs settings with
      | Ret markdown =>
          let comment := reddit_submitComment (post_id postData) markdown in
          match answer comment with
          | rejected => (flair ++ [comment], Throw)
          | fulfilled =>
              (flair ++ [comment; distinguish true; lock],
               match answer (distinguish true), answer lock with
               | fulfilled, fulfilled => Ret tt
               | _, _ => Throw
               end)
          end
      | Throw => (flair, Throw)
      | Beyond => (flair, Beyond)
      end
  | Throw => (flair, Throw)
  | Beyond => (flair, Beyond)
  end.

End Report.

(** Tiers the report has a wording for: none, or 1 to 5 (0 counts as none). *)
Definition known_tier (source : Source) : bool :=
  match tier source with
  | None => true
  | Some t => (0 <=? t)%Z && (t <=? 5)%Z
  end.

(** The flair of a report: the tier of the first source, on a post that is
    to be flaired. *)
Definition tier_flair (number_text : Z -> string) (postData : PostData)
    (srcs : list Source) (settings : AppSettings) : list call :=
  if shouldFlairPost postData srcs then
    match srcs with
    | first :: _ =>
        match tier first with
        | Some t =>
            [setPostFlair (post_id postData) ("Tier " ++ number_text t)
               (flairCssClass settings) (flairTemplateId settings)
               (subredditName postData)]
        | None => []
        end
    | [] => []
    end
  else [].

(** Every call of a list is fulfilled. *)
Definition all_fulfilled (answer : call -> settled) (calls : list call) : Prop :=
  forall c, In c calls -> answer c = fulfilled.

(** The platform at its best: no call is rejected. *)
Definition obliging : call -> settled := fun _ => fulfilled.

(** A platform that rejects locking a comment. *)
Definition no_lock (c : call) : settled :=
  match c with
  | lock => rejected
  | _ => fulfilled
  end.

(** Texts of white space only, and usernames of username characters only. *)
Definition blank (text : string) : bool :=
  forallb Char.is_space (list_ascii_of_string text).

Definition clean (username : string) : bool :=
  forallb username_char (list_ascii_of_string username).

(** A username written with white space before and after it. *)
Definition padded (item : string * string * string) : string :=
  let '(before, username, after) := item in (before ++ username ++ after)%string.

Definition username_of (item : string * string * string) : string :=
  let '(_, username, _) := item in username.

Definition well_padded (item : string * string * string) : bool :=
  let '(before, username, after) := item in
  blank before && clean username && blank after.

(** ** The trigger ([src/main.ts], [src/helpers.ts])

    What the platform answers is taken as given: the post a [getPostById]
    returns, or its failure, the settings [getAllSettings] returns, or
    the failure of their validation, and how each call of the report and each
    private message ends; the settings are the same at every call within one
    event.  What is thrown is an Error, as everything the code of the
    repository throws is. *)

Record PostSubmit : Type := mkPostSubmit {
  event_post_id : option string;
  event_crosspostParentId : option string;
  event_subreddit_name : option string;
  event_author_name : option string
}.

Record Reddit : Type := mkReddit {
  getPostById : string -> res RedditPostV1;
  getAllSettings : res AppSettings;
  (* how a call of the report ends *)
  call_answer : call -> settled;
  (* how sendPrivateMessage ends, by subject, link and recipient *)
  message_answer : string -> string -> string -> settled
}.

(** The calls of the trigger beyond those of the report.  The text of the
    private message is the sentence below with the link, a blank line and the
    description of the error; the description is not modelled, so the call
    is recorded with the link alone. *)
Inductive notice : Type :=
| report_call (c : call)
| console_error
| sendPrivateMessage (subject link recipient : string).

(** [postId.replace(/^t3_/, '')]. *)
Definition strip_t3 (postId : string) : string :=
  match postId with
  | String "t"%char (String "3"%char (String "_"%char rest)) => rest
  | _ => postId
  end.

Definition error_subject : string :=
  "An error occurred with the media reliability app".

Definition error_link (postId : string) : string :=
  ("https://redd.it/" ++ strip_t3 postId)%string.

Definition trySendPostErrorModmail (reddit : Reddit) (postId : string)
    : list notice * res unit :=
  match getAllSettings reddit with
  | Ret settings =>
      match truthy (Some (errorReportSubredditName settings)) with
      | Some recipient =>
          ([sendPrivateMessage error_subject (error_link postId) recipient],
           await (message_answer reddit error_subject (error_link postId) recipient))
      | None => ([], Ret tt)
      end
  | Throw => ([], Throw)
  | Beyond => ([], Beyond)
  end.

Section Trigger.

Variable number_text : Z -> string.
Variable pf : Platform.
Variable reddit : Reddit.

(** The body of the [try] block. *)
Definition attempt (event : PostSubmit) : list notice * res unit :=
  match truthy (event_post_id event), truthy (event_subreddit_name event),
        truthy (event_author_name event) with
  | Some postId, Some _, Some author =>
      match getPostById reddit
              match truthy (event_crosspostParentId event) with
              | Some parent => parent
              | None => postId
              end with
      | Ret post =>
          match processPost pf post with
          | Ret postData =>
              match getAllSettings reddit with
              | Ret settings =>
                  if isIgnoredUser author settings then ([], Ret tt)
                  else
                    match findSourcesInPost postData settings with
                    | Ret (Some srcs) =>
                        let (calls, outcome) :=
                          submitComment number_text (call_answer reddit)
                                        postData srcs settings in
                        (List.map report_call calls, outcome)
                    | Ret None => ([], Ret tt)
                    | Throw => ([], Throw)
                    | Beyond => ([], Beyond)
                    end
              | Throw => ([], Throw)
              | Beyond => ([], Beyond)
              end
          | Throw => ([], Throw)
          | Beyond => ([], Beyond)
          end
      | Throw => ([], Throw)
      | Beyond => ([], Beyond)
      end
  | _, _, _ => ([], Throw)
  end.

(** The handler of the PostSubmit trigger: the [try] block and its [catch].
    Nothing catches what is thrown while the error is reported. *)
Definition onPostSubmit (event : PostSubmit) : list notice * res unit :=
  match attempt event with
  | (calls, Throw) =>
      match truthy (event_post_id event) with
      | Some postId =>
          let (more, outcome) := trySendPostErrorModmail reddit postId in
          (calls ++ console_error :: more, outcome)
      | None => (calls ++ [console_error], Ret tt)
      end
  | finished => finished
  end.

End Trigger.

(** A platform state for the samples: one post, valid settings with one
    source, an ignore list and a subreddit for error reports; no call is
    rejected. *)
Definition sample_reddit : Reddit :=
  mkReddit
    (fun postId => if String.eqb postId "t3_1" then Ret sample_post else Throw)
    (Ret (mkAppSettings [sample_source "story" false None None None]
            "" "" "" true ["AutoModerator"] "barcadev"))
    obliging
    (fun _ _ _ => fulfilled).

(** The same platform with settings that fail their validation. *)
Definition unsettled_reddit : Reddit :=
  mkReddit (getPostById sample_reddit) Throw obliging (fun _ _ _ => fulfilled).

Definition sample_event (postId : string) : PostSubmit :=
  mkPostSubmit (Some postId) None (Some "soccer") (Some "someone").

(** * Facts *)

(** ** The matcher finds exactly the matches *)

Section MatchSpec.

Variable ic : bool.
Variable s : list ascii.

Lemma Match_bounds r i j : Match ic s r i j -> i <= j /\ (i < j -> j <= length s).
Proof.
  induction 1; try (split; lia);
    try (split; [lia | intros _; apply Nat.le_succ_l, nth_error_Some; congruence]);
    try assumption.
Qed.

Lemma one_spec p i k :
  one s p i k = true <-> exists d, nth_error s i = Some d /\ p d = true /\ k (S i) = true.
Proof.
  unfold one. destruct (nth_error s i) as [d|].
  - rewrite andb_true_iff. split.
    + intros [H1 H2]. eauto.
    + intros (d' & E & H1 & H2). inversion E; subst. auto.
  - split; [discriminate | intros (d & E & _); discriminate].
Qed.

Section Loop.

Variable a : regex.
Hypothesis IH : forall i k,
  matches ic s a i k = true <-> exists j, Match ic s a i j /\ k j = true.

Lemma loop_sound k fuel : forall i,
  loop (matches ic s a) k fuel i = true ->
  exists j, Match ic s (Rep QStar a) i j /\ k j = true.
Proof.
  induction fuel as [|fuel IHf]; intros i; simpl; rewrite orb_true_iff.
  - intros [H|H]; [|discriminate]. exists i. split; [apply MStarNil | assumption].
  - intros [H|H].
    + exists i. split; [apply MStarNil | assumption].
    + apply IH in H. destruct H as (j & Hm & Hk).
      apply andb_true_iff in Hk. destruct Hk as [Hlt Hk].
      apply Nat.ltb_lt in Hlt. apply IHf in Hk. destruct Hk as (l & Hs & Hk).
      exists l. split; [econstructor; eassumption | assumption].
Qed.

Lemma loop_complete k i j :
  Match ic s (Rep QStar a) i j -> k j = true ->
  forall fuel, length s - i <= fuel -> loop (matches ic s a) k fuel i = true.
Proof.
  intros H. remember (Rep QStar a) as r eqn:Er. revert Er.
  induction H; intros Er; inversion Er; subst; intros Hk fuel Hf.
  - destruct fuel; simpl; rewrite Hk; reflexivity.
  - pose proof (Match_bounds _ _ _ H) as [_ Hb]. specialize (Hb H0).
    destruct fuel as [|fuel]; [lia|].
    simpl. apply orb_true_iff. right. apply IH. exists j. split; [assumption|].
    apply andb_true_iff. split; [apply Nat.ltb_lt; assumption|].
    apply IHMatch2; [reflexivity | assumption | lia].
Qed.

Lemma loop_spec k i :
  loop (matches ic s a) k (length s) i = true <->
  exists j, Match ic s (Rep QStar a) i j /\ k j = true.
Proof.
  split.
  - apply loop_sound.
  - intros (j & H & Hk). eapply loop_complete; eauto. lia.
Qed.

End Loop.

(** The matcher finds exactly the matches. *)
Lemma matches_spec r : forall i k,
  matches ic s r i k = true <-> exists j, Match ic s r i j /\ k j = true.
Proof.
  induction r as [ | c | | neg cl | | | neg | a IHa b IHb | a IHa b IHb | q a IHa | cap a IHa];
    intros i k; simpl.
  - split; [intros H; exists i; split; [constructor|assumption]
           | intros (j & H & Hk); inversion H; subst; assumption].
  - rewrite one_spec. split.
    + intros (d & E & H1 & H2). exists (S i). split; [econstructor; eauto | assumption].
    + intros (j & H & Hk). inversion H; subst. eauto.
  - rewrite one_spec. split.
    + intros (d & E & H1 & H2). exists (S i). split; [|assumption].
      econstructor; eauto. apply negb_true_iff; assumption.
    + intros (j & H & Hk). inversion H; subst. exists d.
      repeat split; auto. apply negb_true_iff; assumption.
  - rewrite one_spec. split.
    + intros (d & E & H1 & H2). exists (S i). split; [econstructor; eauto | assumption].
    + intros (j & H & Hk). inversion H; subst. eauto.
  - rewrite andb_true_iff, Nat.eqb_eq. split.
    + intros [-> Hk]. exists 0. split; [constructor | assumption].
    + intros (j & H & Hk). inversion H; subst. auto.
  - rewrite andb_true_iff, Nat.eqb_eq. split.
    + intros [-> Hk]. exists (length s). split; [constructor | assumption].
    + intros (j & H & Hk). inversion H; subst. auto.
  - rewrite andb_true_iff. split.
    + intros [Hb Hk]. exists i. split; [constructor; assumption | assumption].
    + intros (j & H & Hk). inversion H; subst. auto.
  - rewrite IHa. split.
    + intros (j & Ha & Hb). apply IHb in Hb. destruct Hb as (l & Hb & Hk).
      exists l. split; [econstructor; eassumption | assumption].
    + intros (l & H & Hk). inversion H; subst. exists j. split; [assumption|].
      apply IHb. eauto.
  - rewrite orb_true_iff, IHa, IHb. split.
    + intros [(j & H & Hk)|(j & H & Hk)]; exists j; split; auto using MAltL, MAltR.
    + intros (j & H & Hk). inversion H; subst; eauto.
  - destruct q.
    + apply (loop_spec a IHa).
    + rewrite IHa. split.
      * intros (j & Ha & Hl). apply (loop_spec a IHa) in Hl. destruct Hl as (l & Hs & Hk).
        exists l. split; [econstructor; eassumption | assumption].
      * intros (l & H & Hk). inversion H; subst. exists j. split; [assumption|].
        apply (loop_spec a IHa). eauto.
    + rewrite orb_true_iff, IHa. split.
      * intros [(j & H & Hk)|Hk].
        -- exists j. split; [apply MOptSome; assumption | assumption].
        -- exists i. split; [apply MOptNone | assumption].
      * intros (j & H & Hk). inversion H; subst; eauto.
  - rewrite IHa. split.
    + intros (j & H & Hk). exists j. split; [constructor; assumption | assumption].
    + intros (j & H & Hk). inversion H; subst. eauto.
Qed.

Lemma search_spec r : forall n i,
  search ic s r n i = true <-> exists b e, i <= b <= i + n /\ Match ic s r b e.
Proof.
  induction n as [|n IHn]; intros i; simpl; rewrite orb_true_iff, matches_spec.
  - split.
    + intros [(e & H & _)|H]; [|discriminate]. exists i, e. split; [lia | assumption].
    + intros (b & e & Hb & H). left. assert (b = i) by lia. subst. eauto.
  - rewrite IHn. split.
    + intros [(e & H & _)|(b & e & Hb & H)].
      * exists i, e. split; [lia | assumption].
      * exists b, e. split; [lia | assumption].
    + intros (b & e & Hb & H). destruct (Nat.eq_dec b i) as [->|Hne].
      * left. eauto.
      * right. exists b, e. split; [lia | assumption].
Qed.

End MatchSpec.

(** ** The parser on the patterns of the matcher *)

Module ParserFacts.
Import Parser.

Lemma chars_app a b : chars (a ++ b) = chars a ++ chars b.
Proof. induction a as [|c a IH]; simpl; [reflexivity | rewrite IH; reflexivity]. Qed.

Lemma run_app p q : forall st,
  run st (p ++ q) = (st' <- run st p ;; run st' q).
Proof.
  induction p as [|c p IH]; intros st; simpl; [reflexivity|].
  destruct (step st c); simpl; auto.
Qed.

Lemma step_normal_plain st c :
  Char.plain c = true -> step_normal st c = add_atom (Chr c) st.
Proof.
  destruct c as [[] [] [] [] [] [] [] []]; intros H;
    solve [reflexivity | discriminate H].
Qed.

Lemma run_plain w : forall st,
  forallb Char.plain w = true -> md st = Normal ->
  run st w = Ret (push_lits w st).
Proof.
  induction w as [|c w IH]; intros st H Hm; simpl in *.
  - destruct st as [f bl m t]; simpl in *; subst. destruct f; reflexivity.
  - apply andb_true_iff in H. destruct H as [Hc Hw].
    unfold step. rewrite Hm, step_normal_plain by exact Hc. simpl.
    rewrite IH by (exact Hw || reflexivity).
    unfold push_lits; simpl. rewrite <- app_assoc, Hm. simpl.
    destruct w; reflexivity.
Qed.

Ltac parse_step :=
  first
    [ rewrite run_app
    | rewrite run_plain by (assumption || reflexivity)
    | progress cbn [bind]
    | progress simpl ].

Ltac parse_done :=
  unfold finish, close_frame, push_term, push_lits; simpl;
  rewrite ?rev_app_distr; simpl; rewrite ?rev_involutive; simpl;
  rewrite <- ?app_assoc; simpl; try reflexivity.

Ltac parse_all H :=
  intros H; unfold parse; rewrite !chars_app; repeat parse_step; parse_done.

Lemma parse_word_bounded n :
  plain_text n = true ->
  parse (chars ("\b" ++ n ++ "\b")) = Ret (re_word (chars n)).
Proof. parse_all H. Qed.

Lemma parse_common_title n :
  plain_text n = true ->
  parse (chars ("^" ++ n ++ ":|(\(|\[)" ++ n ++ "(\)|\])"))
  = Ret (re_common_title (chars n)).
Proof. parse_all H. Qed.

Lemma parse_common_body n :
  plain_text n = true ->
  parse (chars (n ++ ":|(\[|\()" ++ n ++ "(\]|\))"))
  = Ret (re_common_body (chars n)).
Proof. parse_all H. Qed.

Lemma parse_handle h :
  plain_text h = true ->
  parse (chars ("^@?" ++ h ++ ":|@" ++ h ++ "\b|(\(|\[)" ++ h ++ "(\)|\])"))
  = Ret (re_handle (chars h)).
Proof. parse_all H. Qed.

Lemma parse_path_escaped h :
  plain_text h = true ->
  parse (chars ("^\/" ++ h ++ "(\/|\s|$)")) = Ret (re_path (chars h)).
Proof. parse_all H. Qed.

Lemma parse_path h :
  plain_text h = true ->
  parse (chars ("^/" ++ h ++ "(\/|\s|$)")) = Ret (re_path (chars h)).
Proof. parse_all H. Qed.

Lemma run_escaped d : forall st,
  domain_text d = true -> md st = Normal ->
  run st (chars (escape_periods d)) = Ret (push_lits (chars d) st).
Proof.
  unfold domain_text.
  induction d as [|c d IH]; intros st H Hm; destruct st as [[al tm cap] bl m t];
    simpl in Hm; subst m.
  - reflexivity.
  - change (chars (String c d)) with (c :: chars d) in *.
    cbn [forallb] in H. apply andb_true_iff in H. destruct H as [Hc Hd].
    cbn [escape_periods].
    destruct (Ascii.eqb_spec c "."%char) as [->|Hne].
    + cbn [list_ascii_of_string run]. unfold step; simpl.
      rewrite IH by (exact Hd || reflexivity).
      unfold push_lits; simpl. rewrite <- app_assoc. simpl.
      destruct (chars d); reflexivity.
    + apply orb_true_iff in Hc. destruct Hc as [Hc|Hc];
        [|discriminate Hc].
      cbn [list_ascii_of_string run]. unfold step.
      cbn [md]. rewrite step_normal_plain by exact Hc. simpl.
      rewrite IH by (exact Hd || reflexivity).
      unfold push_lits; simpl. rewrite <- app_assoc. simpl.
      destruct (chars d); reflexivity.
Qed.

Lemma parse_domain d :
  domain_text d = true ->
  parse (chars (domain_pattern d)) = Ret (re_domain (chars d)).
Proof.
  intros H. unfold parse, domain_pattern. rewrite !chars_app.
  rewrite run_app. simpl (run initial _). cbn [bind].
  rewrite run_app, run_escaped by (assumption || reflexivity).
  repeat parse_step. parse_done.
Qed.
End ParserFacts.

(** ** Reading a match off a tree *)

Section MatchFacts.

Variable ic : bool.
Variable s : list ascii.

Lemma skipn_nth_some i d :
  nth_error s i = Some d -> skipn i s = d :: skipn (S i) s.
Proof.
  revert i. induction s as [|x l IH]; intros [|i] H; simpl in *; try discriminate.
  - inversion H; reflexivity.
  - apply IH in H. rewrite H. destruct l; reflexivity.
Qed.

Lemma skipn_nth_none i : nth_error s i = None -> skipn i s = [].
Proof. intros H. apply skipn_all2, nth_error_None, H. Qed.

Lemma Match_nil i l : Match ic s (mkSeq []) i l <-> i = l.
Proof.
  simpl. split; [intros H; inversion H; reflexivity | intros ->; constructor].
Qed.

Lemma Match_cons r rest i l :
  Match ic s (mkSeq (r :: rest)) i l <->
  exists j, Match ic s r i j /\ Match ic s (mkSeq rest) j l.
Proof.
  simpl. split.
  - intros H. inversion H; subst. eauto.
  - intros (j & H1 & H2). econstructor; eassumption.
Qed.

Lemma Match_Chr c i j :
  Match ic s (Chr c) i j <-> char_is s i (Char.same ic c) = true /\ j = S i.
Proof.
  unfold char_is. split.
  - intros H. inversion H; subst. rewrite H1. auto.
  - intros [H ->]. destruct (nth_error s i) eqn:E; [|discriminate].
    econstructor; eassumption.
Qed.

Lemma Match_Bol i j : Match ic s Bol i j <-> i = 0 /\ j = 0.
Proof.
  split; [intros H; inversion H; auto | intros [-> ->]; constructor].
Qed.

Lemma Match_Eol i j : Match ic s Eol i j <-> i = length s /\ j = i.
Proof.
  split; [intros H; inversion H; auto | intros [-> ->]; constructor].
Qed.

Lemma Match_WordB i j :
  Match ic s (WordB false) i j <-> boundary s i = true /\ j = i.
Proof.
  split; [intros H; inversion H; subst; auto | intros [H ->]; constructor; exact H].
Qed.

Lemma Match_Alt a b i j :
  Match ic s (Alt a b) i j <-> Match ic s a i j \/ Match ic s b i j.
Proof.
  split; [intros H; inversion H; auto | intros [H|H]; [apply MAltL | apply MAltR]; exact H].
Qed.

Lemma Match_Group cap a i j : Match ic s (Group cap a) i j <-> Match ic s a i j.
Proof.
  split; [intros H; inversion H; auto | intros H; constructor; exact H].
Qed.

Lemma Match_Opt a i j :
  Match ic s (Rep QOpt a) i j <-> Match ic s a i j \/ j = i.
Proof.
  split; [intros H; inversion H; auto | intros [H| ->]; [apply MOptSome; exact H | apply MOptNone]].
Qed.

Lemma Match_single r i j : Match ic s (mkSeq [r]) i j <-> Match ic s r i j.
Proof.
  rewrite Match_cons. split.
  - intros (l & H1 & H2). apply Match_nil in H2. subst. exact H1.
  - intros H. exists j. split; [exact H | apply Match_nil; reflexivity].
Qed.

(** Literal text in front of the rest of a sequence. *)
Lemma Match_lits w rest : forall i l,
  Match ic s (mkSeq (lits w ++ rest)) i l <->
  occurs_at ic w s i = true /\ Match ic s (mkSeq rest) (i + length w) l.
Proof.
  unfold occurs_at.
  induction w as [|c w IH]; intros i l.
  - simpl (lits [] ++ rest). simpl length. rewrite Nat.add_0_r. simpl. tauto.
  - change (lits (c :: w) ++ rest) with (Chr c :: (lits w ++ rest)).
    rewrite Match_cons. split.
    + intros (j & H1 & H2). apply Match_Chr in H1. destruct H1 as [H1 ->].
      apply IH in H2. destruct H2 as [H2 H3]. unfold char_is in H1.
      destruct (nth_error s i) as [d|] eqn:E; [|discriminate].
      rewrite (skipn_nth_some _ _ E). cbn [prefix_of]. rewrite H1, H2. split; [reflexivity|].
      replace (i + length (c :: w)) with (S i + length w) by (simpl; lia). exact H3.
    + intros [H1 H2]. destruct (nth_error s i) as [d|] eqn:E.
      * rewrite (skipn_nth_some _ _ E) in H1. cbn [prefix_of] in H1.
        apply andb_true_iff in H1. destruct H1 as [Hc Hw].
        exists (S i). split.
        -- apply Match_Chr. unfold char_is. rewrite E. auto.
        -- apply IH. split; [exact Hw|].
           replace (S i + length w) with (i + length (c :: w)) by (simpl; lia). exact H2.
      * rewrite (skipn_nth_none _ E) in H1. discriminate.
Qed.

End MatchFacts.

Section Shapes.

Variable ic : bool.
Variable s : list ascii.

Ltac trues := repeat (apply andb_true_iff; split); assumption.

Ltac minv0 :=
  repeat match goal with
  | H : Match _ _ (mkSeq (lits _ ++ _)) _ _ |- _ =>
      apply -> Match_lits in H; destruct H as [? H]
  | H : Match _ _ (mkSeq [_]) _ _ |- _ => apply -> Match_single in H
  | H : Match _ _ (mkSeq (_ :: _)) _ _ |- _ =>
      apply -> Match_cons in H; destruct H as (? & ? & H)
  | H : Match _ _ (mkSeq []) _ _ |- _ => apply -> Match_nil in H; subst
  | H : Match _ _ (Chr _) _ _ |- _ => apply -> Match_Chr in H; destruct H as [H ?]; subst
  | H : Match _ _ Bol _ _ |- _ => apply -> Match_Bol in H; destruct H as [? ?]; subst
  | H : Match _ _ Eol _ _ |- _ => apply -> Match_Eol in H; destruct H as [? ?]; subst
  | H : Match _ _ (WordB false) _ _ |- _ =>
      apply -> Match_WordB in H; destruct H as [H ?]; subst
  | H : Match _ _ (Group _ _) _ _ |- _ => apply -> Match_Group in H
  | H : Match _ _ (Alt _ _) _ _ |- _ => apply -> Match_Alt in H; destruct H as [H|H]
  | H : Match _ _ (Rep QOpt _) _ _ |- _ => apply -> Match_Opt in H; destruct H as [H|H]; subst
  end.

Lemma Match_either a b i j :
  Match ic s (either a b) i j <->
  char_is s i (fun d => Char.same ic a d || Char.same ic b d) = true /\ j = S i.
Proof.
  unfold either, char_is. split.
  - intros H. minv0; unfold char_is in *;
      destruct (nth_error s i); try discriminate; rewrite H; auto using orb_true_r.
  - intros [H ->]. apply Match_Group, Match_Alt.
    destruct (nth_error s i) as [d|] eqn:E; [|discriminate].
    apply orb_true_iff in H. destruct H as [H|H]; [left|right];
      apply Match_single, Match_Chr; unfold char_is; rewrite E; auto.
Qed.

Ltac minv :=
  repeat match goal with
  | H : Match _ _ (mkSeq (lits _ ++ _)) _ _ |- _ =>
      apply -> Match_lits in H; destruct H as [? H]
  | H : Match _ _ (mkSeq [_]) _ _ |- _ => apply -> Match_single in H
  | H : Match _ _ (mkSeq (_ :: _)) _ _ |- _ =>
      apply -> Match_cons in H; destruct H as (? & ? & H)
  | H : Match _ _ (mkSeq []) _ _ |- _ => apply -> Match_nil in H; subst
  | H : Match _ _ (Chr _) _ _ |- _ => apply -> Match_Chr in H; destruct H as [H ?]; subst
  | H : Match _ _ Bol _ _ |- _ => apply -> Match_Bol in H; destruct H as [? ?]; subst
  | H : Match _ _ Eol _ _ |- _ => apply -> Match_Eol in H; destruct H as [? ?]; subst
  | H : Match _ _ (WordB false) _ _ |- _ =>
      apply -> Match_WordB in H; destruct H as [H ?]; subst
  | H : Match _ _ (either _ _) _ _ |- _ =>
      apply -> Match_either in H; destruct H as [H ?]; subst
  | H : Match _ _ (Group _ _) _ _ |- _ => apply -> Match_Group in H
  | H : Match _ _ (Alt _ _) _ _ |- _ => apply -> Match_Alt in H; destruct H as [H|H]
  | H : Match _ _ (Rep QOpt _) _ _ |- _ => apply -> Match_Opt in H; destruct H as [H|H]; subst
  end.

Lemma boundary_inside i : boundary s i = true -> i <= length s.
Proof.
  unfold boundary, word_before, word_at. intros H.
  destruct (Nat.le_gt_cases i (length s)) as [L|G]; [exact L|].
  assert (E1 : nth_error s i = None) by (apply nth_error_None; lia).
  rewrite E1 in H. destruct i as [|k]; [lia|].
  assert (E2 : nth_error s k = None) by (apply nth_error_None; lia).
  rewrite E2 in H. discriminate.
Qed.

Lemma char_is_inside i p : char_is s i p = true -> i < length s.
Proof.
  unfold char_is. intros H. apply nth_error_Some.
  destruct (nth_error s i); [discriminate | discriminate H].
Qed.

Lemma found_word w :
  (exists b e, b <= length s /\ Match ic s (re_word w) b e) <->
  exists i, word_bounded_at ic s w i = true.
Proof.
  unfold re_word, word_bounded_at. split.
  - intros (b & e & Hb & H). minv. exists b. trues.
  - intros (i & H). apply andb_true_iff in H. destruct H as [H H3].
    apply andb_true_iff in H. destruct H as [H1 H2].
    exists i, (i + length w). split; [apply boundary_inside; exact H1|].
    apply Match_cons. exists i. split; [apply Match_WordB; auto|].
    apply Match_lits. split; [exact H2|]. apply Match_single, Match_WordB. auto.
Qed.

Ltac bools :=
  repeat match goal with
  | H : _ && _ = true |- _ => apply andb_true_iff in H; destruct H
  | H : _ || _ = true |- _ => apply orb_true_iff in H; destruct H
  end.

Lemma Match_colon_after w i :
  colon_after_at ic s w i = true ->
  Match ic s (mkSeq (lits w ++ [Chr ":"%char])) i (S (i + length w)).
Proof.
  unfold colon_after_at. intros H. bools.
  apply Match_lits. split; [assumption|]. apply Match_single, Match_Chr. auto.
Qed.

Lemma Match_enclosed o1 o2 c1 c2 w i :
  enclosed_at ic s o1 o2 c1 c2 w i = true ->
  Match ic s (mkSeq (either o1 o2 :: lits w ++ [either c1 c2])) i
        (S (S i + length w)).
Proof.
  unfold enclosed_at. intros H. bools.
  apply Match_cons. exists (S i). split; [apply Match_either; auto|].
  apply Match_lits. split; [assumption|]. apply Match_single, Match_either. auto.
Qed.

Lemma found_common_title w :
  (exists b e, b <= length s /\ Match ic s (re_common_title w) b e) <->
  colon_after_at ic s w 0 = true \/
  exists i, enclosed_at ic s "("%char "["%char ")"%char "]"%char w i = true.
Proof.
  unfold re_common_title. split.
  - intros (b & e & Hb & H). minv.
    + left. unfold colon_after_at. trues.
    + right. exists b. unfold enclosed_at. trues.
  - intros [H|(i & H)].
    + exists 0, (S (0 + length w)). split; [lia|]. apply Match_Alt. left.
      apply Match_cons. exists 0. split; [apply Match_Bol; auto|].
      apply Match_colon_after, H.
    + exists i, (S (S i + length w)). split.
      * unfold enclosed_at in H. bools.
        apply Nat.lt_le_incl. eapply char_is_inside; eassumption.
      * apply Match_Alt. right. apply Match_enclosed, H.
Qed.

Lemma found_common_body w :
  (exists b e, b <= length s /\ Match ic s (re_common_body w) b e) <->
  (exists i, colon_after_at ic s w i = true) \/
  exists i, enclosed_at ic s "["%char "("%char "]"%char ")"%char w i = true.
Proof.
  unfold re_common_body. split.
  - intros (b & e & Hb & H). minv.
    + left. exists b. unfold colon_after_at. trues.
    + right. exists b. unfold enclosed_at. trues.
  - intros [(i & H)|(i & H)].
    + exists i, (S (i + length w)). split.
      * unfold colon_after_at in H. bools.
        match goal with
        | H : char_is _ _ _ = true |- _ => apply char_is_inside in H; lia
        end.
      * apply Match_Alt. left. apply Match_colon_after, H.
    + exists i, (S (S i + length w)). split.
      * unfold enclosed_at in H. bools.
        apply Nat.lt_le_incl. eapply char_is_inside; eassumption.
      * apply Match_Alt. right. apply Match_enclosed, H.
Qed.

Lemma found_handle w :
  (exists b e, b <= length s /\ Match ic s (re_handle w) b e) <->
  colon_after_at ic s w 0 = true \/
  (char_is s 0 (Char.same ic "@"%char) && colon_after_at ic s w 1) = true \/
  (exists i, at_tagged_at ic s w i = true) \/
  exists i, enclosed_at ic s "("%char "["%char ")"%char "]"%char w i = true.
Proof.
  unfold re_handle. split.
  - intros (b & e & Hb & H). minv.
    + right; left. unfold colon_after_at. trues.
    + left. unfold colon_after_at. trues.
    + right; right; left. exists b. unfold at_tagged_at. trues.
    + right; right; right. exists b. unfold enclosed_at. trues.
  - intros [H|[H|[(i & H)|(i & H)]]].
    + exists 0, (S (0 + length w)). split; [lia|]. apply Match_Alt. left.
      apply Match_cons. exists 0. split; [apply Match_Bol; auto|].
      apply Match_cons. exists 0. split; [apply Match_Opt; auto|].
      apply Match_colon_after, H.
    + bools. exists 0, (S (1 + length w)). split; [lia|]. apply Match_Alt. left.
      apply Match_cons. exists 0. split; [apply Match_Bol; auto|].
      apply Match_cons. exists 1. split; [apply Match_Opt; left; apply Match_Chr; auto|].
      apply Match_colon_after. assumption.
    + exists i, (S i + length w). split.
      * unfold at_tagged_at in H. bools.
        apply Nat.lt_le_incl. eapply char_is_inside; eassumption.
      * apply Match_Alt. right. apply Match_Alt. left.
        unfold at_tagged_at in H. bools.
        apply Match_cons. exists (S i). split; [apply Match_Chr; auto|].
        apply Match_lits. split; [assumption|]. apply Match_single, Match_WordB. auto.
    + exists i, (S (S i + length w)). split.
      * unfold enclosed_at in H. bools.
        apply Nat.lt_le_incl. eapply char_is_inside; eassumption.
      * apply Match_Alt. right. apply Match_Alt. right. apply Match_enclosed, H.
Qed.

Lemma Match_Cls neg cl i j :
  Match ic s (Cls neg cl) i j <->
  char_is s i (fun d => xorb neg (in_class cl d)) = true /\ j = S i.
Proof.
  unfold char_is. split.
  - intros H. inversion H; subst.
    match goal with E : nth_error _ _ = Some _ |- _ => rewrite E end. auto.
  - intros [H ->]. destruct (nth_error s i) eqn:E; [|discriminate].
    econstructor; eassumption.
Qed.

Lemma found_path w :
  (exists b e, b <= length s /\ Match ic s (re_path w) b e) <->
  first_segment ic s w = true.
Proof.
  unfold re_path, first_segment. split.
  - intros (b & e & Hb & H). minv.
    + apply andb_true_iff. split; [trues|]. apply orb_true_iff. left.
      unfold char_is in *. destruct (nth_error s (1 + length w)); [|discriminate].
      apply orb_true_iff. left. assumption.
    + apply -> Match_Cls in H. destruct H as [H _].
      apply andb_true_iff. split; [trues|]. apply orb_true_iff. left.
      unfold char_is in *. destruct (nth_error s (1 + length w)); [|discriminate].
      apply orb_true_iff. right. exact H.
    + apply andb_true_iff. split; [trues|]. apply orb_true_iff. right.
      apply Nat.eqb_eq. assumption.
  - intros H. bools.
    + exists 0, (S (1 + length w)). split; [lia|].
      apply Match_cons. exists 0. split; [apply Match_Bol; auto|].
      apply Match_cons. exists 1. split; [apply Match_Chr; auto|].
      apply Match_lits. split; [assumption|]. apply Match_single, Match_Group.
      unfold char_is in *. destruct (nth_error s (1 + length w)) as [d|] eqn:E;
        [|discriminate].
      bools.
      * apply Match_Alt. left. apply Match_single, Match_Chr.
        unfold char_is. rewrite E. auto.
      * apply Match_Alt. right. apply Match_Alt. left.
        apply Match_single, Match_Cls. unfold char_is. rewrite E. auto.
    + exists 0, (1 + length w). split; [lia|].
      apply Match_cons. exists 0. split; [apply Match_Bol; auto|].
      apply Match_cons. exists 1. split; [apply Match_Chr; auto|].
      apply Match_lits. split; [assumption|]. apply Match_single, Match_Group.
      apply Match_Alt. right. apply Match_Alt. right.
      apply Match_single, Match_Eol.
      match goal with H : (_ =? _) = true |- _ => apply Nat.eqb_eq in H end.
      auto.
Qed.

(** [.*] runs over any stretch that has no line terminator. *)
Lemma Match_any_run :
  (forall m d, nth_error s m = Some d -> Char.is_line_terminator d = false) ->
  forall n i, i + n <= length s -> Match ic s (Rep QStar Any) i (i + n).
Proof.
  intros Hfree. induction n as [|n IH]; intros i Hle.
  - rewrite Nat.add_0_r. apply MStarNil.
  - destruct (nth_error s i) as [d|] eqn:E.
    + apply MStarCons with (j := S i).
      * apply MAny with (d := d); [exact E | eapply Hfree; exact E].
      * lia.
      * replace (i + S n) with (S i + n) by lia. apply IH. lia.
    + apply nth_error_None in E. lia.
Qed.

Lemma found_domain w :
  (forall m d, nth_error s m = Some d -> Char.is_line_terminator d = false) ->
  (exists b e, b <= length s /\ Match ic s (re_domain w) b e) <->
  suffix_at ic s w 0 = true \/
  exists m, char_is s m (Char.same ic "."%char) = true /\ suffix_at ic s w (S m) = true.
Proof.
  intros Hfree. unfold re_domain, suffix_at. split.
  - intros (b & e & Hb & H). minv.
    + right. match goal with H : Match _ _ (Rep QStar Any) 0 ?m |- _ => exists m end.
      split; [assumption|]. apply andb_true_iff. split; [assumption|].
      apply Nat.eqb_eq. assumption.
    + left. apply andb_true_iff. split; [assumption|].
      apply Nat.eqb_eq. assumption.
  - intros [H|(m & Hm & H)]; bools;
      match goal with H : (_ =? _) = true |- _ => apply Nat.eqb_eq in H end.
    + exists 0, (0 + length w). split; [lia|].
      apply Match_cons. exists 0. split; [apply Match_Bol; auto|].
      apply Match_cons. exists 0. split; [apply Match_Opt; auto|].
      apply Match_lits. split; [assumption|]. apply Match_single, Match_Eol. auto.
    + exists 0, (S m + length w). split; [lia|].
      apply Match_cons. exists 0. split; [apply Match_Bol; auto|].
      apply Match_cons. exists (S m). split.
      * apply Match_Opt. left. apply Match_Group.
        apply Match_cons. exists m. split.
        -- apply (Match_any_run Hfree m 0). apply char_is_inside in Hm. lia.
        -- apply Match_single, Match_Chr. auto.
      * apply Match_lits. split; [assumption|]. apply Match_single, Match_Eol. auto.
Qed.

End Shapes.

(** ** From a search to the text predicates *)

Section TestFacts.

Lemma test_new_parsed p f t r :
  Parser.parse (chars p) = Ret r ->
  test_new p f t = Ret (search (flag_i f) (chars t) r (length (chars t)) 0).
Proof. intros H. unfold test_new, new_RegExp. rewrite H. reflexivity. Qed.

Lemma search_found ic s r :
  search ic s r (length s) 0 = true <->
  exists b e, b <= length s /\ Match ic s r b e.
Proof.
  rewrite search_spec. split; intros (b & e & Hb & H); exists b, e; split;
    (lia || assumption).
Qed.

Lemma anywhere_iff s p :
  (forall i, p i = true -> i <= length s) ->
  anywhere s p = true <-> exists i, p i = true.
Proof.
  intros Hin. unfold anywhere. rewrite existsb_exists. split.
  - intros (i & _ & H). eauto.
  - intros (i & H). exists i. split; [|exact H].
    apply in_seq. specialize (Hin i H). lia.
Qed.

Lemma bool_eq_iff (a b : bool) : (a = true <-> b = true) -> a = b.
Proof.
  destruct a, b; intros [H1 H2]; try reflexivity.
  - symmetry. apply H1. reflexivity.
  - apply H2. reflexivity.
Qed.

Lemma char_is_ext s i p q :
  (forall d, p d = q d) -> char_is s i p = char_is s i q.
Proof. intros H. unfold char_is. destruct (nth_error s i); auto. Qed.

Lemma same_colon d : Char.same true ":"%char d = Ascii.eqb ":"%char d.
Proof. destruct d as [[] [] [] [] [] [] [] []]; reflexivity. Qed.

Lemma same_at d : Char.same true "@"%char d = Ascii.eqb "@"%char d.
Proof. destruct d as [[] [] [] [] [] [] [] []]; reflexivity. Qed.

Lemma same_slash d : Char.same true "/"%char d = Ascii.eqb "/"%char d.
Proof. destruct d as [[] [] [] [] [] [] [] []]; reflexivity. Qed.

Lemma same_opening d :
  Char.same true "("%char d || Char.same true "["%char d = opening d.
Proof. destruct d as [[] [] [] [] [] [] [] []]; reflexivity. Qed.

Lemma same_opening' d :
  Char.same true "["%char d || Char.same true "("%char d = opening d.
Proof. destruct d as [[] [] [] [] [] [] [] []]; reflexivity. Qed.

Lemma same_closing d :
  Char.same true ")"%char d || Char.same true "]"%char d = closing d.
Proof. destruct d as [[] [] [] [] [] [] [] []]; reflexivity. Qed.

Lemma same_closing' d :
  Char.same true "]"%char d || Char.same true ")"%char d = closing d.
Proof. destruct d as [[] [] [] [] [] [] [] []]; reflexivity. Qed.

Lemma word_canonicalize c : Char.is_word (Char.canonicalize c) = Char.is_word c.
Proof. destruct c as [[] [] [] [] [] [] [] []]; reflexivity. Qed.

Lemma same_word ic c d : Char.same ic c d = true -> Char.is_word d = Char.is_word c.
Proof.
  destruct ic; simpl; intros H; apply Ascii.eqb_eq in H.
  - rewrite <- (word_canonicalize d), <- (word_canonicalize c), H. reflexivity.
  - subst. reflexivity.
Qed.

End TestFacts.

Section Bridges.

Variable s : list ascii.

Lemma colon_after_true w i : colon_after_at true s w i = before_colon_at w s i.
Proof.
  unfold colon_after_at, before_colon_at. f_equal. apply char_is_ext, same_colon.
Qed.

Lemma enclosed_true w i :
  enclosed_at true s "("%char "["%char ")"%char "]"%char w i = in_brackets_at w s i.
Proof.
  unfold enclosed_at, in_brackets_at. f_equal; [f_equal|]; apply char_is_ext;
    [apply same_opening | apply same_closing].
Qed.

Lemma enclosed_true' w i :
  enclosed_at true s "["%char "("%char "]"%char ")"%char w i = in_brackets_at w s i.
Proof.
  unfold enclosed_at, in_brackets_at. f_equal; [f_equal|]; apply char_is_ext;
    [apply same_opening' | apply same_closing'].
Qed.

Lemma at_tagged_true w i : at_tagged_at true s w i = mentioned_at w s i.
Proof.
  unfold at_tagged_at, mentioned_at. do 2 f_equal. apply char_is_ext, same_at.
Qed.

Lemma first_segment_true w : first_segment true s w = handle_is_first_segment w s.
Proof.
  unfold first_segment, handle_is_first_segment. f_equal; [f_equal|f_equal].
  - apply char_is_ext, same_slash.
  - apply char_is_ext. intros d. rewrite same_slash. reflexivity.
Qed.

Lemma before_colon_inside w i : before_colon_at w s i = true -> i <= length s.
Proof.
  unfold before_colon_at. intros H. apply andb_true_iff in H. destruct H as [_ H].
  apply char_is_inside in H. lia.
Qed.

Lemma in_brackets_inside w i : in_brackets_at w s i = true -> i <= length s.
Proof.
  unfold in_brackets_at. intros H. apply andb_true_iff in H. destruct H as [H _].
  apply andb_true_iff in H. destruct H as [H _]. apply char_is_inside in H. lia.
Qed.

Lemma mentioned_inside w i : mentioned_at w s i = true -> i <= length s.
Proof.
  unfold mentioned_at. intros H. apply andb_true_iff in H. destruct H as [H _].
  apply andb_true_iff in H. destruct H as [H _]. apply char_is_inside in H. lia.
Qed.

Lemma search_common_title w :
  search true s (re_common_title w) (length s) 0 = common_name_in_title w s.
Proof.
  apply bool_eq_iff. rewrite search_found, found_common_title.
  unfold common_name_in_title. rewrite orb_true_iff, colon_after_true.
  rewrite anywhere_iff by apply in_brackets_inside.
  split; (intros [H|(i & H)]; [left; exact H | right; exists i]);
    [rewrite <- enclosed_true | rewrite enclosed_true]; exact H.
Qed.

Lemma search_common_body w :
  search true s (re_common_body w) (length s) 0 = common_name_in_body w s.
Proof.
  apply bool_eq_iff. rewrite search_found, found_common_body.
  unfold common_name_in_body. rewrite orb_true_iff.
  rewrite anywhere_iff by apply before_colon_inside.
  rewrite anywhere_iff by apply in_brackets_inside.
  split; (intros [(i & H)|(i & H)]; [left | right]; exists i);
    first [rewrite <- colon_after_true | rewrite colon_after_true
          | rewrite <- enclosed_true' | rewrite enclosed_true']; exact H.
Qed.

Lemma search_handle w :
  search true s (re_handle w) (length s) 0 = handle_in_text w s.
Proof.
  apply bool_eq_iff. rewrite search_found, found_handle.
  unfold handle_in_text. rewrite !orb_true_iff.
  rewrite anywhere_iff by apply mentioned_inside.
  rewrite anywhere_iff by apply in_brackets_inside.
  rewrite !colon_after_true.
  rewrite (char_is_ext s 0 _ _ same_at).
  split.
  - intros [H|[H|[(i & H)|(i & H)]]].
    + left; left; left. exact H.
    + left; left; right. exact H.
    + left; right. exists i. rewrite <- at_tagged_true. exact H.
    + right. exists i. rewrite <- enclosed_true. exact H.
  - intros [[[H|H]|(i & H)]|(i & H)].
    + left. exact H.
    + right; left. exact H.
    + right; right; left. exists i. rewrite at_tagged_true. exact H.
    + right; right; right. exists i. rewrite enclosed_true. exact H.
Qed.

Lemma search_path w :
  search true s (re_path w) (length s) 0 = handle_is_first_segment w s.
Proof.
  apply bool_eq_iff. rewrite search_found, found_path, first_segment_true.
  reflexivity.
Qed.

End Bridges.

Section WholeWords.

Variable s : list ascii.

Lemma prefix_nth ic w : forall t n c,
  prefix_of ic w t = true -> nth_error w n = Some c ->
  exists d, nth_error t n = Some d /\ Char.same ic c d = true.
Proof.
  induction w as [|x w IH]; intros t n c H E.
  - destruct n; discriminate.
  - destruct t as [|d t]; [discriminate|]. simpl in H.
    apply andb_true_iff in H. destruct H as [Hx Hw].
    destruct n as [|n]; simpl in *.
    + inversion E; subst. eauto.
    + eapply IH; eassumption.
Qed.

Lemma occurs_nth ic w i n c :
  occurs_at ic w s i = true -> nth_error w n = Some c ->
  char_is s (i + n) (Char.same ic c) = true.
Proof.
  unfold occurs_at, char_is. intros H E.
  destruct (prefix_nth _ _ _ _ _ H E) as (d & Hd & Hs).
  rewrite nth_error_skipn in Hd. rewrite Hd. exact Hs.
Qed.

Lemma nth_last (w : list ascii) c :
  w <> [] -> nth_error w (length w - 1) = Some (last w c).
Proof.
  induction w as [|x w IH]; intros H; [contradiction|].
  destruct w as [|y w]; [reflexivity|].
  change (last (x :: y :: w) c) with (last (y :: w) c).
  rewrite <- IH by discriminate. simpl. rewrite Nat.sub_0_r. reflexivity.
Qed.

Lemma word_at_of_char ic c i :
  char_is s i (Char.same ic c) = true -> word_at s i = Char.is_word c.
Proof.
  unfold char_is, word_at. destruct (nth_error s i); [|discriminate].
  apply same_word.
Qed.

Lemma word_bounded_isolated w i :
  word_ends w = true -> word_bounded_at true s w i = isolated_at w s i.
Proof.
  unfold word_ends, word_bounded_at, isolated_at. intros Hw.
  destruct w as [|c w]; [discriminate|].
  apply andb_true_iff in Hw. destruct Hw as [Hc Hl].
  destruct (occurs_at true (c :: w) s i) eqn:Ho;
    [|rewrite andb_false_r; reflexivity].
  assert (H1 : word_at s i = true).
  { rewrite <- Hc. apply word_at_of_char with (ic := true).
    rewrite <- (Nat.add_0_r i). eapply occurs_nth; [exact Ho | reflexivity]. }
  assert (H2 : word_before s (i + length (c :: w)) = true).
  { replace (i + length (c :: w)) with (S (i + (length (c :: w) - 1)))
      by (simpl; lia).
    simpl word_before. rewrite <- Hl. apply word_at_of_char with (ic := true).
    eapply occurs_nth; [exact Ho | apply nth_last; discriminate]. }
  unfold boundary. rewrite H1, H2.
  destruct (word_before s i), (word_at s (i + length (c :: w))); reflexivity.
Qed.

Lemma occurs_inside ic w i :
  w <> [] -> occurs_at ic w s i = true -> i <= length s.
Proof.
  intros Hw H. destruct w as [|c w]; [contradiction|].
  assert (Hc : char_is s (i + 0) (Char.same ic c) = true)
    by (eapply occurs_nth; [exact H | reflexivity]).
  apply char_is_inside in Hc. lia.
Qed.

Lemma search_word w :
  word_ends w = true ->
  search true s (re_word w) (length s) 0 = name_as_word w s.
Proof.
  intros Hw. apply bool_eq_iff. rewrite search_found, found_word.
  unfold name_as_word. rewrite anywhere_iff.
  - split; intros (i & H); exists i;
      [rewrite <- word_bounded_isolated | rewrite word_bounded_isolated]; assumption.
  - intros i H. unfold isolated_at in H.
    apply andb_true_iff in H. destruct H as [H _].
    apply andb_true_iff in H. destruct H as [H _].
    apply occurs_inside in H; [exact H|]. destruct w; discriminate.
Qed.

End WholeWords.

Section Hosts.

Lemma chars_inj a b : chars a = chars b -> a = b.
Proof.
  intros H. rewrite <- (string_of_list_ascii_of_string a),
    <- (string_of_list_ascii_of_string b), H. reflexivity.
Qed.

Lemma prefix_exact w : forall t,
  prefix_of false w t = true -> length w = length t -> w = t.
Proof.
  induction w as [|c w IH]; intros [|d t] H L; simpl in *; try discriminate.
  - reflexivity.
  - apply andb_true_iff in H. destruct H as [Hc Hw].
    apply Ascii.eqb_eq in Hc. subst. f_equal. apply IH; [exact Hw | lia].
Qed.

Lemma prefix_refl w : prefix_of false w w = true.
Proof.
  induction w as [|c w IH]; simpl; [reflexivity|].
  rewrite Ascii.eqb_refl, IH. reflexivity.
Qed.

Lemma suffix_at_iff s w j :
  suffix_at false s w j = true <-> j <= length s /\ skipn j s = w.
Proof.
  unfold suffix_at, occurs_at. rewrite andb_true_iff, Nat.eqb_eq. split.
  - intros [H L]. split; [lia|]. symmetry. apply prefix_exact; [exact H|].
    rewrite length_skipn. lia.
  - intros [L <-]. split; [apply prefix_refl|]. rewrite length_skipn. lia.
Qed.

Lemma free_of_terminators host :
  no_line_terminator host = true ->
  forall m d, nth_error (chars host) m = Some d -> Char.is_line_terminator d = false.
Proof.
  unfold no_line_terminator. intros H m d E.
  rewrite forallb_forall in H. apply nth_error_In in E. apply H in E.
  apply negb_true_iff in E. exact E.
Qed.

Lemma search_domain domain host :
  no_line_terminator host = true ->
  search false (chars host) (re_domain (chars domain)) (length (chars host)) 0 = true
  <-> host_under domain host.
Proof.
  intros Hfree. rewrite search_found, found_domain by (apply free_of_terminators, Hfree).
  unfold host_under. split.
  - intros [H|(m & Hm & H)].
    + apply suffix_at_iff in H. destruct H as [_ H]. left. apply chars_inj. exact H.
    + apply suffix_at_iff in H. destruct H as [_ H]. right.
      exists (string_of_list_ascii (firstn m (chars host))).
      apply chars_inj. rewrite !ParserFacts.chars_app, list_ascii_of_string_of_list_ascii.
      rewrite <- H. unfold char_is in Hm.
      destruct (nth_error (chars host) m) as [d|] eqn:E; [|discriminate].
      apply Ascii.eqb_eq in Hm. subst d.
      change (chars ".") with ["."%char]. cbn [app].
      rewrite <- (skipn_nth_some _ _ _ E). symmetry. apply firstn_skipn.
  - intros [->|(labels & ->)].
    + left. apply suffix_at_iff. split; [lia | reflexivity].
    + right. exists (length (chars labels)).
      rewrite !ParserFacts.chars_app. simpl. split.
      * unfold char_is. rewrite nth_error_app2, Nat.sub_diag by lia. reflexivity.
      * apply suffix_at_iff. split; [rewrite length_app; simpl; lia|].
        replace (S (length (chars labels))) with (length (chars labels) + 1) by lia.
        rewrite skipn_app, Nat.add_comm. 
        rewrite skipn_all2 by lia.
        replace (1 + length (chars labels) - length (chars labels)) with 1 by lia.
        reflexivity.
Qed.

End Hosts.

(** ** The predicates on fields without pattern syntax *)

Section PlainFields.

Variable source : Source.

Lemma isNameInTitle_common text :
  nameIsCommon source = true -> plain_text (nameNormalized source) = true ->
  isNameInTitle text source
  = Ret (common_name_in_title (chars (nameNormalized source)) (chars text)).
Proof.
  intros Hc Hp. unfold isNameInTitle. rewrite Hc.
  rewrite (test_new_parsed _ _ _ _ (ParserFacts.parse_common_title _ Hp)).
  simpl flag_i. rewrite search_common_title. reflexivity.
Qed.

Lemma isNameInBody_common text :
  nameIsCommon source = true -> plain_text (nameNormalized source) = true ->
  isNameInBody text source
  = Ret (common_name_in_body (chars (nameNormalized source)) (chars text)).
Proof.
  intros Hc Hp. unfold isNameInBody. rewrite Hc.
  rewrite (test_new_parsed _ _ _ _ (ParserFacts.parse_common_body _ Hp)).
  simpl flag_i. rewrite search_common_body. reflexivity.
Qed.

Lemma isNameInTitle_uncommon text :
  nameIsCommon source = false -> plain_text (nameNormalized source) = true ->
  isNameInTitle text source
  = Ret (search true (chars text) (re_word (chars (nameNormalized source)))
           (length (chars text)) 0).
Proof.
  intros Hc Hp. unfold isNameInTitle. rewrite Hc.
  rewrite (test_new_parsed _ _ _ _ (ParserFacts.parse_word_bounded _ Hp)).
  reflexivity.
Qed.

(** Without the common-name flag the body is read with the pattern of the
    title; the global flag changes nothing on a fresh object. *)
Lemma isNameInBody_uncommon text :
  nameIsCommon source = false ->
  isNameInBody text source = isNameInTitle text source.
Proof.
  intros Hc. unfold isNameInBody, isNameInTitle. rewrite Hc.
  unfold test_new, new_RegExp.
  destruct (Parser.parse _); reflexivity.
Qed.

Lemma isTwitterInBody_title text :
  isTwitterInBody text source = isTwitterInTitle text source.
Proof.
  unfold isTwitterInBody, isTwitterInTitle.
  destruct (truthy (twitterNormalized source)); [|reflexivity].
  unfold test_new, new_RegExp. destruct (Parser.parse _); reflexivity.
Qed.

Lemma isTwitterInTitle_plain text handle :
  truthy (twitterNormalized source) = Some handle -> plain_text handle = true ->
  isTwitterInTitle text source = Ret (handle_in_text (chars handle) (chars text)).
Proof.
  intros Hh Hp. unfold isTwitterInTitle. rewrite Hh.
  rewrite (test_new_parsed _ _ _ _ (ParserFacts.parse_handle _ Hp)).
  simpl flag_i. rewrite search_handle. reflexivity.
Qed.

Lemma isTwitterInUrl_plain u handle :
  truthy (twitterNormalized source) = Some handle -> plain_text handle = true ->
  isTwitterInUrl u source
  = Ret (includes ["x.com"; "twitter.com"] (toLowerCase (hostname u))
         && handle_is_first_segment (chars handle) (chars (pathname u))).
Proof.
  intros Hh Hp. unfold isTwitterInUrl. rewrite Hh.
  destruct (includes _ _); [|reflexivity].
  rewrite (test_new_parsed _ _ _ _ (ParserFacts.parse_path_escaped _ Hp)).
  simpl flag_i. rewrite search_path. reflexivity.
Qed.

Lemma isTwitterInLinks_plain urls handle :
  truthy (twitterNormalized source) = Some handle -> plain_text handle = true ->
  isTwitterInLinks urls source
  = Ret (existsb (fun u => handle_is_first_segment (chars handle) (chars (pathname u)))
                 urls).
Proof.
  intros Hh Hp. unfold isTwitterInLinks. rewrite Hh.
  unfold new_RegExp. rewrite (ParserFacts.parse_path _ Hp). simpl.
  f_equal. induction urls as [|u rest IH]; simpl; [reflexivity|].
  rewrite IH. f_equal. unfold test. simpl. apply search_path.
Qed.

(** The two spellings of the path pattern are one pattern, whatever the
    handle. *)
Lemma path_patterns_agree handle :
  Parser.parse (chars ("^\/" ++ handle ++ "(\/|\s|$)"))
  = Parser.parse (chars ("^/" ++ handle ++ "(\/|\s|$)")).
Proof.
  unfold Parser.parse. rewrite !ParserFacts.chars_app, !ParserFacts.run_app.
  reflexivity.
Qed.

(** What the single-URL predicate accepts, the links predicate accepts. *)
Lemma isTwitterInUrl_in_links u urls :
  In u urls -> isTwitterInUrl u source = Ret true ->
  isTwitterInLinks urls source = Ret true.
Proof.
  unfold isTwitterInUrl, isTwitterInLinks. intros Hin H.
  destruct (truthy (twitterNormalized source)) as [handle|]; [|discriminate].
  destruct (includes _ _); [|discriminate].
  unfold test_new, new_RegExp in *. rewrite <- path_patterns_agree.
  destruct (Parser.parse _) as [r| |]; simpl in *; try discriminate.
  f_equal. apply existsb_exists. exists u. split; [exact Hin|].
  injection H as H. exact H.
Qed.

End PlainFields.

Lemma some_pointwise {A : Type} (f : A -> res bool) (g : A -> bool) l :
  (forall x, In x l -> f x = Ret (g x)) -> some f l = Ret (existsb g l).
Proof.
  induction l as [|x l IH]; intros H; simpl; [reflexivity|].
  rewrite (H x) by (left; reflexivity). simpl.
  destruct (g x); [reflexivity|]. apply IH. intros y Hy. apply H. right. exact Hy.
Qed.

Lemma domain_test host domain :
  domain_text domain = true ->
  test_new (domain_pattern domain) no_flags host = Ret (domain_found host domain).
Proof.
  intros Hd. rewrite (test_new_parsed _ _ _ _ (ParserFacts.parse_domain _ Hd)).
  reflexivity.
Qed.

Lemma some_domain host ds :
  forallb domain_text ds = true ->
  some (fun domain => test_new (domain_pattern domain) no_flags host) ds
  = Ret (existsb (domain_found host) ds).
Proof.
  intros H. apply some_pointwise. intros d Hd. apply domain_test.
  rewrite forallb_forall in H. apply H, Hd.
Qed.

(** ** The scans *)

Section Scans.

Variables first second : Source -> res bool.

Lemma map_set_keys k v m k' :
  In k' (List.map fst (map_set k v m)) <-> k' = k \/ In k' (List.map fst m).
Proof.
  induction m as [|[k0 v0] m IH]; simpl.
  - intuition.
  - destruct (String.eqb_spec k0 k) as [->|Hne]; simpl; intuition.
Qed.

Lemma map_set_NoDup k v m :
  NoDup (List.map fst m) -> NoDup (List.map fst (map_set k v m)).
Proof.
  induction m as [|[k0 v0] m IH]; simpl; intros H.
  - constructor; [intros [] | constructor].
  - inversion H as [|? ? Hnot Hrest]; subst.
    destruct (String.eqb_spec k0 k) as [->|Hne]; simpl.
    + constructor; assumption.
    + constructor; [|apply IH; assumption].
      intros Hin. apply map_set_keys in Hin. destruct Hin as [->|Hin]; auto.
Qed.

Lemma map_set_recorded P v m :
  recorded P m -> P v -> recorded P (map_set (id v) v m).
Proof.
  unfold recorded. induction m as [|[k0 v0] m IH]; simpl; intros Hm Hv k x Hin.
  - destruct Hin as [E|[]]. inversion E; subst. auto.
  - destruct (String.eqb_spec k0 (id v)) as [->|Hne]; simpl in Hin.
    + destruct Hin as [E|Hin]; [inversion E; subst; auto|].
      apply Hm. right. exact Hin.
    + destruct Hin as [E|Hin]; [apply Hm; left; exact E|].
      apply IH; [intros k1 v1 H1; apply Hm; right; exact H1 | exact Hv | exact Hin].
Qed.

Lemma scan_recorded P srcs : forall m m',
  (forall s, In s srcs -> first s = Ret true -> P s) ->
  (forall s, In s srcs -> second s = Ret true -> P s) ->
  recorded P m -> scan first second srcs m = Ret m' -> recorded P m'.
Proof.
  induction srcs as [|x srcs IH]; intros m m' H1 H2 Hm E; simpl in E.
  - inversion E; subst. exact Hm.
  - assert (H1' : forall s, In s srcs -> first s = Ret true -> P s)
      by (intros s Hs; apply H1; right; exact Hs).
    assert (H2' : forall s, In s srcs -> second s = Ret true -> P s)
      by (intros s Hs; apply H2; right; exact Hs).
    destruct (first x) as [[|]| |] eqn:Ea; simpl in E; try discriminate.
    + apply (IH _ _ H1' H2') in E; [exact E|].
      apply map_set_recorded; [exact Hm | apply H1; [left; reflexivity | exact Ea]].
    + destruct (second x) as [[|]| |] eqn:Eb; simpl in E; try discriminate.
      * apply (IH _ _ H1' H2') in E; [exact E|].
        apply map_set_recorded; [exact Hm | apply H2; [left; reflexivity | exact Eb]].
      * apply (IH _ _ H1' H2') in E; [exact E | exact Hm].
Qed.

Lemma scan_NoDup srcs : forall m m',
  NoDup (List.map fst m) -> scan first second srcs m = Ret m' ->
  NoDup (List.map fst m').
Proof.
  induction srcs as [|x srcs IH]; intros m m' Hm E; simpl in E.
  - inversion E; subst. exact Hm.
  - destruct (first x) as [[|]| |]; simpl in E; try discriminate.
    + apply IH in E; [exact E | apply map_set_NoDup, Hm].
    + destruct (second x) as [[|]| |]; simpl in E; try discriminate.
      * apply IH in E; [exact E | apply map_set_NoDup, Hm].
      * apply IH in E; [exact E | exact Hm].
Qed.

Lemma scan_total srcs : forall m,
  (forall s, In s srcs -> exists b, first s = Ret b) ->
  (forall s, In s srcs -> exists b, second s = Ret b) ->
  exists m', scan first second srcs m = Ret m'.
Proof.
  induction srcs as [|x srcs IH]; intros m H1 H2; simpl.
  - eauto.
  - destruct (H1 x (or_introl eq_refl)) as [a ->].
    destruct (H2 x (or_introl eq_refl)) as [b ->]. simpl.
    destruct a; [|destruct b]; apply IH; intros s Hs;
      (apply H1 || apply H2); right; exact Hs.
Qed.

End Scans.

Lemma findMatchesInTitle_scan text srcs : forall m,
  findMatchesInTitle text srcs m
  = scan (isNameInTitle text) (isTwitterInTitle text) srcs m.
Proof.
  induction srcs as [|x srcs IH]; intros m; simpl; [reflexivity|].
  destruct (isNameInTitle text x) as [[|]| |]; simpl; auto.
  destruct (isTwitterInTitle text x) as [[|]| |]; simpl; auto.
Qed.

Lemma findMatchesInUrl_scan u srcs : forall m,
  findMatchesInUrl u srcs m
  = scan (isTwitterInUrl u)
         (fun source => r <- isDomainInUrl u source ;; Ret (holds r)) srcs m.
Proof.
  induction srcs as [|x srcs IH]; intros m; simpl; [reflexivity|].
  destruct (isTwitterInUrl u x) as [[|]| |]; simpl; auto.
  destruct (isDomainInUrl u x) as [r| |]; simpl; auto.
  destruct (holds r); auto.
Qed.

Lemma findMatchesInLinks_scan urls srcs : forall m,
  findMatchesInLinks urls srcs m
  = scan (isTwitterInLinks urls) (isDomainInLinks urls) srcs m.
Proof.
  induction srcs as [|x srcs IH]; intros m; simpl; [reflexivity|].
  destruct (isTwitterInLinks urls x) as [[|]| |]; simpl; auto.
  destruct (isDomainInLinks urls x) as [[|]| |]; simpl; auto.
Qed.

Lemma findMatchesInBody_scan text srcs : forall m,
  findMatchesInBody text srcs m
  = scan (isNameInBody text) (isTwitterInBody text) srcs m.
Proof.
  induction srcs as [|x srcs IH]; intros m; simpl; [reflexivity|].
  destruct (isNameInBody text x) as [[|]| |]; simpl; auto.
  destruct (isTwitterInBody text x) as [[|]| |]; simpl; auto.
Qed.

(** ** The final sort *)

Section Sort.

Lemma insert_by_perm cmp x l : Permutation (x :: l) (insert_by cmp x l).
Proof.
  induction l as [|y l IH]; simpl; [reflexivity|].
  destruct (cmp x y <=? 0)%Z; [reflexivity|].
  rewrite perm_swap. constructor. exact IH.
Qed.

Lemma sort_by_perm cmp l : Permutation l (sort_by cmp l).
Proof.
  induction l as [|x l IH]; simpl; [constructor|].
  rewrite <- insert_by_perm. constructor. exact IH.
Qed.

Lemma insert_by_sorted x l :
  StronglySorted tier_le l -> StronglySorted tier_le (insert_by compare_tier x l).
Proof.
  induction l as [|y l IH]; simpl; intros H.
  - constructor; constructor.
  - inversion H as [|? ? Hl Hy]; subst.
    destruct (compare_tier x y <=? 0)%Z eqn:E.
    + apply Z.leb_le in E. unfold compare_tier in E.
      constructor; [exact H|]. constructor.
      * unfold tier_le. lia.
      * eapply Forall_impl; [|exact Hy]. unfold tier_le. intros a Ha. lia.
    + apply Z.leb_gt in E. unfold compare_tier in E.
      constructor; [apply IH, Hl|].
      apply (Permutation_Forall (insert_by_perm compare_tier x l)).
      constructor; [unfold tier_le; lia | exact Hy].
Qed.

Lemma sort_by_sorted l : StronglySorted tier_le (sort_by compare_tier l).
Proof.
  induction l as [|x l IH]; simpl; [constructor | apply insert_by_sorted, IH].
Qed.

Lemma insert_by_stable k x l :
  filter (same_rank k) (insert_by compare_tier x l)
  = filter (same_rank k) (x :: l).
Proof.
  induction l as [|y l IH]; [reflexivity|]. cbn [insert_by].
  destruct (compare_tier x y <=? 0)%Z eqn:E; [reflexivity|].
  apply Z.leb_gt in E. unfold compare_tier in E.
  cbn [filter] in *. rewrite IH. unfold same_rank.
  destruct (tier_or_6 x =? k)%Z eqn:Ex; [|reflexivity].
  apply Z.eqb_eq in Ex.
  destruct (tier_or_6 y =? k)%Z eqn:Ey; [|reflexivity].
  apply Z.eqb_eq in Ey. lia.
Qed.

Lemma sort_by_stable k l :
  filter (same_rank k) (sort_by compare_tier l) = filter (same_rank k) l.
Proof.
  induction l as [|x l IH]; [reflexivity|].
  cbn [sort_by fold_right]. fold (sort_by compare_tier l).
  rewrite insert_by_stable. cbn [filter]. rewrite IH. reflexivity.
Qed.

Lemma sorted_nth (R : Source -> Source -> Prop) l :
  StronglySorted R l ->
  forall i j a b, i < j -> nth_error l i = Some a -> nth_error l j = Some b -> R a b.
Proof.
  induction 1 as [|x l Hl IH Hx]; intros i j a b Hij Ha Hb.
  - destruct i; discriminate.
  - destruct j as [|j]; [lia|]. simpl in Hb. destruct i as [|i]; simpl in Ha.
    + inversion Ha; subst. rewrite Forall_forall in Hx. apply Hx.
      eapply nth_error_In; exact Hb.
    + apply (IH i j); [lia | exact Ha | exact Hb].
Qed.

End Sort.

(** * The claims about single predicates *)

(** C1.  The links scan looks at the path of a link only: a link to another
    site whose path is the handle is taken for the source, although the
    single-URL predicate refuses that very URL. *)
Theorem links_handle_ignores_hostname :
  let source := sample_source "foo" false (Some "footwitter") None None in
  let link := mkURL "bar.com" "/footwitter" in
  isTwitterInUrl link source = Ret false
  /\ isTwitterInLinks [link] source = Ret true.
Proof. split; vm_compute; reflexivity. Qed.

(** C4.  For a common name the body pattern has lost the start anchor of the
    title pattern: a name followed by a colon in the middle of the text is
    found in a body and not in a title. *)
Theorem body_colon_form_is_not_anchored :
  let source := sample_source "foo" true None None None in
  isNameInTitle "see foo: bar" source = Ret false
  /\ isNameInBody "see foo: bar" source = Ret true.
Proof. split; vm_compute; reflexivity. Qed.

(** C6, as stated, fails on names with pattern syntax: a bar in the name
    splits the pattern, so plain prose matches; a doubled plus makes the
    constructor throw on a bracketed name. *)
Lemma common_name_syntax_breaks_forms :
  (isNameInTitle "a|b said so" (sample_source "a|b" true None None None) = Ret true
   /\ common_name_in_title (chars "a|b") (chars "a|b said so") = false)
  /\ (isNameInTitle "[c++] is out" (sample_source "c++" true None None None) = Throw
      /\ in_brackets_at (chars "c++") (chars "[c++] is out") 0 = true).
Proof. repeat split; vm_compute; reflexivity. Qed.

(** C6, amended.  For a common name without pattern syntax the title
    predicate returns exactly: the name and a colon at the very start, or
    the name between an opening and a closing bracket somewhere.  So the two
    bracket forms and the colon form match, and a title with none of them
    does not. *)
Theorem common_name_title_forms (source : Source) (title : string) :
  nameIsCommon source = true ->
  plain_text (nameNormalized source) = true ->
  let w := chars (nameNormalized source) in
  let s := chars title in
  isNameInTitle title source = Ret (common_name_in_title w s)
  /\ (before_colon_at w s 0 = true -> isNameInTitle title source = Ret true)
  /\ (forall i, in_brackets_at w s i = true -> isNameInTitle title source = Ret true)
  /\ (before_colon_at w s 0 = false ->
      (forall i, in_brackets_at w s i = false) ->
      isNameInTitle title source = Ret false).
Proof.
  intros Hc Hp w s. pose proof (isNameInTitle_common source title Hc Hp) as E.
  fold w s in E. rewrite E. unfold common_name_in_title.
  split; [reflexivity|]. split; [|split].
  - intros H. rewrite H. reflexivity.
  - intros i H. f_equal. apply orb_true_iff. right.
    apply anywhere_iff; [apply in_brackets_inside | eauto].
  - intros H0 Hall. rewrite H0. f_equal. simpl.
    destruct (anywhere s (in_brackets_at w s)) eqn:Ha; [|reflexivity].
    apply anywhere_iff in Ha; [|apply in_brackets_inside].
    destruct Ha as (i & Hi). rewrite Hall in Hi. discriminate.
Qed.

Lemma common_name_title_forms_witness :
  let source := sample_source "fooname" true None None None in
  let title := "title with [fooname] in it" in
  (nameIsCommon source = true /\ plain_text (nameNormalized source) = true)
  /\ isNameInTitle title source = Ret true.
Proof.
  intros source title. split; [split; reflexivity|].
  apply (proj1 (proj2 (proj2
           (common_name_title_forms source title eq_refl eq_refl))) 11).
  reflexivity.
Defined.

(** C7, as stated, fails in two ways: a name that ends with a character
    outside the word characters is not found although it stands alone, and a
    name with pattern syntax makes the constructor throw. *)
Lemma whole_word_needs_word_ends :
  (isNameInTitle "c# is hard" (sample_source "c#" false None None None) = Ret false
   /\ isolated_at (chars "c#") (chars "c# is hard") 0 = true)
  /\ (isNameInTitle "c++ is hard" (sample_source "c++" false None None None) = Throw
      /\ isolated_at (chars "c++") (chars "c++ is hard") 0 = true).
Proof. repeat split; vm_compute; reflexivity. Qed.

(** C7, amended.  For an uncommon name without pattern syntax that begins
    and ends with a word character, the title predicate returns exactly
    whether the name stands somewhere in the title, letter case aside, with
    no word character right before it and none right after it. *)
Theorem uncommon_name_whole_word (source : Source) (title : string) :
  nameIsCommon source = false ->
  plain_text (nameNormalized source) = true ->
  word_ends (chars (nameNormalized source)) = true ->
  let w := chars (nameNormalized source) in
  let s := chars title in
  isNameInTitle title source = Ret (name_as_word w s)
  /\ (forall i, isolated_at w s i = true -> isNameInTitle title source = Ret true)
  /\ ((forall i, isolated_at w s i = false) -> isNameInTitle title source = Ret false).
Proof.
  intros Hc Hp Hw w s. pose proof (isNameInTitle_uncommon source title Hc Hp) as E.
  fold w s in E. rewrite E, (search_word s w Hw). unfold name_as_word.
  assert (Hin : forall i, isolated_at w s i = true -> i <= length s).
  { intros i H. unfold isolated_at in H.
    apply andb_true_iff in H. destruct H as [H _].
    apply andb_true_iff in H. destruct H as [H _].
    apply occurs_inside in H; [exact H|]. unfold w. 
    destruct (chars (nameNormalized source)); discriminate. }
  split; [reflexivity|]. split.
  - intros i H. f_equal. apply anywhere_iff; eauto.
  - intros Hall. f_equal. destruct (anywhere s (isolated_at w s)) eqn:Ha; [|reflexivity].
    apply anywhere_iff in Ha; [|exact Hin].
    destruct Ha as (i & Hi). rewrite Hall in Hi. discriminate.
Qed.

Lemma uncommon_name_whole_word_witness :
  let source := sample_source "fooname" false None None None in
  (nameIsCommon source = false /\ plain_text (nameNormalized source) = true
   /\ word_ends (chars (nameNormalized source)) = true)
  /\ isNameInTitle "title with fooname in it" source = Ret true
  /\ isNameInTitle "title with foonamex in it" source = Ret false.
Proof.
  intros source. split; [repeat split; reflexivity|]. split.
  - apply (proj1 (proj2
      (uncommon_name_whole_word source "title with fooname in it"
         eq_refl eq_refl eq_refl)) 11).
    reflexivity.
  - rewrite (proj1
      (uncommon_name_whole_word source "title with foonamex in it"
         eq_refl eq_refl eq_refl)).
    reflexivity.
Defined.

(** C8, as stated, fails on handles with pattern syntax: a bar in the handle
    splits the pattern, so a bare handle in prose matches; a doubled plus
    makes the constructor throw on a bracketed handle. *)
Lemma handle_syntax_breaks_forms :
  (isTwitterInTitle "a|b said so" (sample_source "n" false (Some "a|b") None None)
   = Ret true
   /\ handle_in_text (chars "a|b") (chars "a|b said so") = false)
  /\ (isTwitterInBody "[c++] is out" (sample_source "n" false (Some "c++") None None)
      = Throw
      /\ in_brackets_at (chars "c++") (chars "[c++] is out") 0 = true).
Proof. repeat split; vm_compute; reflexivity. Qed.

(** C8, amended.  For a handle without pattern syntax the title and the body
    predicate return exactly: the handle and a colon at the very start, with
    or without an at sign in front; or an at sign, the handle and a word
    boundary somewhere; or the handle between an opening and a closing
    bracket somewhere.  When the handle ends with a word character, the
    at-sign form is never followed by a word character, so a longer token
    that begins with the handle is not a match. *)
Theorem handle_text_forms (source : Source) (text handle : string) :
  truthy (twitterNormalized source) = Some handle ->
  plain_text handle = true ->
  let w := chars handle in
  let s := chars text in
  isTwitterInTitle text source = Ret (handle_in_text w s)
  /\ isTwitterInBody text source = Ret (handle_in_text w s)
  /\ (Char.is_word (last w " "%char) = true ->
      forall i, mentioned_at w s i = true -> word_at s (S i + length w) = false).
Proof.
  intros Hh Hp w s. split; [|split].
  - apply isTwitterInTitle_plain; assumption.
  - rewrite isTwitterInBody_title. apply isTwitterInTitle_plain; assumption.
  - intros Hl i H.
    assert (Hne : w <> []) by (intros E; rewrite E in Hl; discriminate Hl).
    unfold mentioned_at in H.
    apply andb_true_iff in H. destruct H as [H Hb].
    apply andb_true_iff in H. destruct H as [_ Ho].
    assert (Hlast : word_before s (S i + length w) = true).
    { replace (S i + length w) with (S (S i + (length w - 1)))
        by (destruct w; [contradiction | simpl; lia]).
      cbn [word_before]. rewrite <- Hl. apply word_at_of_char with (ic := true).
      apply occurs_nth with (w := w); [exact Ho | apply nth_last; exact Hne]. }
    unfold boundary in Hb. rewrite Hlast in Hb.
    destruct (word_at s (S i + length w)); [discriminate | reflexivity].
Qed.

Lemma handle_text_forms_witness :
  let source := sample_source "n" false (Some "foo_twitter") None None in
  (truthy (twitterNormalized source) = Some "foo_twitter"
   /\ plain_text "foo_twitter" = true)
  /\ isTwitterInTitle "title with @foo_twitter in it" source = Ret true
  /\ isTwitterInBody "title with foo_twitter in it" source = Ret false.
Proof.
  intros source. split; [split; reflexivity|]. split.
  - rewrite (proj1 (handle_text_forms source "title with @foo_twitter in it"
                      "foo_twitter" eq_refl eq_refl)).
    reflexivity.
  - rewrite (proj1 (proj2 (handle_text_forms source "title with foo_twitter in it"
                             "foo_twitter" eq_refl eq_refl))).
    reflexivity.
Defined.

Lemma shorter_host_not_under domain host :
  length (chars host) < length (chars domain) -> ~ host_under domain host.
Proof.
  intros L [->|(labels & ->)].
  - lia.
  - rewrite !ParserFacts.chars_app, !length_app in L. lia.
Qed.

(** C9, as stated, fails on domains with pattern syntax other than the
    period: a bar in the domain splits the pattern, so an unrelated host
    matches; a doubled plus makes the constructor throw on the domain
    itself. *)
Lemma domain_syntax_breaks_rule :
  (isDomainInUrl (mkURL "a.io" "/")
     (sample_source "n" false None (Some ["a|bcdef.com"]) None) = Ret (Some true)
   /\ ~ host_under "a|bcdef.com" "a.io")
  /\ (isDomainInUrl (mkURL "c++.com" "/")
        (sample_source "n" false None (Some ["c++.com"]) None) = Throw
      /\ host_under "c++.com" "c++.com").
Proof.
  split; split.
  - vm_compute; reflexivity.
  - apply shorter_host_not_under. simpl. lia.
  - vm_compute; reflexivity.
  - left. reflexivity.
Qed.

(** C9, amended.  For a source whose domains are made of periods and of
    characters without pattern syntax, and a URL whose host has no line
    terminator (no host has one), the domain predicate returns true exactly
    when the host is one of the domains or ends with a period followed by
    one of them. *)
Theorem domain_rule (source : Source) (u : URL) (ds : list string) :
  domains source = Some ds ->
  forallb domain_text ds = true ->
  no_line_terminator (hostname u) = true ->
  exists b, isDomainInUrl u source = Ret (Some b)
    /\ (b = true <-> exists d, In d ds /\ host_under d (hostname u)).
Proof.
  intros Hd Hds Hfree. exists (existsb (domain_found (hostname u)) ds). split.
  - unfold isDomainInUrl. rewrite Hd, (some_domain _ _ Hds). reflexivity.
  - rewrite existsb_exists. split; intros (d & Hin & H); exists d; (split; [exact Hin|]);
      apply (search_domain d (hostname u) Hfree); exact H.
Qed.

Lemma domain_rule_witness :
  let source := sample_source "n" false None (Some ["example.com"]) None in
  let u := mkURL "en.m.example.com" "/story" in
  (domains source = Some ["example.com"]
   /\ forallb domain_text ["example.com"] = true
   /\ no_line_terminator (hostname u) = true)
  /\ exists b, isDomainInUrl u source = Ret (Some b)
       /\ (b = true <-> exists d, In d ["example.com"] /\ host_under d (hostname u)).
Proof.
  intros source u. split; [repeat split; reflexivity|].
  apply (domain_rule source u ["example.com"] eq_refl eq_refl eq_refl).
Defined.

(** The hosts of the specification's own example, evaluated. *)
Example domain_rule_examples :
  List.map (fun host =>
              isDomainInUrl (mkURL host "/")
                (sample_source "n" false None (Some ["example.com"]) None))
    ["example.com"; "en.example.com"; "en.m.example.com"; "www.example.com";
     "examplex.com"; "xexample.com"; "example.com.fake.com"]
  = [Ret (Some true); Ret (Some true); Ret (Some true); Ret (Some true);
     Ret (Some false); Ret (Some false); Ret (Some false)].
Proof. vm_compute. reflexivity. Qed.

(** ** The union of the four scans *)

Section Union.

Variable post : PostData.
Variable settings : AppSettings.

Lemma bind_Ret {A B : Type} (x : res A) (f : A -> res B) b :
  bind x f = Ret b -> exists a, x = Ret a /\ f a = Ret b.
Proof. destruct x; simpl; intros H; try discriminate. eauto. Qed.

Lemma holds_domain u source :
  (r <- isDomainInUrl u source ;; Ret (holds r)) = Ret true ->
  isDomainInUrl u source = Ret (Some true).
Proof.
  intros H. apply bind_Ret in H. destruct H as ([[|]|] & E & H);
    simpl in H; try discriminate. exact E.
Qed.

Lemma collect_recorded m :
  collect post settings = Ret m ->
  recorded (hit post settings) m /\ NoDup (List.map fst m).
Proof.
  unfold collect. intros H.
  apply bind_Ret in H. destruct H as (m1 & E1 & H).
  apply bind_Ret in H. destruct H as (m2 & E2 & H).
  apply bind_Ret in H. destruct H as (m3 & E3 & E4).
  rewrite findMatchesInTitle_scan in E1.
  assert (R1 : recorded (hit post settings) m1 /\ NoDup (List.map fst m1)).
  { split.
    - eapply scan_recorded; [| | |exact E1]; [| |unfold recorded; intros k v []].
      + intros s Hs Hf. split; [exact Hs|]. left. left. exact Hf.
      + intros s Hs Hf. split; [exact Hs|]. left. right. exact Hf.
    - eapply scan_NoDup; [|exact E1]. constructor. }
  destruct R1 as [R1 N1].
  assert (R2 : recorded (hit post settings) m2 /\ NoDup (List.map fst m2)).
  { destruct (url post) as [u|] eqn:Eu.
    - rewrite findMatchesInUrl_scan in E2. split.
      + eapply scan_recorded; [| | |exact E2]; [| |exact R1].
        * intros s Hs Hf. split; [exact Hs|]. right. left. exists u. auto.
        * intros s Hs Hf. split; [exact Hs|]. right. left. exists u.
          split; [exact Eu|]. right. apply holds_domain, Hf.
      + eapply scan_NoDup; [exact N1|exact E2].
    - inversion E2; subst. auto. }
  destruct R2 as [R2 N2].
  assert (R3 : recorded (hit post settings) m3 /\ NoDup (List.map fst m3)).
  { destruct (links post) as [ls|] eqn:El.
    - rewrite findMatchesInLinks_scan in E3. split.
      + eapply scan_recorded; [| | |exact E3]; [| |exact R2].
        * intros s Hs Hf. split; [exact Hs|]. right. right. left. exists ls. auto.
        * intros s Hs Hf. split; [exact Hs|]. right. right. left. exists ls. auto.
      + eapply scan_NoDup; [exact N2|exact E3].
    - inversion E3; subst. auto. }
  destruct R3 as [R3 N3].
  destruct (truthy (bodyNormalized post)) as [body|] eqn:Eb;
    [|inversion E4; subst; auto].
  destruct (analyzePostBody settings) eqn:Ea; [|inversion E4; subst; auto].
  rewrite findMatchesInBody_scan in E4. split.
  - eapply scan_recorded; [| | |exact E4]; [| |exact R3].
    + intros s Hs Hf. split; [exact Hs|]. right. right. right. exists body. auto.
    + intros s Hs Hf. split; [exact Hs|]. right. right. right. exists body. auto.
  - eapply scan_NoDup; [exact N3|exact E4].
Qed.

Lemma recorded_ids P m : recorded P m -> List.map id (map_values m) = List.map fst m.
Proof.
  unfold recorded, map_values. induction m as [|[k v] m IH]; intros H; simpl.
  - reflexivity.
  - destruct (H k v (or_introl eq_refl)) as [-> _]. f_equal.
    apply IH. intros k' v' Hin. apply H. right. exact Hin.
Qed.

Lemma result_of result :
  findSourcesInPost post settings = Ret (Some result) ->
  exists m, collect post settings = Ret m
    /\ result = sort_by compare_tier (map_values m).
Proof.
  unfold findSourcesInPost. intros H. apply bind_Ret in H.
  destruct H as (m & E & H). exists m. split; [exact E|].
  destruct (0 <? length (sort_by compare_tier (map_values m))); inversion H.
  reflexivity.
Qed.

End Union.

(** * The claims about the whole scan *)

(** C10.  Every source of a result is a source of the registry that matched
    on some channel - the body channel only with a body and the toggle on -
    and no id occurs twice in a result. *)
Theorem result_sources_matched (post : PostData) (settings : AppSettings)
    (result : list Source) :
  findSourcesInPost post settings = Ret (Some result) ->
  (forall source, In source result ->
     In source (sources settings)
     /\ (title_hit post source \/ url_hit post source \/ links_hit post source
         \/ body_hit post settings source))
  /\ NoDup (List.map id result).
Proof.
  intros H. apply result_of in H. destruct H as (m & E & ->).
  apply collect_recorded in E. destruct E as [R N]. split.
  - intros source Hin.
    apply (Permutation_in _ (Permutation_sym (sort_by_perm _ _))) in Hin.
    unfold map_values in Hin. apply in_map_iff in Hin.
    destruct Hin as ([k v] & Ev & Hin). simpl in Ev. subst v.
    apply R in Hin. destruct Hin as [_ Hh]. exact Hh.
  - apply (Permutation_NoDup (Permutation_map id (sort_by_perm compare_tier _))).
    rewrite (recorded_ids _ _ R). exact N.
Qed.

Lemma result_sources_matched_witness :
  let settings := sample_settings
                    [sample_source "foo" false None None (Some 2%Z);
                     sample_source "bar" false None None None] in
  let post := title_only "foo and bar agree" in
  let result := [sample_source "foo" false None None (Some 2%Z);
                 sample_source "bar" false None None None] in
  findSourcesInPost post settings = Ret (Some result)
  /\ NoDup (List.map id result).
Proof.
  intros settings post result.
  assert (E : findSourcesInPost post settings = Ret (Some result)) by reflexivity.
  split; [exact E|].
  exact (proj2 (result_sources_matched post settings result E)).
Defined.

(** C3.  An untiered source counts as tier 6 in the comparator of the final
    sort, so it is put in front of a source of tier 7: the result is not
    sorted with the untiered sources last.  [shouldFlairPost] relies on that
    order when it looks at the first source only, and here it sets no flair
    although a source of the result has a tier. *)
Theorem untiered_before_tier_7 :
  let untiered := sample_source "foo" false None None None in
  let seventh := sample_source "bar" false None None (Some 7%Z) in
  let post := title_only "bar and foo agree" in
  findSourcesInPost post (sample_settings [seventh; untiered])
  = Ret (Some [untiered; seventh])
  /\ tier untiered = None /\ tier seventh = Some 7%Z
  /\ shouldFlairPost post [untiered; seventh] = false.
Proof. repeat split; vm_compute; reflexivity. Qed.

(** X25.  A result is sorted ascending by tier with an absent tier counted as
    6, and the sort is stable: sources of equal rank keep the order in which
    they entered the map.  So an untiered source comes before a tiered one
    only when that tier is 6 or more. *)
Theorem result_sorted_by_tier_or_6 (post : PostData) (settings : AppSettings)
    (result : list Source) :
  findSourcesInPost post settings = Ret (Some result) ->
  StronglySorted tier_le result
  /\ (forall i j a b t, i < j ->
        nth_error result i = Some a -> nth_error result j = Some b ->
        tier a = None -> tier b = Some t -> (6 <= t)%Z)
  /\ exists m, collect post settings = Ret m
       /\ Permutation (map_values m) result
       /\ forall k, filter (same_rank k) result = filter (same_rank k) (map_values m).
Proof.
  intros H. apply result_of in H. destruct H as (m & E & ->).
  pose proof (sort_by_sorted (map_values m)) as S.
  split; [exact S|]. split.
  - intros i j a b t Hij Ha Hb Hta Htb.
    pose proof (sorted_nth _ _ S i j a b Hij Ha Hb) as Hle.
    unfold tier_le, tier_or_6 in Hle. rewrite Hta, Htb in Hle. exact Hle.
  - exists m. split; [exact E|]. split; [apply sort_by_perm|].
    intros k. apply sort_by_stable.
Qed.

Lemma result_sorted_by_tier_or_6_witness :
  let settings := sample_settings
                    [sample_source "bar" false None None None;
                     sample_source "foo" false None None (Some 2%Z)] in
  let post := title_only "foo and bar agree" in
  let result := [sample_source "foo" false None None (Some 2%Z);
                 sample_source "bar" false None None None] in
  findSourcesInPost post settings = Ret (Some result)
  /\ StronglySorted tier_le result.
Proof.
  intros settings post result.
  assert (E : findSourcesInPost post settings = Ret (Some result)) by reflexivity.
  split; [exact E|].
  exact (proj1 (result_sorted_by_tier_or_6 post settings result E)).
Defined.

(** ** No pattern syntax, no exception *)

Section Totality.

Variable source : Source.
Hypothesis Hwf : well_formed source = true.

Lemma well_formed_name : plain_text (nameNormalized source) = true.
Proof.
  unfold well_formed in Hwf. apply andb_true_iff in Hwf. destruct Hwf as [H _].
  apply andb_true_iff in H. destruct H as [H _]. exact H.
Qed.

Lemma well_formed_handle handle :
  truthy (twitterNormalized source) = Some handle -> plain_text handle = true.
Proof.
  unfold well_formed in Hwf. apply andb_true_iff in Hwf. destruct Hwf as [H _].
  apply andb_true_iff in H. destruct H as [_ H].
  destruct (twitterNormalized source) as [[|c h]|]; simpl; intros E;
    try discriminate. inversion E; subst. exact H.
Qed.

Lemma well_formed_domains ds :
  domains source = Some ds -> forallb domain_text ds = true.
Proof.
  unfold well_formed in Hwf. apply andb_true_iff in Hwf. destruct Hwf as [_ H].
  intros E. rewrite E in H. exact H.
Qed.

Lemma isNameInTitle_total text : exists b, isNameInTitle text source = Ret b.
Proof.
  destruct (nameIsCommon source) eqn:Ec.
  - rewrite (isNameInTitle_common source text Ec well_formed_name). eauto.
  - rewrite (isNameInTitle_uncommon source text Ec well_formed_name). eauto.
Qed.

Lemma isNameInBody_total text : exists b, isNameInBody text source = Ret b.
Proof.
  destruct (nameIsCommon source) eqn:Ec.
  - rewrite (isNameInBody_common source text Ec well_formed_name). eauto.
  - rewrite (isNameInBody_uncommon source text Ec). apply isNameInTitle_total.
Qed.

Lemma isTwitterInTitle_total text : exists b, isTwitterInTitle text source = Ret b.
Proof.
  destruct (truthy (twitterNormalized source)) as [handle|] eqn:E.
  - rewrite (isTwitterInTitle_plain source text handle E (well_formed_handle _ E)).
    eauto.
  - unfold isTwitterInTitle. rewrite E. eauto.
Qed.

Lemma isTwitterInBody_total text : exists b, isTwitterInBody text source = Ret b.
Proof. rewrite isTwitterInBody_title. apply isTwitterInTitle_total. Qed.

Lemma isTwitterInUrl_total u : exists b, isTwitterInUrl u source = Ret b.
Proof.
  destruct (truthy (twitterNormalized source)) as [handle|] eqn:E.
  - rewrite (isTwitterInUrl_plain source u handle E (well_formed_handle _ E)). eauto.
  - unfold isTwitterInUrl. rewrite E. eauto.
Qed.

Lemma isTwitterInLinks_total urls : exists b, isTwitterInLinks urls source = Ret b.
Proof.
  destruct (truthy (twitterNormalized source)) as [handle|] eqn:E.
  - rewrite (isTwitterInLinks_plain source urls handle E (well_formed_handle _ E)).
    eauto.
  - unfold isTwitterInLinks. rewrite E. eauto.
Qed.

Lemma isDomainInUrl_total u :
  exists b, (r <- isDomainInUrl u source ;; Ret (holds r)) = Ret b.
Proof.
  unfold isDomainInUrl. destruct (domains source) as [ds|] eqn:E; simpl; [|eauto].
  rewrite (some_domain _ _ (well_formed_domains _ E)). simpl. eauto.
Qed.

Lemma isDomainInLinks_total urls : exists b, isDomainInLinks urls source = Ret b.
Proof.
  unfold isDomainInLinks. destruct (domains source) as [ds|] eqn:E; [|eauto].
  destruct (length ds <? 1); [eauto|].
  rewrite (some_pointwise _ (fun u => existsb (domain_found (hostname u)) ds)).
  - eauto.
  - intros u _. apply some_domain, (well_formed_domains _ E).
Qed.

End Totality.

Lemma collect_total post settings :
  Forall (fun source => well_formed source = true) (sources settings) ->
  exists m, collect post settings = Ret m.
Proof.
  intros Hall. rewrite Forall_forall in Hall. unfold collect.
  destruct (scan_total (isNameInTitle (titleNormalized post))
              (isTwitterInTitle (titleNormalized post)) (sources settings) [])
    as [m1 E1].
  { intros s Hs. apply isNameInTitle_total, Hall, Hs. }
  { intros s Hs. apply isTwitterInTitle_total, Hall, Hs. }
  rewrite findMatchesInTitle_scan, E1. simpl.
  assert (E2 : exists m2,
             match url post with
             | Some u => findMatchesInUrl u (sources settings) m1
             | None => Ret m1
             end = Ret m2).
  { destruct (url post) as [u|]; [|eauto].
    rewrite findMatchesInUrl_scan. apply scan_total.
    - intros s Hs. apply isTwitterInUrl_total, Hall, Hs.
    - intros s Hs. apply isDomainInUrl_total, Hall, Hs. }
  destruct E2 as [m2 ->]. simpl.
  assert (E3 : exists m3,
             match links post with
             | Some ls => findMatchesInLinks ls (sources settings) m2
             | None => Ret m2
             end = Ret m3).
  { destruct (links post) as [ls|]; [|eauto].
    rewrite findMatchesInLinks_scan. apply scan_total.
    - intros s Hs. apply isTwitterInLinks_total, Hall, Hs.
    - intros s Hs. apply isDomainInLinks_total, Hall, Hs. }
  destruct E3 as [m3 ->]. simpl.
  destruct (truthy (bodyNormalized post)) as [body|]; [|eauto].
  destruct (analyzePostBody settings); [|eauto].
  rewrite findMatchesInBody_scan. apply scan_total.
  - intros s Hs. apply isNameInBody_total, Hall, Hs.
  - intros s Hs. apply isTwitterInBody_total, Hall, Hs.
Qed.

Section Aborts.

Variables first second : Source -> res bool.

Lemma scan_aborts before bad after : forall m,
  (forall s, In s before -> exists b, first s = Ret b) ->
  (forall s, In s before -> exists b, second s = Ret b) ->
  first bad = Throw \/ (first bad = Ret false /\ second bad = Throw) ->
  scan first second (before ++ bad :: after) m = Throw.
Proof.
  induction before as [|x before IH]; intros m H1 H2 Hbad.
  - cbn [app scan]. destruct Hbad as [-> | [-> ->]]; reflexivity.
  - cbn [app scan].
    destruct (H1 x (or_introl eq_refl)) as [a ->].
    destruct (H2 x (or_introl eq_refl)) as [b ->]. cbn [bind].
    destruct a; [|destruct b]; apply IH; auto; intros s Hs;
      (apply H1 || apply H2); right; exact Hs.
Qed.

Lemma scan_never_returns before bad after : forall m m',
  first bad = Throw ->
  scan first second (before ++ bad :: after) m <> Ret m'.
Proof.
  induction before as [|x before IH]; intros m m' Hbad.
  - cbn [app scan]. rewrite Hbad. discriminate.
  - cbn [app scan].
    destruct (first x) as [[|]| |]; cbn [bind]; try discriminate.
    + apply IH, Hbad.
    + destruct (second x) as [[|]| |]; cbn [bind]; try discriminate;
        apply IH, Hbad.
Qed.

End Aborts.

Lemma isNameInTitle_throws text text' source :
  isNameInTitle text source = Throw -> isNameInTitle text' source = Throw.
Proof.
  unfold isNameInTitle, test_new.
  destruct (nameIsCommon source); destruct (new_RegExp _ _); cbn [bind]; congruence.
Qed.

Lemma isTwitterInTitle_throws text text' source :
  isTwitterInTitle text source = Throw -> isTwitterInTitle text' source = Throw.
Proof.
  unfold isTwitterInTitle, test_new.
  destruct (truthy (twitterNormalized source)); [|congruence].
  destruct (new_RegExp _ _); cbn [bind]; congruence.
Qed.

Lemma title_scan_aborts post settings :
  findMatchesInTitle (titleNormalized post) (sources settings) [] = Throw ->
  findSourcesInPost post settings = Throw.
Proof.
  intros H. unfold findSourcesInPost, collect. rewrite H. reflexivity.
Qed.

(** C2, as stated, fails: nothing catches the SyntaxError of the RegExp
    constructor, so one source whose name is not a pattern makes the whole
    scan throw, whatever else the registry and the post hold. *)
Lemma bad_name_aborts_scan :
  findSourcesInPost (title_only "foo said so")
    (sample_settings [sample_source "c++" false None None None;
                      sample_source "foo" false None None (Some 1%Z)])
  = Throw.
Proof. vm_compute. reflexivity. Qed.

(** C2, amended.  The scan returns normally on every post when no source of
    the registry has pattern syntax in its normalized name, in its
    normalized handle or, the period aside, in its domains.  Nothing guards
    the construction of a pattern: with a source whose name pattern cannot
    be built the scan returns a result on no post, and it throws when the
    sources listed before that one have no pattern syntax; a handle pattern
    that cannot be built makes it throw in the same way on the posts whose
    title the name of that source does not match, where the pattern is
    built. *)
Theorem scan_returns_on_plain_registry (settings : AppSettings) :
  (Forall (fun source => well_formed source = true) (sources settings) ->
   forall post, exists result, findSourcesInPost post settings = Ret result)
  /\ (forall before bad after text,
        sources settings = before ++ bad :: after ->
        isNameInTitle text bad = Throw ->
        (forall post result, findSourcesInPost post settings <> Ret result)
        /\ (Forall (fun source => well_formed source = true) before ->
            forall post, findSourcesInPost post settings = Throw))
  /\ (forall before bad after text post,
        sources settings = before ++ bad :: after ->
        Forall (fun source => well_formed source = true) before ->
        isTwitterInTitle text bad = Throw ->
        isNameInTitle (titleNormalized post) bad = Ret false ->
        findSourcesInPost post settings = Throw).
Proof.
  split; [|split].
  - intros H post. destruct (collect_total post settings H) as [m E].
    unfold findSourcesInPost. rewrite E. simpl. eauto.
  - intros before bad after text Es Hbad. split.
    + intros post result H.
      unfold findSourcesInPost, collect in H.
      rewrite findMatchesInTitle_scan, Es in H.
      destruct (scan _ _ (before ++ bad :: after) []) as [m| |] eqn:E;
        try discriminate H.
      exact (scan_never_returns _ _ before bad after [] m
               (isNameInTitle_throws text _ bad Hbad) E).
    + intros Hwf post. rewrite Forall_forall in Hwf.
      apply title_scan_aborts. rewrite findMatchesInTitle_scan, Es.
      apply scan_aborts.
      * intros s Hs. apply isNameInTitle_total, Hwf, Hs.
      * intros s Hs. apply isTwitterInTitle_total, Hwf, Hs.
      * left. exact (isNameInTitle_throws text _ bad Hbad).
  - intros before bad after text post Es Hwf Hbad Hname.
    rewrite Forall_forall in Hwf.
    apply title_scan_aborts. rewrite findMatchesInTitle_scan, Es.
    apply scan_aborts.
    + intros s Hs. apply isNameInTitle_total, Hwf, Hs.
    + intros s Hs. apply isTwitterInTitle_total, Hwf, Hs.
    + right. split; [exact Hname|].
      exact (isTwitterInTitle_throws text _ bad Hbad).
Qed.

Lemma scan_returns_on_plain_registry_witness :
  let plain := sample_source "foo" false (Some "foo_twitter")
                 (Some ["foo.com"]) (Some 1%Z) in
  let bad := sample_source "c++" false None None None in
  (Forall (fun source => well_formed source = true) [plain]
   /\ exists result,
        findSourcesInPost (title_only "bar said so") (sample_settings [plain])
        = Ret result)
  /\ (isNameInTitle "" bad = Throw
      /\ findSourcesInPost (title_only "foo said so") (sample_settings [plain; bad])
         = Throw).
Proof.
  intros plain bad.
  assert (H : Forall (fun source => well_formed source = true) [plain])
    by (repeat constructor).
  split.
  - split; [exact H|].
    exact (proj1 (scan_returns_on_plain_registry (sample_settings [plain])) H
             (title_only "bar said so")).
  - split; [reflexivity|].
    exact (proj2 (proj1 (proj2 (scan_returns_on_plain_registry
                                  (sample_settings [plain; bad])))
                    [plain] bad [] "" eq_refl eq_refl)
             H (title_only "foo said so")).
Defined.

(** * The claim about content construction *)

(** C5, as stated, fails in its first half: nothing in the construction
    step touches a host name, so the [www.] of the primary URL is still
    there when the matcher receives the post. *)
Lemma primary_url_keeps_www :
  exists content u,
    processPost sample_platform sample_post = Ret content
    /\ url content = Some u
    /\ starts_with_www (hostname u) = true.
Proof.
  eexists. eexists. split; [reflexivity|]. split; reflexivity.
Qed.

Lemma getPostLinks_exact pf body :
  getPostLinks pf body
  = match filter (fun l => negb (includes own_hosts (hostname l)))
                 (filter_nonNullable (List.map (new_URL pf) (linkify_match pf body)))
    with
    | [] => None
    | kept => Some kept
    end.
Proof.
  unfold getPostLinks.
  assert (E : forall raws,
             filter_nonNullable
               (List.map (fun link =>
                            match new_URL pf link with
                            | Some u => if includes own_hosts (hostname u)
                                        then None else Some u
                            | None => None
                            end) raws)
             = filter (fun l => negb (includes own_hosts (hostname l)))
                      (filter_nonNullable (List.map (new_URL pf) raws))).
  { induction raws as [|raw raws IH]; [reflexivity|].
    cbn [List.map filter_nonNullable].
    destruct (new_URL pf raw) as [u|]; [|exact IH].
    cbn [filter_nonNullable filter].
    destruct (includes own_hosts (hostname u)); cbn [negb filter_nonNullable];
      rewrite IH; reflexivity. }
  rewrite E. destruct (filter _ _); reflexivity.
Qed.

(** C5, amended.  The construction step strips [www.] nowhere, and own hosts
    are all it filters.  A post is built exactly when its URL parses.  Its
    primary URL is then the parsed URL as it is, or null when the host is one
    of the platform's own; its links are the parsed URLs of the links found
    in the body, as they are and in their order, without those that do not
    parse and those on the platform's own hosts, or null when none is left
    or the post has no body. *)
Theorem processPost_keeps_hosts (pf : Platform) (post : RedditPostV1) :
  (new_URL pf (raw_url post) = None -> processPost pf post = Throw)
  /\ (forall u, new_URL pf (raw_url post) = Some u ->
      exists content, processPost pf post = Ret content)
  /\ (forall content, processPost pf post = Ret content ->
      exists u,
        new_URL pf (raw_url post) = Some u
        /\ url content = (if includes own_hosts (hostname u) then None else Some u)
        /\ links content
           = match truthy (raw_body post) with
             | Some body =>
                 match filter (fun l => negb (includes own_hosts (hostname l)))
                              (filter_nonNullable
                                 (List.map (new_URL pf) (linkify_match pf body)))
                 with
                 | [] => None
                 | kept => Some kept
                 end
             | None => None
             end).
Proof.
  unfold processPost. split; [|split].
  - intros ->. reflexivity.
  - intros u ->. eauto.
  - intros content H.
    destruct (new_URL pf (raw_url post)) as [u|]; [|discriminate H].
    injection H as <-. exists u. split; [reflexivity|]. cbn [url links]. split.
    + change ((if negb (includes own_hosts (hostname u)) then Some u else None)
              = if includes own_hosts (hostname u) then None else Some u).
      destruct (includes own_hosts (hostname u)); reflexivity.
    + destruct (truthy (raw_body post)) as [body|]; [|reflexivity].
      apply getPostLinks_exact.
Qed.

Lemma processPost_keeps_hosts_witness :
  exists content,
    processPost sample_platform sample_post = Ret content
    /\ url content = Some (mkURL "www.example.com" "/story")
    /\ links content = Some [mkURL "www.foo.com" "/a"].
Proof.
  destruct (proj1 (proj2 (processPost_keeps_hosts sample_platform sample_post))
              (mkURL "www.example.com" "/story") eq_refl) as [content E].
  exists content. split; [exact E|].
  destruct (proj2 (proj2 (processPost_keeps_hosts sample_platform sample_post))
              content E) as (u & Eu & Hurl & Hlinks).
  injection Eu as <-. split; [exact Hurl | exact Hlinks].
Defined.

(** * The tables of the repository's test suite, on normalized texts *)

Example isNameInTitle_table :
  let source := sample_source "fooname" false None None None in
  List.map (fun title => isNameInTitle title source)
    ["fooname: rest of the title"; "title with fooname in it";
     "title with (fooname) in it"; "title with [fooname] in it";
     "foo: rest of the title"; "title with foo in it";
     "title with (foo) in it"; "title with [foo] in it";
     "foonamex: rest of the title"; "title with foonamex in it";
     "title with (foonamex) in it"; "title with [foonamex] in it";
     "xfooname: rest of the title"; "title with xfooname in it";
     "title with (xfooname) in it"; "title with [xfooname] in it"]
  = List.map Ret
      [true; true; true; true; false; false; false; false;
       false; false; false; false; false; false; false; false].
Proof. vm_compute. reflexivity. Qed.

Example isNameInTitle_common_table :
  let source := sample_source "fooname" true None None None in
  List.map (fun title => isNameInTitle title source)
    ["fooname: rest of the title"; "title with [fooname] in it";
     "title with (fooname) in it"; "title with fooname in it";
     "foonamex: rest of the title"; "title with [foonamex] in it";
     "title with (foonamex) in it"; "xfooname: rest of the title";
     "title with [xfooname] in it"; "title with (xfooname) in it"]
  = List.map Ret
      [true; true; true; false; false; false; false; false; false; false].
Proof. vm_compute. reflexivity. Qed.

Example isTwitterInTitle_table :
  let source := sample_source "n" false (Some "foo_twitter") None None in
  List.map (fun title => isTwitterInTitle title source)
    ["@foo_twitter: rest of the title"; "foo_twitter: rest of the title";
     "title with @foo_twitter in it"; "title with (foo_twitter) in it";
     "title with [foo_twitter] in it"; "title with foo_twitter in it";
     "title with _foo_twitter in it"; "title with foo_twitter_ in it";
     "@foo_twitterx: rest of the title"; "foo_twitterx: rest of the title";
     "title with @foo_twitterx in it"; "title with (foo_twitterx) in it";
     "title with [foo_twitterx] in it"; "@xfoo_twitter: rest of the title";
     "xfoo_twitter: rest of the title"; "title with @xfoo_twitter in it";
     "title with (xfoo_twitter) in it"; "title with [xfoo_twitter] in it"]
  = List.map Ret
      [true; true; true; true; true; false; false; false; false;
       false; false; false; false; false; false; false; false; false].
Proof. vm_compute. reflexivity. Qed.

Example isDomainInUrl_table :
  List.map (fun host =>
              isDomainInUrl (mkURL host "/")
                (sample_source "n" false None (Some ["en.foo.com"]) None))
    ["en.foo.com"; "m.en.foo.com"; "en.foox.com"; "m.en.foox.com";
     "en.xfoo.com"; "m.en.xfoo.com"]
  = List.map (fun b => Ret (Some b)) [true; true; false; false; false; false].
Proof. vm_compute. reflexivity. Qed.

Example isTwitterInUrl_table :
  let source := sample_source "n" false (Some "footwitter") None None in
  List.map (fun u => isTwitterInUrl u source)
    [mkURL "twitter.com" "/fooTwitter"; mkURL "twitter.com" "/fooTwitter/status";
     mkURL "twitter.com" "/fooTwitter/status/123"; mkURL "x.com" "/fooTwitter";
     mkURL "x.com" "/fooTwitter/status"; mkURL "x.com" "/fooTwitter/status/123";
     mkURL "twitter.com" "/fooTwitterX"; mkURL "twitter.com" "/_fooTwitteX/status";
     mkURL "twitter.com" "/XfooTwitter"]
  = List.map Ret [true; true; true; true; true; true; false; false; false].
Proof. vm_compute. reflexivity. Qed.

Example isDomainInLinks_table :
  let source := sample_source "n" false None (Some ["bar.com"; "foo.com"]) None in
  List.map (fun host => isDomainInLinks [mkURL host "/"] source)
    ["foo.com"; "www.foo.com"; "en.foo.com"; "en.m.foo.com"; "foox.com";
     "en.foox.com"; "en.m.foox.com"; "xfoo.com"; "en.xfoo.com"; "en.m.xfoo.com"]
  = List.map Ret
      [true; true; true; true; false; false; false; false; false; false].
Proof. vm_compute. reflexivity. Qed.

Example isTwitterInLinks_table :
  let source := sample_source "n" false (Some "footwitter") None None in
  List.map (fun urls => isTwitterInLinks urls source)
    [[mkURL "twitter.com" "/fooTwitter"; mkURL "bar.com" "/"];
     [mkURL "twitter.com" "/fooTwitter/status"; mkURL "bar.com" "/"];
     [mkURL "x.com" "/fooTwitter/status/123"; mkURL "bar.com" "/"];
     [mkURL "twitter.com" "/fooTwitterX"];
     [mkURL "twitter.com" "/fooTwitterX/status/123"];
     [mkURL "twitter.com" "/xFooTwitter"];
     [mkURL "twitter.com" "/xFooTwitter/status"]]
  = List.map Ret [true; true; true; false; false; false; false].
Proof. vm_compute. reflexivity. Qed.

Example isNameInBody_common_table :
  let source := sample_source "fooname" true None None None in
  List.map (fun body => isNameInBody body source)
    ["fooname: rest of the post body";
     "post body with" ++ line_feed ++ "(fooname) in it";
     "post body with" ++ line_feed ++ "[fooname] in it";
     "post body with" ++ line_feed ++ "fooname in it";
     "post body with" ++ line_feed ++ "foonamex in it";
     "post body with" ++ line_feed ++ "(foonamex) in it";
     "post body with" ++ line_feed ++ "(xfooname) in it";
     "post body with" ++ line_feed ++ "[foonamex] in it";
     "post body with" ++ line_feed ++ "[xfooname] in it"]%string
  = List.map Ret [true; true; true; false; false; false; false; false; false].
Proof. vm_compute. reflexivity. Qed.

Example isTwitterInBody_table :
  let source := sample_source "n" false (Some "foo_twitter") None None in
  List.map (fun body => isTwitterInBody body source)
    ["foo_twitter: rest of the post body"; "@foo_twitter: rest of the post body";
     "(foo_twitter): rest of the post body"; "[@foo_twitter]: rest of the post body";
     "post body with" ++ line_feed ++ "@foo_twitter in it";
     "post body with" ++ line_feed ++ "(foo_twitter) in it";
     "post body with" ++ line_feed ++ "[foo_twitter] in it";
     "post body with" ++ line_feed ++ "@foo_twitterx in it";
     "post body with" ++ line_feed ++ "(foo_twitterx) in it";
     "post body with" ++ line_feed ++ "[xfoo_twitter] in it"]%string
  = List.map Ret
      [true; true; true; true; true; true; true; false; false; false].
Proof. vm_compute. reflexivity. Qed.

(** * Further facts about the matcher ([src/matcher.ts]) *)

(** ** Every match is reported *)

Section Completeness.

Variables first second : Source -> res bool.

Lemma scan_keeps srcs : forall m m' k,
  scan first second srcs m = Ret m' ->
  In k (List.map fst m) -> In k (List.map fst m').
Proof.
  induction srcs as [|x srcs IH]; intros m m' k E Hk; simpl in E.
  - injection E as <-. exact Hk.
  - destruct (first x) as [[|]| |]; simpl in E; try discriminate.
    + apply (IH _ _ k E). apply (proj2 (map_set_keys first second _ _ _ _)). right. exact Hk.
    + destruct (second x) as [[|]| |]; simpl in E; try discriminate.
      * apply (IH _ _ k E). apply (proj2 (map_set_keys first second _ _ _ _)). right. exact Hk.
      * apply (IH _ _ k E). exact Hk.
Qed.

Lemma scan_files srcs : forall m m' s,
  scan first second srcs m = Ret m' -> In s srcs ->
  first s = Ret true \/ second s = Ret true ->
  In (id s) (List.map fst m').
Proof.
  induction srcs as [|x srcs IH]; intros m m' s E Hs Hhit; simpl in E.
  - destruct Hs.
  - destruct Hs as [->|Hs].
    + destruct (first s) as [[|]| |] eqn:Ea; simpl in E; try discriminate.
      * apply (scan_keeps _ _ _ _ E). apply (proj2 (map_set_keys first second _ _ _ _)). left. reflexivity.
      * destruct Hhit as [Hf|Hb]; [discriminate Hf|]. rewrite Hb in E. simpl in E.
        apply (scan_keeps _ _ _ _ E). apply (proj2 (map_set_keys first second _ _ _ _)). left. reflexivity.
    + destruct (first x) as [[|]| |]; simpl in E; try discriminate.
      * apply (IH _ _ s E Hs Hhit).
      * destruct (second x) as [[|]| |]; simpl in E; try discriminate;
          apply (IH _ _ s E Hs Hhit).
Qed.

End Completeness.

Lemma same_id_same_source (l : list Source) a b :
  NoDup (List.map id l) -> In a l -> In b l -> id a = id b -> a = b.
Proof.
  induction l as [|x l IH]; simpl; intros N Ha Hb E; [destruct Ha|].
  inversion N as [|? ? Hx Hl]; subst.
  destruct Ha as [->|Ha], Hb as [->|Hb].
  - reflexivity.
  - exfalso. apply Hx. rewrite E. apply in_map. exact Hb.
  - exfalso. apply Hx. rewrite <- E. apply in_map. exact Ha.
  - apply IH; assumption.
Qed.

Section Reported.

Variable post : PostData.
Variable settings : AppSettings.

Lemma collect_complete m source :
  collect post settings = Ret m -> hit post settings source ->
  In (id source) (List.map fst m).
Proof.
  unfold collect. intros H [Hin Hhit].
  apply bind_Ret in H. destruct H as (m1 & E1 & H).
  apply bind_Ret in H. destruct H as (m2 & E2 & H).
  apply bind_Ret in H. destruct H as (m3 & E3 & E4).
  rewrite findMatchesInTitle_scan in E1.
  assert (K2 : forall k, In k (List.map fst m1) -> In k (List.map fst m2)).
  { intros k Hk. destruct (url post) as [u|].
    - rewrite findMatchesInUrl_scan in E2. apply (scan_keeps _ _ _ _ _ k E2 Hk).
    - injection E2 as <-. exact Hk. }
  assert (K3 : forall k, In k (List.map fst m2) -> In k (List.map fst m3)).
  { intros k Hk. destruct (links post) as [ls|].
    - rewrite findMatchesInLinks_scan in E3. apply (scan_keeps _ _ _ _ _ k E3 Hk).
    - injection E3 as <-. exact Hk. }
  assert (K4 : forall k, In k (List.map fst m3) -> In k (List.map fst m)).
  { intros k Hk. destruct (truthy (bodyNormalized post)) as [body|];
      [|injection E4 as <-; exact Hk].
    destruct (analyzePostBody settings); [|injection E4 as <-; exact Hk].
    rewrite findMatchesInBody_scan in E4. apply (scan_keeps _ _ _ _ _ k E4 Hk). }
  destruct Hhit as [Ht|[(u & Eu & Hu)|[(ls & El & Hl)|(body & Eb & Ea & Hb)]]].
  - apply K4, K3, K2. apply (scan_files _ _ _ _ _ source E1 Hin Ht).
  - apply K4, K3. rewrite Eu, findMatchesInUrl_scan in E2.
    apply (scan_files _ _ _ _ _ source E2 Hin).
    destruct Hu as [Hu|Hu]; [left; exact Hu | right; rewrite Hu; reflexivity].
  - apply K4. rewrite El, findMatchesInLinks_scan in E3.
    apply (scan_files _ _ _ _ _ source E3 Hin Hl).
  - rewrite Eb, Ea, findMatchesInBody_scan in E4.
    apply (scan_files _ _ _ _ _ source E4 Hin Hb).
Qed.

Lemma findSourcesInPost_of_map m :
  collect post settings = Ret m ->
  findSourcesInPost post settings
  = Ret (match m with
         | [] => None
         | _ => Some (sort_by compare_tier (map_values m))
         end).
Proof.
  intros E. unfold findSourcesInPost. rewrite E. simpl. f_equal.
  pose proof (Permutation_length (sort_by_perm compare_tier (map_values m))) as L.
  destruct m as [|kv m]; [reflexivity|].
  destruct (sort_by compare_tier (map_values (kv :: m))); [discriminate L | reflexivity].
Qed.

End Reported.

(** X1.  Every source of the registry that matches on a channel is in the result,
    under its id; when the ids of the registry are distinct it is in the
    result itself. *)
Theorem matched_source_is_reported (post : PostData) (settings : AppSettings)
    (r : option (list Source)) (source : Source) :
  findSourcesInPost post settings = Ret r ->
  In source (sources settings) ->
  title_hit post source \/ url_hit post source \/ links_hit post source
    \/ body_hit post settings source ->
  exists result, r = Some result
    /\ (exists s, In s result /\ id s = id source)
    /\ (NoDup (List.map id (sources settings)) -> In source result).
Proof.
  intros H Hin Hhit.
  assert (Hc : exists m, collect post settings = Ret m).
  { unfold findSourcesInPost in H. apply bind_Ret in H.
    destruct H as (m & E & _). eauto. }
  destruct Hc as [m E].
  pose proof (collect_complete post settings m source E (conj Hin Hhit)) as Hk.
  apply in_map_iff in Hk. destruct Hk as ([k v] & Ek & Hkv). simpl in Ek. subst k.
  rewrite (findSourcesInPost_of_map post settings m E) in H.
  destruct m as [|kv m']; [destruct Hkv|]. injection H as <-.
  eexists. split; [reflexivity|].
  destruct (collect_recorded post settings _ E) as [R _].
  destruct (R _ _ Hkv) as [Eid [Hv _]].
  assert (Hres : In v (sort_by compare_tier (map_values (kv :: m')))).
  { apply (Permutation_in _ (sort_by_perm _ _)). unfold map_values.
    apply in_map_iff. exists (id source, v). split; [reflexivity | exact Hkv]. }
  split.
  - exists v. split; [exact Hres | symmetry; exact Eid].
  - intros N. rewrite (same_id_same_source _ source v N Hin Hv Eid). exact Hres.
Qed.

Lemma matched_source_is_reported_witness :
  let foo := sample_source "foo" false None None (Some 2%Z) in
  let settings := sample_settings [foo; sample_source "bar" false None None None] in
  let post := title_only "foo said so" in
  exists result, findSourcesInPost post settings = Ret (Some result) /\ In foo result.
Proof.
  intros foo settings post.
  destruct (matched_source_is_reported post settings (Some [foo]) foo eq_refl
              (or_introl eq_refl) (or_introl (or_introl eq_refl)))
    as (result & E & _ & H).
  exists result. split.
  - rewrite <- E. reflexivity.
  - apply H. repeat constructor; simpl; intuition discriminate.
Defined.

(** X2.  The result is null exactly when no source of the registry matches on
    any channel, and a result that is not null is never empty. *)
Theorem null_result_iff_nothing_matched (post : PostData) (settings : AppSettings)
    (r : option (list Source)) :
  findSourcesInPost post settings = Ret r ->
  (r = None <-> forall source, ~ hit post settings source)
  /\ (forall result, r = Some result -> result <> []).
Proof.
  intros H.
  assert (Hc : exists m, collect post settings = Ret m).
  { unfold findSourcesInPost in H. apply bind_Ret in H.
    destruct H as (m & E & _). eauto. }
  destruct Hc as [m E].
  rewrite (findSourcesInPost_of_map post settings m E) in H. injection H as <-.
  destruct (collect_recorded post settings _ E) as [R _].
  split; [split|].
  - intros Hnone source Hhit.
    pose proof (collect_complete post settings m source E Hhit) as Hk.
    destruct m; [destruct Hk | discriminate Hnone].
  - intros Hno. destruct m as [|[k v] m']; [reflexivity|].
    exfalso. apply (Hno v). apply (R k v). left. reflexivity.
  - intros result Hr. destruct m as [|kv m']; [discriminate Hr|].
    injection Hr as <-. intros Hnil.
    pose proof (eq_ind _ (fun l => Permutation (map_values (kv :: m')) l)
                  (sort_by_perm compare_tier (map_values (kv :: m'))) _ Hnil) as P.
    apply Permutation_sym, Permutation_nil in P. discriminate P.
Qed.

Lemma null_result_iff_nothing_matched_witness :
  let settings := sample_settings [sample_source "foo" false None None None] in
  let post := title_only "bar said so" in
  findSourcesInPost post settings = Ret None
  /\ forall source, ~ hit post settings source.
Proof.
  intros settings post.
  assert (E : findSourcesInPost post settings = Ret None) by reflexivity.
  split; [exact E|].
  exact (proj1 (proj1 (null_result_iff_nothing_matched post settings None E)) eq_refl).
Defined.

(** X3.  With the body toggle off the body of a post is not read: two posts that
    differ in their body only get the same outcome. *)
Theorem body_not_read_when_disabled (post post' : PostData) (settings : AppSettings) :
  analyzePostBody settings = false ->
  titleNormalized post = titleNormalized post' ->
  url post = url post' ->
  links post = links post' ->
  findSourcesInPost post settings = findSourcesInPost post' settings.
Proof.
  intros Ha Et Eu El. unfold findSourcesInPost, collect.
  rewrite Ha, Et, Eu, El.
  destruct (truthy (bodyNormalized post)), (truthy (bodyNormalized post')); reflexivity.
Qed.

Lemma body_not_read_when_disabled_witness :
  let settings := mkAppSettings [sample_source "foo" false None None None]
                    "" "" "" false [] "" in
  findSourcesInPost (mkPostData "t3_1" "soccer" "a title" (Some "foo said so") None None)
    settings
  = findSourcesInPost (title_only "a title") settings.
Proof.
  intros settings.
  apply (body_not_read_when_disabled _ _ settings); reflexivity.
Defined.

(** ** The remaining channel predicates *)

Lemma some_ext {A : Type} (f g : A -> res bool) l :
  (forall x, f x = g x) -> some f l = some g l.
Proof.
  intros H. induction l as [|x l IH]; simpl; [reflexivity|].
  rewrite H, IH. reflexivity.
Qed.

Lemma some_never {A : Type} (l : list A) : some (fun _ => Ret false) l = Ret false.
Proof. induction l as [|x l IH]; simpl; [reflexivity | exact IH]. Qed.

(** X4.  For a handle without pattern syntax the single-URL predicate returns
    exactly: the host is x.com or twitter.com, letter case aside, and the
    path is a slash and the handle, alone or followed by a slash or by white
    space.  Another host never matches, whatever the path. *)
Theorem url_handle_rule (source : Source) (u : URL) (handle : string) :
  truthy (twitterNormalized source) = Some handle ->
  plain_text handle = true ->
  isTwitterInUrl u source
  = Ret (includes ["x.com"; "twitter.com"] (toLowerCase (hostname u))
         && handle_is_first_segment (chars handle) (chars (pathname u))).
Proof. intros Hh Hp. apply isTwitterInUrl_plain; assumption. Qed.

Lemma url_handle_rule_witness :
  let source := sample_source "n" false (Some "footwitter") None None in
  (truthy (twitterNormalized source) = Some "footwitter"
   /\ plain_text "footwitter" = true)
  /\ isTwitterInUrl (mkURL "Twitter.com" "/fooTwitter/status/123") source = Ret true
  /\ isTwitterInUrl (mkURL "twitter.com" "/fooTwitterX") source = Ret false.
Proof.
  intros source. split; [split; reflexivity|]. split.
  - rewrite (url_handle_rule source _ "footwitter" eq_refl eq_refl). reflexivity.
  - rewrite (url_handle_rule source _ "footwitter" eq_refl eq_refl). reflexivity.
Defined.

(** X5.  For a handle without pattern syntax the links predicate returns exactly
    whether the path of some link is a slash and the handle, alone or
    followed by a slash or by white space; the host of the link plays no
    part. *)
Theorem links_handle_rule (source : Source) (urls : list URL) (handle : string) :
  truthy (twitterNormalized source) = Some handle ->
  plain_text handle = true ->
  isTwitterInLinks urls source
  = Ret (existsb (fun u => handle_is_first_segment (chars handle) (chars (pathname u)))
                 urls).
Proof. intros Hh Hp. apply isTwitterInLinks_plain; assumption. Qed.

Lemma links_handle_rule_witness :
  let source := sample_source "n" false (Some "footwitter") None None in
  (truthy (twitterNormalized source) = Some "footwitter"
   /\ plain_text "footwitter" = true)
  /\ isTwitterInLinks [mkURL "bar.com" "/"; mkURL "x.com" "/footwitter/"] source
     = Ret true.
Proof.
  intros source. split; [split; reflexivity|].
  rewrite (links_handle_rule source _ "footwitter" eq_refl eq_refl). reflexivity.
Defined.

(** X6.  Whatever the handle, a URL the single-URL predicate accepts is accepted
    by the links predicate in any list that holds it. *)
Theorem url_handle_match_is_links_match (source : Source) (u : URL)
    (urls : list URL) :
  In u urls ->
  isTwitterInUrl u source = Ret true ->
  isTwitterInLinks urls source = Ret true.
Proof. intros Hin H. exact (isTwitterInUrl_in_links source u urls Hin H). Qed.

Lemma url_handle_match_is_links_match_witness :
  let source := sample_source "n" false (Some "footwitter") None None in
  let u := mkURL "x.com" "/footwitter" in
  isTwitterInUrl u source = Ret true
  /\ isTwitterInLinks [mkURL "bar.com" "/"; u] source = Ret true.
Proof.
  intros source u.
  assert (E : isTwitterInUrl u source = Ret true) by reflexivity.
  split; [exact E|].
  exact (url_handle_match_is_links_match source u [mkURL "bar.com" "/"; u]
           (or_intror (or_introl eq_refl)) E).
Defined.

(** X7.  The domain predicate on links is the domain predicate on a URL asked of
    every link in turn, up to the first one accepted - with the same
    exceptions, and with a missing domain list counted as no match. *)
Theorem links_domain_is_url_domain_of_some_link (source : Source) (urls : list URL) :
  isDomainInLinks urls source
  = some (fun u => r <- isDomainInUrl u source ;; Ret (holds r)) urls.
Proof.
  unfold isDomainInLinks, isDomainInUrl.
  destruct (domains source) as [ds|].
  - destruct ds as [|d ds].
    + simpl. symmetry. apply some_never.
    + cbn [length Nat.ltb Nat.leb]. apply some_ext. intros u.
      destruct (some _ (d :: ds)) as [[|]| |]; reflexivity.
  - simpl. symmetry. apply some_never.
Qed.

(** X8.  For domains made of periods and of characters without pattern syntax,
    and links whose hosts have no line terminator, the domain predicate on
    links returns true exactly when the host of some link is one of the
    domains or ends with a period followed by one of them. *)
Theorem links_domain_rule (source : Source) (urls : list URL) (ds : list string) :
  domains source = Some ds ->
  forallb domain_text ds = true ->
  (forall u, In u urls -> no_line_terminator (hostname u) = true) ->
  exists b, isDomainInLinks urls source = Ret b
    /\ (b = true <->
        exists u d, In u urls /\ In d ds /\ host_under d (hostname u)).
Proof.
  intros Hd Hds Hfree.
  exists (existsb (fun u => existsb (domain_found (hostname u)) ds) urls). split.
  - unfold isDomainInLinks. rewrite Hd. destruct ds as [|d ds'].
    + simpl. f_equal. clear Hfree.
      induction urls as [|u urls' IH]; [reflexivity | exact IH].
    + cbn [length Nat.ltb Nat.leb]. apply some_pointwise.
      intros u _. apply some_domain. exact Hds.
  - rewrite existsb_exists. split.
    + intros (u & Hu & H). apply existsb_exists in H. destruct H as (d & Hdin & H).
      exists u, d. split; [exact Hu|]. split; [exact Hdin|].
      apply (search_domain d (hostname u) (Hfree u Hu)). exact H.
    + intros (u & d & Hu & Hdin & H). exists u. split; [exact Hu|].
      apply existsb_exists. exists d. split; [exact Hdin|].
      apply (search_domain d (hostname u) (Hfree u Hu)). exact H.
Qed.

Lemma links_domain_rule_witness :
  let source := sample_source "n" false None (Some ["bar.com"; "foo.com"]) None in
  let urls := [mkURL "x.com" "/a"; mkURL "www.foo.com" "/story"] in
  exists b, isDomainInLinks urls source = Ret b
    /\ (b = true <->
        exists u d, In u urls /\ In d ["bar.com"; "foo.com"]
                    /\ host_under d (hostname u)).
Proof.
  intros source urls.
  apply (links_domain_rule source urls ["bar.com"; "foo.com"] eq_refl eq_refl).
  intros u [<-|[<-|[]]]; reflexivity.
Defined.

(** X9.  The global flag of the body patterns changes nothing: whatever the
    handle, the body predicate for handles is the title predicate, and for a
    name that is not common the body predicate for names is the title
    predicate - throwing included. *)
Theorem body_predicates_are_title_predicates (source : Source) (text : string) :
  isTwitterInBody text source = isTwitterInTitle text source
  /\ (nameIsCommon source = false ->
      isNameInBody text source = isNameInTitle text source).
Proof.
  split; [apply isTwitterInBody_title | apply isNameInBody_uncommon].
Qed.

Lemma body_predicates_are_title_predicates_witness :
  let source := sample_source "c++" false (Some "a|b") None None in
  isTwitterInBody "a|b said so" source = Ret true
  /\ isNameInBody "c++ is hard" source = Throw.
Proof.
  intros source. split.
  - rewrite (proj1 (body_predicates_are_title_predicates source "a|b said so")).
    reflexivity.
  - rewrite (proj2 (body_predicates_are_title_predicates source "c++ is hard") eq_refl).
    reflexivity.
Defined.

(** X10.  For a common name without pattern syntax the body predicate returns
    exactly: the name and a colon somewhere, or the name between an opening
    and a closing bracket somewhere.  So it accepts every text the title
    predicate accepts. *)
Theorem common_name_body_forms (source : Source) (text : string) :
  nameIsCommon source = true ->
  plain_text (nameNormalized source) = true ->
  let w := chars (nameNormalized source) in
  let s := chars text in
  isNameInBody text source = Ret (common_name_in_body w s)
  /\ (isNameInTitle text source = Ret true -> isNameInBody text source = Ret true).
Proof.
  intros Hc Hp w s.
  rewrite (isNameInBody_common source text Hc Hp),
          (isNameInTitle_common source text Hc Hp).
  fold w s. split; [reflexivity|]. intros H. injection H as H. f_equal.
  unfold common_name_in_title in H. unfold common_name_in_body.
  apply orb_true_iff in H. apply orb_true_iff. destruct H as [H|H]; [left | right; exact H].
  apply anywhere_iff; [apply before_colon_inside | exists 0; exact H].
Qed.

Lemma common_name_body_forms_witness :
  let source := sample_source "fooname" true None None None in
  (nameIsCommon source = true /\ plain_text (nameNormalized source) = true)
  /\ isNameInBody "they said fooname: no" source = Ret true
  /\ isNameInBody "they said fooname is out" source = Ret false.
Proof.
  intros source. split; [split; reflexivity|]. split.
  - rewrite (proj1 (common_name_body_forms source "they said fooname: no"
                      eq_refl eq_refl)).
    reflexivity.
  - rewrite (proj1 (common_name_body_forms source "they said fooname is out"
                      eq_refl eq_refl)).
    reflexivity.
Defined.

(** * The ignore list ([src/helpers.ts], [src/schema.ts]) *)

Section Usernames.

Lemma username_char_not_space c : username_char c = true -> Char.is_space c = false.
Proof. destruct c as [[] [] [] [] [] [] [] []]; intros H; solve [reflexivity | discriminate H]. Qed.

Lemma username_char_not_comma c : username_char c = true -> Ascii.eqb c ","%char = false.
Proof. destruct c as [[] [] [] [] [] [] [] []]; intros H; solve [reflexivity | discriminate H]. Qed.

Lemma space_not_comma c : Char.is_space c = true -> Ascii.eqb c ","%char = false.
Proof. destruct c as [[] [] [] [] [] [] [] []]; intros H; solve [reflexivity | discriminate H]. Qed.

Lemma has_foreign_char_clean u : has_foreign_char u = false <-> clean u = true.
Proof.
  unfold has_foreign_char, clean.
  induction (list_ascii_of_string u) as [|c l IH]; simpl; [tauto|].
  rewrite orb_false_iff, andb_true_iff, negb_false_iff, IH. tauto.
Qed.

Lemma split_commas_cons text :
  exists piece pieces, split_commas text = piece :: pieces.
Proof.
  induction text as [|c rest IH]; simpl; [eauto|].
  destruct (Ascii.eqb c ","%char); [eauto|].
  destruct IH as (p & ps & ->). eauto.
Qed.

(** A piece without a comma in front of what follows. *)
Lemma split_commas_piece piece : forall rest,
  forallb (fun c => negb (Ascii.eqb c ","%char)) (list_ascii_of_string piece) = true ->
  split_commas (piece ++ String ","%char rest) = piece :: split_commas rest.
Proof.
  induction piece as [|c piece IH]; intros rest H; simpl in *.
  - reflexivity.
  - apply andb_true_iff in H. destruct H as [Hc Hp].
    apply negb_true_iff in Hc. rewrite Hc, (IH rest Hp). reflexivity.
Qed.

Lemma split_commas_last piece :
  forallb (fun c => negb (Ascii.eqb c ","%char)) (list_ascii_of_string piece) = true ->
  split_commas piece = [piece].
Proof.
  induction piece as [|c piece IH]; intros H; simpl in *.
  - reflexivity.
  - apply andb_true_iff in H. destruct H as [Hc Hp].
    apply negb_true_iff in Hc. rewrite Hc, (IH Hp). reflexivity.
Qed.

Lemma split_commas_join pieces :
  pieces <> [] ->
  (forall p, In p pieces ->
     forallb (fun c => negb (Ascii.eqb c ","%char)) (list_ascii_of_string p) = true) ->
  split_commas (join "," pieces) = pieces.
Proof.
  induction pieces as [|p rest IH]; intros Hne H; [contradiction|].
  destruct rest as [|q rest].
  - simpl. apply split_commas_last. apply H. left. reflexivity.
  - change (join "," (p :: q :: rest))
      with (p ++ String ","%char (join "," (q :: rest)))%string.
    rewrite split_commas_piece by (apply H; left; reflexivity).
    f_equal. apply IH; [discriminate|]. intros p' Hp'. apply H. right. exact Hp'.
Qed.

Lemma trimStart_blank before : forall rest,
  blank before = true -> trimStart (before ++ rest) = trimStart rest.
Proof.
  unfold blank. induction before as [|c before IH]; intros rest H; simpl in *.
  - reflexivity.
  - apply andb_true_iff in H. destruct H as [Hc Hb]. rewrite Hc. apply IH, Hb.
Qed.

Lemma trimEnd_blank after : blank after = true -> trimEnd after = EmptyString.
Proof.
  unfold blank. induction after as [|c after IH]; intros H; simpl in *.
  - reflexivity.
  - apply andb_true_iff in H. destruct H as [Hc Ha]. rewrite (IH Ha), Hc. reflexivity.
Qed.

Lemma trimEnd_clean username : forall after,
  clean username = true -> blank after = true ->
  trimEnd (username ++ after) = username.
Proof.
  unfold clean. induction username as [|c username IH]; intros after Hu Ha; simpl in *.
  - apply trimEnd_blank, Ha.
  - apply andb_true_iff in Hu. destruct Hu as [Hc Hu].
    rewrite (IH after Hu Ha), (username_char_not_space c Hc).
    destruct username; reflexivity.
Qed.

Lemma trim_padded item : well_padded item = true -> trim (padded item) = username_of item.
Proof.
  destruct item as [[before username] after]. unfold well_padded, padded, username_of, trim.
  intros H. apply andb_true_iff in H. destruct H as [H Ha].
  apply andb_true_iff in H. destruct H as [Hb Hu].
  rewrite (trimStart_blank before _ Hb).
  destruct username as [|c username].
  - simpl. assert (E : trimStart after = EmptyString).
    { clear -Ha. unfold blank in Ha. induction after as [|c after IH]; simpl in *;
        [reflexivity|]. apply andb_true_iff in Ha. destruct Ha as [Hc Ha].
      rewrite Hc. apply IH, Ha. }
    rewrite E. reflexivity.
  - assert (Hc : Char.is_space c = false).
    { apply username_char_not_space. unfold clean in Hu. simpl in Hu.
      apply andb_true_iff in Hu. apply Hu. }
    change ((String c username ++ after)%string) with (String c (username ++ after)).
    cbn [trimStart]. rewrite Hc.
    change (String c (username ++ after)) with ((String c username ++ after)%string).
    apply trimEnd_clean; assumption.
Qed.

Lemma padded_no_comma item :
  well_padded item = true ->
  forallb (fun c => negb (Ascii.eqb c ","%char)) (list_ascii_of_string (padded item))
  = true.
Proof.
  destruct item as [[before username] after]. unfold well_padded, padded, blank, clean.
  intros H. apply andb_true_iff in H. destruct H as [H Ha].
  apply andb_true_iff in H. destruct H as [Hb Hu].
  rewrite !ParserFacts.chars_app, !forallb_app.
  rewrite forallb_forall in Hb, Hu, Ha.
  repeat (apply andb_true_iff; split); apply forallb_forall; intros c Hc;
    apply negb_true_iff.
  - apply space_not_comma, Hb, Hc.
  - apply username_char_not_comma, Hu, Hc.
  - apply space_not_comma, Ha, Hc.
Qed.

Lemma lower_lower c : lower (lower c) = lower c.
Proof. destruct c as [[] [] [] [] [] [] [] []]; reflexivity. Qed.

Lemma toLowerCase_idempotent text : toLowerCase (toLowerCase text) = toLowerCase text.
Proof.
  induction text as [|c text IH]; simpl; [reflexivity|].
  rewrite lower_lower, IH. reflexivity.
Qed.

End Usernames.

(** X11.  What the ignore-list setting accepts is a list with at least one entry
    whose entries hold username characters only: no comma, no white space. *)
Theorem accepted_usernames_are_clean (value : unknown) (usernames : list string) :
  preprocessCommaSeparated value = passed usernames ->
  usernames <> []
  /\ forall username c,
       In username usernames -> In c (list_ascii_of_string username) ->
       username_char c = true.
Proof.
  unfold preprocessCommaSeparated. destruct value as [text|]; [|discriminate].
  destruct (existsb has_foreign_char (List.map trim (split_commas text))) eqn:E;
    [discriminate|].
  intros H. injection H as <-. split.
  - destruct (split_commas_cons text) as (p & ps & ->). discriminate.
  - intros username c Hu Hc.
    assert (Hf : has_foreign_char username = false).
    { destruct (has_foreign_char username) eqn:Ef; [|reflexivity].
      rewrite <- E. symmetry. apply existsb_exists. eauto. }
    apply has_foreign_char_clean in Hf. unfold clean in Hf.
    rewrite forallb_forall in Hf. apply Hf, Hc.
Qed.

Lemma accepted_usernames_are_clean_witness :
  preprocessCommaSeparated (a_string "AutoModerator, foo-bar") 
  = passed ["AutoModerator"; "foo-bar"]
  /\ ["AutoModerator"; "foo-bar"] <> [].
Proof.
  assert (E : preprocessCommaSeparated (a_string "AutoModerator, foo-bar")
              = passed ["AutoModerator"; "foo-bar"]) by reflexivity.
  split; [exact E|].
  exact (proj1 (accepted_usernames_are_clean _ _ E)).
Defined.

(** X12.  Usernames of username characters, written with commas between them and
    any white space around each, are read back exactly. *)
Theorem listed_usernames_read_back (items : list (string * string * string)) :
  items <> [] ->
  forallb well_padded items = true ->
  preprocessCommaSeparated (a_string (join "," (List.map padded items)))
  = passed (List.map username_of items).
Proof.
  intros Hne Hall. rewrite forallb_forall in Hall.
  unfold preprocessCommaSeparated.
  rewrite split_commas_join.
  - rewrite map_map.
    assert (Et : List.map (fun item => trim (padded item)) items
                 = List.map username_of items).
    { apply map_ext_in. intros item Hi. apply trim_padded, Hall, Hi. }
    rewrite Et.
    assert (Ef : existsb has_foreign_char (List.map username_of items) = false).
    { destruct (existsb has_foreign_char (List.map username_of items)) eqn:E;
        [|reflexivity].
      apply existsb_exists in E. destruct E as (u & Hu & Hf).
      apply in_map_iff in Hu. destruct Hu as ([[b u'] a] & <- & Hi).
      apply Hall in Hi. unfold well_padded in Hi.
      apply andb_true_iff in Hi. destruct Hi as [Hi _].
      apply andb_true_iff in Hi. destruct Hi as [_ Hi].
      apply has_foreign_char_clean in Hi. simpl in Hf. congruence. }
    rewrite Ef. reflexivity.
  - destruct items; [contradiction | discriminate].
  - intros p Hp. apply in_map_iff in Hp. destruct Hp as (item & <- & Hi).
    apply padded_no_comma, Hall, Hi.
Qed.

Lemma listed_usernames_read_back_witness :
  let items := [("", "AutoModerator", ""); (" ", "foo_bar", " "); ("", "", "")] in
  (items <> [] /\ forallb well_padded items = true)
  /\ preprocessCommaSeparated (a_string "AutoModerator, foo_bar ,")
     = passed ["AutoModerator"; "foo_bar"; ""].
Proof.
  intros items.
  assert (Hne : items <> []) by discriminate.
  assert (Hall : forallb well_padded items = true) by reflexivity.
  split; [split; assumption|].
  exact (listed_usernames_read_back items Hne Hall).
Defined.

(** X13.  An author is ignored exactly when the list holds the author's name,
    letter case aside; the letter case of the author's name plays no part. *)
Theorem ignored_user_up_to_case (username : string) (settings : AppSettings) :
  (isIgnoredUser username settings = true <->
   exists listed, In listed (ignoredUsers settings)
                  /\ toLowerCase listed = toLowerCase username)
  /\ isIgnoredUser (toLowerCase username) settings = isIgnoredUser username settings.
Proof.
  unfold isIgnoredUser. split.
  - rewrite existsb_exists. split; intros (u & Hu & H); exists u; (split; [exact Hu|]);
      apply String.eqb_eq; exact H.
  - rewrite toLowerCase_idempotent. reflexivity.
Qed.

(** * The report ([src/comment.ts]) *)

Section ReportFacts.

Variable number_text : Z -> string.
Variable answer : call -> settled.

Lemma reliabilityLevel_known t :
  (1 <= t <= 5)%Z -> exists level, reliabilityLevel (Some t) = Ret level.
Proof.
  intros H.
  assert (E : t = 1%Z \/ t = 2%Z \/ t = 3%Z \/ t = 4%Z \/ t = 5%Z) by lia.
  destruct E as [->|[->|[->|[->| ->]]]]; simpl; eauto.
Qed.

Lemma reliabilityLevel_unknown t :
  ~ (1 <= t <= 5)%Z -> reliabilityLevel (Some t) = Throw.
Proof.
  intros H. destruct t as [|p|p]; [reflexivity| |reflexivity].
  destruct p as [p|p|]; try destruct p as [p|p|]; try destruct p as [p|p|];
    try reflexivity; exfalso; apply H; lia.
Qed.

Lemma capitalizeString_type t : exists kind, capitalizeString (type_text t) = Ret kind.
Proof. destruct t; simpl; eauto. Qed.

Lemma nonzero_Some t k : nonzero t = Some k -> t = Some k /\ k <> 0%Z.
Proof.
  destruct t as [[|p|p]|]; simpl; intros H; try discriminate;
    injection H as <-; split; (reflexivity || discriminate).
Qed.

Lemma nonzero_None t : nonzero t = None -> t = None \/ t = Some 0%Z.
Proof. destruct t as [[|p|p]|]; simpl; intros H; try discriminate; auto. Qed.

Lemma getSourceLine_known source :
  known_tier source = true -> exists line, getSourceLine number_text source = Ret line.
Proof.
  unfold known_tier, getSourceLine. intros H.
  destruct (nonzero (tier source)) as [t|] eqn:E.
  - apply nonzero_Some in E. destruct E as [E Hne]. rewrite E in H.
    apply andb_true_iff in H. destruct H as [H0 H5].
    apply Z.leb_le in H0. apply Z.leb_le in H5.
    destruct (reliabilityLevel_known t) as [level ->]; [lia|]. simpl. eauto.
  - destruct (capitalizeString_type (type source)) as [kind ->]. simpl. eauto.
Qed.

Lemma getSourceLine_unknown source :
  known_tier source = false -> getSourceLine number_text source = Throw.
Proof.
  unfold known_tier, getSourceLine. intros H.
  destruct (tier source) as [t|] eqn:E; [|discriminate].
  assert (Hr : ~ (0 <= t <= 5)%Z).
  { intros [H0 H5]. apply Z.leb_le in H0. apply Z.leb_le in H5.
    rewrite H0, H5 in H. discriminate. }
  assert (En : nonzero (Some t) = Some t).
  { destruct t; [exfalso; apply Hr; lia | reflexivity | reflexivity]. }
  rewrite En, reliabilityLevel_unknown by lia. reflexivity.
Qed.

Lemma map_res_known (srcs : list Source) :
  forallb known_tier srcs = true ->
  exists lines,
    map_res (getSourceLine number_text) srcs = Ret lines
    /\ length lines = length srcs
    /\ map_res (fun source => line <- getSourceLine number_text source ;;
                              Ret ("- " ++ line)%string) srcs
       = Ret (List.map (String.append "- ") lines).
Proof.
  induction srcs as [|s srcs IH]; intros H.
  - exists []. auto.
  - cbn [forallb] in H. apply andb_true_iff in H. destruct H as [Hs Hr].
    destruct (getSourceLine_known s Hs) as [line El].
    destruct (IH Hr) as (lines & E1 & E2 & E3).
    exists (line :: lines). cbn [map_res]. rewrite El, E1, E3. cbn [bind].
    repeat split. simpl. rewrite E2. reflexivity.
Qed.

Lemma map_res_unknown (srcs : list Source) :
  forallb known_tier srcs = false ->
  map_res (fun source => line <- getSourceLine number_text source ;;
                         Ret ("- " ++ line)%string) srcs = Throw.
Proof.
  induction srcs as [|s srcs IH]; intros H; [discriminate|].
  cbn [forallb] in H. cbn [map_res].
  destruct (known_tier s) eqn:Es.
  - destruct (getSourceLine_known s Es) as [line ->]. cbn [bind].
    rewrite (IH H). reflexivity.
  - rewrite (getSourceLine_unknown s Es). reflexivity.
Qed.

Lemma filter_Boolean_app a b :
  filter_Boolean (a ++ b) = filter_Boolean a ++ filter_Boolean b.
Proof.
  induction a as [|x a IH]; simpl; [reflexivity|].
  destruct (truthy x); simpl; rewrite IH; reflexivity.
Qed.

Lemma filter_Boolean_lines lines :
  filter_Boolean (List.map Some (List.map (String.append "- ") lines))
  = List.map (String.append "- ") lines.
Proof.
  induction lines as [|l lines IH]; [reflexivity|].
  cbn [List.map filter_Boolean].
  change (truthy (Some ("- " ++ l)%string)) with (Some ("- " ++ l)%string).
  rewrite IH. reflexivity.
Qed.

Lemma shouldFlairPost_first postData srcs :
  shouldFlairPost postData srcs = true ->
  exists first rest t, srcs = first :: rest /\ tier first = Some t /\ t <> 0%Z.
Proof.
  unfold shouldFlairPost. intros H.
  destruct (match url postData with Some _ => _ | None => _ end);
    cbv iota in H; [discriminate H|].
  destruct srcs as [|first rest]; [discriminate H|].
  destruct (nonzero (tier first)) as [t|] eqn:E; [|discriminate H].
  apply nonzero_Some in E. exists first, rest, t. tauto.
Qed.

Lemma flair_stage postData srcs settings :
  (if shouldFlairPost postData srcs
   then flairPost number_text answer (post_id postData) srcs (subredditName postData)
                  (flairCssClass settings) (flairTemplateId settings)
   else ([], Ret tt))
  = match tier_flair number_text postData srcs settings with
    | flair :: _ => ([flair], await (answer flair))
    | [] => ([], Ret tt)
    end.
Proof.
  unfold tier_flair. destruct (shouldFlairPost postData srcs) eqn:Es; [|reflexivity].
  destruct (shouldFlairPost_first _ _ Es) as (first & rest & t & -> & Et & Hne).
  unfold flairPost. rewrite Et.
  assert (En : nonzero (Some t) = Some t) by (destruct t; [contradiction| |]; reflexivity).
  rewrite En. reflexivity.
Qed.

Lemma tier_flair_shape postData srcs settings :
  tier_flair number_text postData srcs settings = []
  \/ exists first rest t,
       shouldFlairPost postData srcs = true
       /\ srcs = first :: rest /\ tier first = Some t /\ t <> 0%Z
       /\ tier_flair number_text postData srcs settings
          = [setPostFlair (post_id postData) ("Tier " ++ number_text t)
               (flairCssClass settings) (flairTemplateId settings)
               (subredditName postData)].
Proof.
  unfold tier_flair. destruct (shouldFlairPost postData srcs) eqn:Es; [|auto].
  destruct (shouldFlairPost_first _ _ Es) as (first & rest & t & -> & Et & Hne).
  right. exists first, rest, t. rewrite Et. auto.
Qed.

Lemma tier_flair_no_comment postData srcs settings postId text :
  ~ In (reddit_submitComment postId text)
       (tier_flair number_text postData srcs settings).
Proof.
  destruct (tier_flair_shape postData srcs settings)
    as [->|(first & rest & t & _ & _ & _ & _ & ->)].
  - intros [].
  - intros [H|[]]. discriminate H.
Qed.

(** The ways [submitComment] can go, by the flair, the report text and the
    answers of the platform. *)
Lemma submitComment_flow postData srcs settings :
  let flair := tier_flair number_text postData srcs settings in
  let done := submitComment number_text answer postData srcs settings in
  (exists c, In c flair /\ answer c = rejected /\ done = (flair, Throw))
  \/ (all_fulfilled answer flair
      /\ report_markdown number_text srcs settings = Throw
      /\ done = (flair, Throw))
  \/ (all_fulfilled answer flair
      /\ report_markdown number_text srcs settings = Beyond
      /\ done = (flair, Beyond))
  \/ (all_fulfilled answer flair
      /\ exists markdown,
           report_markdown number_text srcs settings = Ret markdown
           /\ answer (reddit_submitComment (post_id postData) markdown) = rejected
           /\ done = (flair ++ [reddit_submitComment (post_id postData) markdown],
                      Throw))
  \/ (all_fulfilled answer flair
      /\ exists markdown,
           report_markdown number_text srcs settings = Ret markdown
           /\ answer (reddit_submitComment (post_id postData) markdown) = fulfilled
           /\ done = (flair ++ [reddit_submitComment (post_id postData) markdown;
                                distinguish true; lock],
                      match answer (distinguish true), answer lock with
                      | fulfilled, fulfilled => Ret tt
                      | _, _ => Throw
                      end)).
Proof.
  intros flair done. subst done. unfold submitComment. rewrite flair_stage.
  fold flair.
  assert (Hshape : flair = [] \/ exists c, flair = [c]).
  { destruct (tier_flair_shape postData srcs settings)
      as [E|(first & rest & t & _ & _ & _ & _ & E)]; [left; exact E|].
    right. eexists. exact E. }
  destruct Hshape as [E|[c E]]; rewrite E;
    [assert (Hf : all_fulfilled answer []) by (intros c [])
    |destruct (answer c) eqn:Ec; cbn [await];
     [assert (Hf : all_fulfilled answer [c]) by (intros c' [<-|[]]; exact Ec)
     |left; exists c; split; [left; reflexivity|]; split; [exact Ec | reflexivity]]];
    right;
    (destruct (report_markdown number_text srcs settings) as [markdown| |];
     [destruct (answer (reddit_submitComment (post_id postData) markdown)) eqn:Ea;
      [do 3 right | right; right; left]; (split; [exact Hf|]); exists markdown; auto
     |left; auto
     |right; left; auto]).
Qed.

Lemma submitComment_In postData srcs settings c :
  In c (fst (submitComment number_text answer postData srcs settings)) ->
  In c (tier_flair number_text postData srcs settings)
  \/ exists markdown,
       report_markdown number_text srcs settings = Ret markdown
       /\ In c [reddit_submitComment (post_id postData) markdown;
                distinguish true; lock].
Proof.
  destruct (submitComment_flow postData srcs settings)
    as [(c' & _ & _ & E)|[(_ & _ & E)|[(_ & _ & E)
        |[(_ & markdown & Em & _ & E)|(_ & markdown & Em & _ & E)]]]];
    rewrite E; cbn [fst]; intros H; auto;
    apply in_app_or in H; destruct H as [H|H]; auto;
    right; exists markdown; (split; [exact Em|]).
  - destruct H as [<-|[]]. left. reflexivity.
  - exact H.
Qed.

Lemma known_tiers_markdown srcs settings :
  (forallb known_tier srcs = true ->
   exists markdown, report_markdown number_text srcs settings = Ret markdown)
  /\ (forallb known_tier srcs = false ->
      report_markdown number_text srcs settings = Throw).
Proof.
  unfold report_markdown. split; intros H.
  - destruct (map_res_known srcs H) as (lines & _ & _ & ->). simpl. eauto.
  - rewrite (map_res_unknown srcs H). reflexivity.
Qed.

End ReportFacts.

(** X14.  A source line can be written exactly for the tiers the report has a
    wording for - no tier, or 0 to 5, where 0 counts as no tier; for any other
    tier writing the line throws. *)
Theorem source_line_needs_known_tier (number_text : Z -> string) (source : Source) :
  (known_tier source = true ->
   exists line, getSourceLine number_text source = Ret line)
  /\ (known_tier source = false -> getSourceLine number_text source = Throw).
Proof.
  split; [apply getSourceLine_known | apply getSourceLine_unknown].
Qed.

Lemma source_line_needs_known_tier_witness :
  let seventh := sample_source "bar" false None None (Some 7%Z) in
  known_tier seventh = false
  /\ getSourceLine (fun _ => "7") seventh = Throw.
Proof.
  intros seventh. split; [reflexivity|].
  exact (proj2 (source_line_needs_known_tier (fun _ => "7") seventh) eq_refl).
Defined.

(** X15.  The flair [submitComment] sets is always the tier of the first source:
    a flair is set only when [shouldFlairPost] holds, which asks for a tier
    that is not 0 on the first source, so the text is never the word for
    aggregators. *)
Theorem flair_text_is_a_tier (number_text : Z -> string) (answer : call -> settled)
    (postData : PostData) (srcs : list Source) (settings : AppSettings)
    (postId text cssClass flairTemplateId subreddit : string) :
  In (setPostFlair postId text cssClass flairTemplateId subreddit)
     (fst (submitComment number_text answer postData srcs settings)) ->
  shouldFlairPost postData srcs = true
  /\ exists first rest t,
       srcs = first :: rest /\ tier first = Some t /\ t <> 0%Z
       /\ text = ("Tier " ++ number_text t)%string
       /\ postId = post_id postData.
Proof.
  intros H. apply submitComment_In in H.
  destruct H as [H|(markdown & _ & [H|[H|[H|[]]]])]; try discriminate H.
  destruct (tier_flair_shape number_text postData srcs settings)
    as [E|(first & rest & t & Es & -> & Et & Hne & E)]; rewrite E in H.
  - destruct H.
  - destruct H as [H|[]]. injection H as <- <- _ _ _.
    split; [exact Es|]. exists first, rest, t. auto.
Qed.

Lemma flair_text_is_a_tier_witness :
  let first := sample_source "foo" false None None (Some 2%Z) in
  let settings := mkAppSettings [first] "template" "css" "" true [] "" in
  let flair := setPostFlair "t3_1" "Tier 2" "css" "template" "soccer" in
  In flair (fst (submitComment (fun _ => "2") obliging (title_only "foo") [first]
                   settings))
  /\ shouldFlairPost (title_only "foo") [first] = true.
Proof.
  intros first settings flair.
  assert (H : In flair (fst (submitComment (fun _ => "2") obliging (title_only "foo")
                               [first] settings)))
    by (left; reflexivity).
  split; [exact H|].
  exact (proj1 (flair_text_is_a_tier _ _ _ _ _ _ _ _ _ _ H)).
Defined.

(** X16.  What [submitComment] does, call by call.  The only flair is the tier of
    the first source, on a post that is to be flaired.  The comment is
    issued exactly when that flair, if there is one, was not rejected and
    every source has a tier the report has a wording for; otherwise the
    function throws after the flair, and nothing else is called.  A rejected
    comment throws before it is distinguished or locked; a comment that went
    through is distinguished and locked, both calls are issued, and the
    function ends normally exactly when neither is rejected. *)
Theorem submitComment_call_by_call (number_text : Z -> string)
    (answer : call -> settled) (postData : PostData) (srcs : list Source)
    (settings : AppSettings) :
  let flair := tier_flair number_text postData srcs settings in
  let done := submitComment number_text answer postData srcs settings in
  ((exists postId text, In (reddit_submitComment postId text) (fst done))
   <-> all_fulfilled answer flair /\ forallb known_tier srcs = true)
  /\ (~ (all_fulfilled answer flair /\ forallb known_tier srcs = true) ->
      done = (flair, Throw))
  /\ (all_fulfilled answer flair -> forallb known_tier srcs = true ->
      exists markdown,
        report_markdown number_text srcs settings = Ret markdown
        /\ (answer (reddit_submitComment (post_id postData) markdown) = rejected ->
            done = (flair ++ [reddit_submitComment (post_id postData) markdown],
                    Throw))
        /\ (answer (reddit_submitComment (post_id postData) markdown) = fulfilled ->
            fst done = flair ++ [reddit_submitComment (post_id postData) markdown;
                                 distinguish true; lock]
            /\ (answer (distinguish true) = fulfilled -> answer lock = fulfilled ->
                snd done = Ret tt)
            /\ (answer (distinguish true) = rejected \/ answer lock = rejected ->
                snd done = Throw))).
Proof.
  intros flair done.
  pose proof (tier_flair_no_comment number_text postData srcs settings) as Hno.
  fold flair in Hno.
  destruct (known_tiers_markdown number_text srcs settings) as [Hk Hu].
  destruct (submitComment_flow number_text answer postData srcs settings)
    as [(c & Hc & Ec & E)|[(Hf & Em & E)|[(Hf & Em & E)
        |[(Hf & markdown & Em & Ea & E)|(Hf & markdown & Em & Ea & E)]]]];
    fold flair in Hc || fold flair in Hf; fold done in E; rewrite E; cbn [fst snd].
  - (* the flair was rejected *)
    assert (Hn : ~ all_fulfilled answer flair).
    { intros Hf. rewrite (Hf c Hc) in Ec. discriminate Ec. }
    split; [|split].
    + split; [intros (postId & text & H); exfalso; exact (Hno _ _ H) | tauto].
    + reflexivity.
    + intros Hf. contradiction.
  - (* a source line cannot be written *)
    assert (Hn : forallb known_tier srcs <> true).
    { intros H. destruct (Hk H) as [markdown Em']. rewrite Em in Em'.
      discriminate Em'. }
    split; [|split].
    + split; [intros (postId & text & H); exfalso; exact (Hno _ _ H) | tauto].
    + reflexivity.
    + intros _ H. contradiction.
  - (* outside the model: never for a report *)
    exfalso. destruct (forallb known_tier srcs) eqn:Ek.
    + destruct (Hk eq_refl) as [markdown Em']. rewrite Em in Em'. discriminate Em'.
    + rewrite (Hu eq_refl) in Em. discriminate Em.
  - (* the comment was rejected *)
    assert (Ek : forallb known_tier srcs = true).
    { destruct (forallb known_tier srcs); [reflexivity|].
      rewrite (Hu eq_refl) in Em. discriminate Em. }
    split; [|split].
    + split; [auto|]. intros _. exists (post_id postData), markdown.
      apply in_or_app. right. left. reflexivity.
    + intros Hn. exfalso. apply Hn. auto.
    + intros _ _. exists markdown. split; [exact Em|]. split; [reflexivity|].
      intros Ea'. rewrite Ea in Ea'. discriminate Ea'.
  - (* the comment went through *)
    assert (Ek : forallb known_tier srcs = true).
    { destruct (forallb known_tier srcs); [reflexivity|].
      rewrite (Hu eq_refl) in Em. discriminate Em. }
    split; [|split].
    + split; [auto|]. intros _. exists (post_id postData), markdown.
      apply in_or_app. right. left. reflexivity.
    + intros Hn. exfalso. apply Hn. auto.
    + intros _ _. exists markdown. split; [exact Em|]. split.
      * intros Ea'. rewrite Ea in Ea'. discriminate Ea'.
      * intros _. split; [reflexivity|]. split.
        -- intros -> ->. reflexivity.
        -- intros [-> | ->]; [reflexivity|].
           destruct (answer (distinguish true)); reflexivity.
Qed.

Lemma submitComment_call_by_call_witness :
  let foo := sample_source "foo" false None None (Some 2%Z) in
  let bar := sample_source "bar" false None None (Some 7%Z) in
  let post := title_only "foo bar" in
  let flair := setPostFlair "t3_1" "Tier 2" "" "" "soccer" in
  (forallb known_tier [foo; bar] = false
   /\ submitComment (fun _ => "2") obliging post [foo; bar]
                    (sample_settings [foo; bar])
      = ([flair], Throw))
  /\ (all_fulfilled no_lock
        (tier_flair (fun _ => "2") post [foo] (sample_settings [foo]))
      /\ forallb known_tier [foo] = true
      /\ exists markdown,
           submitComment (fun _ => "2") no_lock post [foo] (sample_settings [foo])
           = ([flair; reddit_submitComment "t3_1" markdown; distinguish true; lock],
              Throw)).
Proof.
  intros foo bar post flair. split.
  - split; [reflexivity|].
    exact (proj1 (proj2 (submitComment_call_by_call (fun _ => "2") obliging post
                           [foo; bar] (sample_settings [foo; bar])))
             ltac:(intros [_ H]; discriminate H)).
  - assert (Hf : all_fulfilled no_lock
                   (tier_flair (fun _ => "2") post [foo] (sample_settings [foo])))
      by (intros c [<-|[]]; reflexivity).
    split; [exact Hf|]. split; [reflexivity|].
    destruct (proj2 (proj2 (submitComment_call_by_call (fun _ => "2") no_lock post
                              [foo] (sample_settings [foo]))) Hf eq_refl)
      as (markdown & _ & _ & H).
    destruct (H eq_refl) as (Ecalls & _ & Hthrow).
    exists markdown.
    destruct (submitComment (fun _ => "2") no_lock post [foo] (sample_settings [foo]))
      as [calls outcome].
    cbn [fst snd] in Ecalls, Hthrow.
    rewrite Ecalls, (Hthrow (or_intror eq_refl)). reflexivity.
Defined.

Section ReportLayout.

Variable number_text : Z -> string.

Lemma report_markdown_known srcs settings :
  forallb known_tier srcs = true ->
  exists lines,
    map_res (getSourceLine number_text) srcs = Ret lines
    /\ length lines = length srcs
    /\ report_markdown number_text srcs settings
       = Ret (join blank_line
                (report_header :: List.map (String.append "- ") lines
                 ++ (if existsb is_unreliable srcs then [unreliable_warning] else [])
                 ++ match commentFooter settings with
                    | EmptyString => []
                    | footer => [footer]
                    end)).
Proof.
  intros H. destruct (map_res_known number_text srcs H) as (lines & E1 & E2 & E3).
  exists lines. split; [exact E1|]. split; [exact E2|].
  unfold report_markdown. rewrite E3. cbn [bind]. do 2 f_equal.
  rewrite !filter_Boolean_app, filter_Boolean_lines.
  change (filter_Boolean [Some report_header]) with [report_header].
  assert (Ew : filter_Boolean
                 [if existsb is_unreliable srcs then Some unreliable_warning else None]
               = if existsb is_unreliable srcs then [unreliable_warning] else [])
    by (destruct (existsb is_unreliable srcs); reflexivity).
  assert (Ef : filter_Boolean [Some (commentFooter settings)]
               = match commentFooter settings with
                 | EmptyString => []
                 | footer => [footer]
                 end)
    by (destruct (commentFooter settings); reflexivity).
  rewrite Ew, Ef. reflexivity.
Qed.

Lemma submitComment_known (answer : call -> settled) postData srcs settings :
  forallb known_tier srcs = true ->
  let done := submitComment number_text answer postData srcs settings in
  exists markdown,
    report_markdown number_text srcs settings = Ret markdown
    /\ (all_fulfilled answer (fst done) ->
        done = (tier_flair number_text postData srcs settings
                ++ [reddit_submitComment (post_id postData) markdown;
                    distinguish true; lock],
                Ret tt))
    /\ (snd done <> Ret tt ->
        snd done = Throw /\ exists c, In c (fst done) /\ answer c = rejected).
Proof.
  intros H done.
  destruct (proj1 (known_tiers_markdown number_text srcs settings) H)
    as [markdown Em].
  exists markdown. split; [exact Em|].
  destruct (submitComment_flow number_text answer postData srcs settings)
    as [(c & Hc & Ec & E)|[(Hf & Em' & E)|[(Hf & Em' & E)
        |[(Hf & markdown' & Em' & Ea & E)|(Hf & markdown' & Em' & Ea & E)]]]];
    fold done in E; try rewrite Em in Em'; try discriminate Em';
    try (injection Em' as <-); rewrite E; cbn [fst snd].
  - split.
    + intros Hall. rewrite (Hall c Hc) in Ec. discriminate Ec.
    + intros _. split; [reflexivity|]. exists c. auto.
  - split.
    + intros Hall.
      rewrite (Hall (reddit_submitComment (post_id postData) markdown)) in Ea;
        [discriminate Ea | apply in_or_app; right; left; reflexivity].
    + intros _. split; [reflexivity|].
      exists (reddit_submitComment (post_id postData) markdown).
      split; [apply in_or_app; right; left; reflexivity | exact Ea].
  - split.
    + intros Hall.
      rewrite (Hall (distinguish true)), (Hall lock);
        [reflexivity | |]; apply in_or_app; right; simpl; auto.
    + destruct (answer (distinguish true)) eqn:Ed.
      * destruct (answer lock) eqn:El; [intros Hn; contradiction|].
        intros _. split; [reflexivity|]. exists lock.
        split; [apply in_or_app; right; simpl; auto | exact El].
      * intros _. split; [reflexivity|]. exists (distinguish true).
        split; [apply in_or_app; right; simpl; auto | exact Ed].
Qed.

End ReportLayout.

Lemma own_hosts_cover host :
  includes own_hosts host = false ->
  includes ["reddit.com"; "www.reddit.com"] host = false.
Proof.
  unfold includes, own_hosts. simpl. intros H.
  apply orb_false_iff in H. destruct H as [_ H].
  apply orb_false_iff in H. destruct H as [_ H]. exact H.
Qed.

Lemma processPost_url pf raw post u :
  processPost pf raw = Ret post -> url post = Some u ->
  includes own_hosts (hostname u) = false.
Proof.
  unfold processPost. intros H Hu.
  destruct (new_URL pf (raw_url raw)) as [u0|]; [|discriminate H].
  injection H as <-. cbn [url] in Hu.
  change ((if negb (includes own_hosts (hostname u0)) then Some u0 else None)
          = Some u) in Hu.
  destruct (includes own_hosts (hostname u0)) eqn:Eo; cbn [negb] in Hu;
    [discriminate Hu|]. injection Hu as <-. exact Eo.
Qed.

Lemma shouldFlairPost_built pf raw post srcs :
  processPost pf raw = Ret post ->
  shouldFlairPost post srcs
  = match srcs with
    | first :: _ => match nonzero (tier first) with
                    | Some _ => true
                    | None => false
                    end
    | [] => false
    end.
Proof.
  intros H. unfold shouldFlairPost.
  destruct (url post) as [u|] eqn:Eu; [|reflexivity].
  pose proof (own_hosts_cover _ (processPost_url pf raw post u H Eu)) as E.
  destruct (hostname u) as [|c rest]; [reflexivity|].
  cbn [truthy]. rewrite E. reflexivity.
Qed.

(** X17.  The report is laid out as: the header, one line per source in the order
    of the sources, the warning exactly when some source has tier 3 or more,
    and the footer unless it is empty - separated by blank lines.  No source
    line is ever dropped, and an empty footer leaves no trailing blank
    line. *)
Theorem report_layout (number_text : Z -> string) (srcs : list Source)
    (settings : AppSettings) :
  forallb known_tier srcs = true ->
  exists lines,
    map_res (getSourceLine number_text) srcs = Ret lines
    /\ length lines = length srcs
    /\ report_markdown number_text srcs settings
       = Ret (join blank_line
                (report_header :: List.map (String.append "- ") lines
                 ++ (if existsb is_unreliable srcs then [unreliable_warning] else [])
                 ++ match commentFooter settings with
                    | EmptyString => []
                    | footer => [footer]
                    end)).
Proof. apply report_markdown_known. Qed.

Lemma report_layout_witness :
  let srcs := [sample_source "foo" false None None (Some 2%Z)] in
  forallb known_tier srcs = true
  /\ report_markdown (fun _ => "2") srcs (sample_settings srcs)
     = Ret (report_header ++ blank_line ++ "- **Tier 2**: foo - reliable")%string.
Proof.
  intros srcs. split; [reflexivity|].
  destruct (report_layout (fun _ => "2") srcs (sample_settings srcs) eq_refl)
    as (lines & E1 & _ & E).
  rewrite E. injection E1 as <-. reflexivity.
Defined.

(** X18.  When every tier of the registry is one the report has a wording for, the
    report of a result of the matcher can always be written, and
    [submitComment] fails on it only when the platform rejects a call: if
    every call it issued is fulfilled, these are the flair, if there is one,
    the comment with the report, [distinguish] and [lock], and it ends
    normally; otherwise it throws, and a rejected call is among those it
    issued. *)
Theorem report_of_a_result_fails_only_by_rejection (number_text : Z -> string)
    (answer : call -> settled) (post : PostData) (settings : AppSettings)
    (result : list Source) :
  forallb known_tier (sources settings) = true ->
  findSourcesInPost post settings = Ret (Some result) ->
  let done := submitComment number_text answer post result settings in
  exists markdown,
    report_markdown number_text result settings = Ret markdown
    /\ (all_fulfilled answer (fst done) ->
        done = (tier_flair number_text post result settings
                ++ [reddit_submitComment (post_id post) markdown;
                    distinguish true; lock],
                Ret tt))
    /\ (snd done <> Ret tt ->
        snd done = Throw /\ exists c, In c (fst done) /\ answer c = rejected).
Proof.
  intros Hk H. apply result_of in H. destruct H as (m & E & ->).
  destruct (collect_recorded post settings m E) as [R _].
  apply submitComment_known.
  apply forallb_forall. intros s Hs.
  apply (Permutation_in _ (Permutation_sym (sort_by_perm _ _))) in Hs.
  unfold map_values in Hs. apply in_map_iff in Hs.
  destruct Hs as ([k v] & Ev & Hin). simpl in Ev. subst v.
  destruct (R k s Hin) as [_ [Hsrc _]].
  rewrite forallb_forall in Hk. apply Hk, Hsrc.
Qed.

Lemma report_of_a_result_fails_only_by_rejection_witness :
  let foo := sample_source "foo" false None None (Some 2%Z) in
  let settings := sample_settings [foo] in
  let post := title_only "foo said so" in
  (forallb known_tier (sources settings) = true
   /\ findSourcesInPost post settings = Ret (Some [foo]))
  /\ submitComment (fun _ => "2") no_lock post [foo] settings
     = ([setPostFlair "t3_1" "Tier 2" "" "" "soccer";
         reddit_submitComment "t3_1"
           (report_header ++ blank_line ++ "- **Tier 2**: foo - reliable")%string;
         distinguish true; lock],
        Throw)
  /\ exists c,
       In c (fst (submitComment (fun _ => "2") no_lock post [foo] settings))
       /\ no_lock c = rejected.
Proof.
  intros foo settings post. split; [split; reflexivity|].
  split; [reflexivity|].
  destruct (report_of_a_result_fails_only_by_rejection (fun _ => "2") no_lock post settings [foo]
              eq_refl eq_refl) as (markdown & _ & _ & H).
  exact (proj2 (H ltac:(discriminate))).
Defined.

(** X19.  On a post built by [processPost] the self-post check of [shouldFlairPost]
    never fires, since such a post carries no URL on the platform's own
    hosts: the flair depends on the first source alone. *)
Theorem self_post_check_never_fires (pf : Platform) (raw : RedditPostV1)
    (post : PostData) (srcs : list Source) :
  processPost pf raw = Ret post ->
  shouldFlairPost post srcs
  = match srcs with
    | first :: _ => match nonzero (tier first) with
                    | Some _ => true
                    | None => false
                    end
    | [] => false
    end.
Proof. apply shouldFlairPost_built. Qed.

Lemma self_post_check_never_fires_witness :
  exists post,
    processPost sample_platform sample_post = Ret post
    /\ shouldFlairPost post [sample_source "foo" false None None (Some 2%Z)] = true.
Proof.
  eexists. split; [reflexivity|].
  rewrite (self_post_check_never_fires sample_platform sample_post _ _ eq_refl).
  reflexivity.
Defined.

(** X20.  For a registry whose tiers all lie between 1 and 5, a post built by
    [processPost] gets a flair exactly when some source of the matcher's
    result has a tier: the result is sorted, so looking at its first source
    is enough. *)
Theorem flair_iff_a_source_is_tiered (pf : Platform) (raw : RedditPostV1)
    (post : PostData) (settings : AppSettings) (result : list Source) :
  processPost pf raw = Ret post ->
  (forall s t, In s (sources settings) -> tier s = Some t -> (1 <= t <= 5)%Z) ->
  findSourcesInPost post settings = Ret (Some result) ->
  (shouldFlairPost post result = true <->
   exists s t, In s result /\ tier s = Some t).
Proof.
  intros Hp Ht H. rewrite (shouldFlairPost_built pf raw post result Hp).
  apply result_of in H. destruct H as (m & E & ->).
  destruct (collect_recorded post settings m E) as [R _].
  assert (Hsrc : forall s, In s (sort_by compare_tier (map_values m)) ->
                           In s (sources settings)).
  { intros s Hs.
    apply (Permutation_in _ (Permutation_sym (sort_by_perm _ _))) in Hs.
    unfold map_values in Hs. apply in_map_iff in Hs.
    destruct Hs as ([k v] & Ev & Hin). simpl in Ev. subst v.
    destruct (R k s Hin) as [_ [Hs _]]. exact Hs. }
  pose proof (sort_by_sorted (map_values m)) as S.
  destruct (sort_by compare_tier (map_values m)) as [|first rest].
  - split; [discriminate | intros (s & t & [] & _)].
  - split.
    + intros Hf. destruct (nonzero (tier first)) as [t|] eqn:En; [|discriminate Hf].
      apply nonzero_Some in En. exists first, t. split; [left; reflexivity | apply En].
    + intros (s & t & Hs & Est).
      assert (Hle : tier_le first s).
      { destruct Hs as [<-|Hs]; [unfold tier_le; lia|].
        inversion S as [|? ? _ Hall]; subst. rewrite Forall_forall in Hall.
        apply Hall, Hs. }
      pose proof (Ht s t (Hsrc s Hs) Est) as Hts.
      unfold tier_le, tier_or_6 in Hle. rewrite Est in Hle.
      destruct (tier first) as [t'|] eqn:Ef; [|lia].
      pose proof (Ht first t' (Hsrc first (or_introl eq_refl)) Ef) as Ht'.
      destruct t' as [|p|p]; [lia | reflexivity | lia].
Qed.

Lemma flair_iff_a_source_is_tiered_witness :
  let untiered := sample_source "story" false None None None in
  let tiered := sample_source "a" false None None (Some 2%Z) in
  let settings := sample_settings [untiered; tiered] in
  exists post,
    processPost sample_platform sample_post = Ret post
    /\ findSourcesInPost post settings = Ret (Some [tiered; untiered])
    /\ shouldFlairPost post [tiered; untiered] = true.
Proof.
  intros untiered tiered settings. eexists. split; [reflexivity|].
  split; [reflexivity|].
  apply (proj2 (flair_iff_a_source_is_tiered sample_platform sample_post _ settings
                  [tiered; untiered] eq_refl
                  ltac:(intros s t [<-|[<-|[]]] E; [discriminate E | injection E as <-; lia])
                  eq_refl)).
  exists tiered, 2%Z. split; [left; reflexivity | reflexivity].
Defined.

(** * The trigger ([src/main.ts]) *)

Section TriggerFacts.

Variable number_text : Z -> string.
Variable pf : Platform.
Variable reddit : Reddit.

Lemma submitComment_calls postData srcs settings c :
  In c (fst (submitComment number_text (call_answer reddit) postData srcs settings)) ->
  forall postId text, c = reddit_submitComment postId text ->
  postId = post_id postData
  /\ report_markdown number_text srcs settings = Ret text.
Proof.
  intros H postId text ->. apply submitComment_In in H.
  destruct H as [H|(markdown & Em & [H|[H|[H|[]]]])]; try discriminate H.
  - exfalso. exact (tier_flair_no_comment _ _ _ _ _ _ H).
  - injection H as <- <-. auto.
Qed.

Lemma modmail_is_no_report_call postId c :
  ~ In (report_call c) (fst (trySendPostErrorModmail reddit postId)).
Proof.
  unfold trySendPostErrorModmail.
  destruct (getAllSettings reddit) as [settings| |]; try (intros []).
  destruct (truthy (Some (errorReportSubredditName settings))); [|intros []].
  intros [H|[]]. discriminate H.
Qed.

Lemma onPostSubmit_report_calls event c :
  In (report_call c) (fst (onPostSubmit number_text pf reddit event)) ->
  In (report_call c) (fst (attempt number_text pf reddit event)).
Proof.
  unfold onPostSubmit.
  destruct (attempt number_text pf reddit event) as [calls [[]| |]];
    try (intros H; exact H).
  destruct (truthy (event_post_id event)) as [postId|].
  - pose proof (modmail_is_no_report_call postId c) as Hm.
    destruct (trySendPostErrorModmail reddit postId) as [more outcome].
    cbn [fst] in *. intros H. apply in_app_or in H. destruct H as [H|[H|H]].
    + exact H.
    + discriminate H.
    + contradiction.
  - cbn [fst]. intros H. apply in_app_or in H. destruct H as [H|[H|[]]].
    + exact H.
    + discriminate H.
Qed.

Lemma attempt_report_calls event c :
  In (report_call c) (fst (attempt number_text pf reddit event)) ->
  exists postId author fetched postData settings result,
    truthy (event_post_id event) = Some postId
    /\ truthy (event_author_name event) = Some author
    /\ getPostById reddit
         match truthy (event_crosspostParentId event) with
         | Some parent => parent
         | None => postId
         end = Ret fetched
    /\ processPost pf fetched = Ret postData
    /\ getAllSettings reddit = Ret settings
    /\ isIgnoredUser author settings = false
    /\ findSourcesInPost postData settings = Ret (Some result)
    /\ In c (fst (submitComment number_text (call_answer reddit) postData result
                      settings)).
Proof.
  unfold attempt.
  destruct (truthy (event_post_id event)) as [postId|]; [|intros []].
  destruct (truthy (event_subreddit_name event)) as [sub|]; [|intros []].
  destruct (truthy (event_author_name event)) as [author|]; [|intros []].
  destruct (getPostById reddit _) as [fetched| |] eqn:Eg; try (intros []).
  destruct (processPost pf fetched) as [postData| |] eqn:Ep; try (intros []).
  destruct (getAllSettings reddit) as [settings| |] eqn:Es; try (intros []).
  destruct (isIgnoredUser author settings) eqn:Ei; [intros []|].
  destruct (findSourcesInPost postData settings) as [[result|]| |] eqn:Ef;
    try (intros []).
  destruct (submitComment number_text (call_answer reddit) postData result settings)
    as [calls outcome] eqn:Ec.
  simpl. intros H. apply in_map_iff in H. destruct H as (c' & E & H).
  injection E as ->.
  exists postId, author, fetched, postData, settings, result.
  repeat split; try reflexivity; try assumption.
  rewrite Ec. exact H.
Qed.

Lemma modmail_throws postId :
  snd (trySendPostErrorModmail reddit postId) = Throw <->
  getAllSettings reddit = Throw
  \/ exists settings,
       getAllSettings reddit = Ret settings
       /\ errorReportSubredditName settings <> EmptyString
       /\ message_answer reddit error_subject (error_link postId)
            (errorReportSubredditName settings) = rejected.
Proof.
  unfold trySendPostErrorModmail.
  destruct (getAllSettings reddit) as [settings| |]; cbn [snd].
  - destruct (errorReportSubredditName settings) as [|ch rest] eqn:En; cbn [truthy snd].
    + split; [discriminate|].
      intros [H|(settings' & E & Hne & _)]; [discriminate H|].
      injection E as <-. rewrite En in Hne. contradiction.
    + rewrite <- En.
      destruct (message_answer reddit error_subject (error_link postId)
                  (errorReportSubredditName settings)) eqn:Ea; cbn [await].
      * split; [discriminate|].
        intros [H|(settings' & E & _ & Ea')]; [discriminate H|].
        injection E as <-. rewrite Ea in Ea'. discriminate Ea'.
      * split; [|reflexivity]. intros _. right. exists settings.
        split; [reflexivity|]. split; [rewrite En; discriminate | exact Ea].
  - split; [auto | reflexivity].
  - split; [discriminate|].
    intros [H|(settings' & E & _)]; discriminate.
Qed.

Lemma onPostSubmit_throws event :
  snd (onPostSubmit number_text pf reddit event) = Throw <->
  snd (attempt number_text pf reddit event) = Throw
  /\ exists postId,
       truthy (event_post_id event) = Some postId
       /\ snd (trySendPostErrorModmail reddit postId) = Throw.
Proof.
  unfold onPostSubmit.
  destruct (attempt number_text pf reddit event) as [calls [[]| |]]; cbn [snd].
  - split; [discriminate | intros [H _]; discriminate H].
  - destruct (truthy (event_post_id event)) as [postId|].
    + destruct (trySendPostErrorModmail reddit postId) as [more outcome] eqn:Em.
      cbn [snd]. split.
      * intros ->. split; [reflexivity|]. exists postId. rewrite Em. auto.
      * intros [_ (postId' & E & H)]. injection E as <-. rewrite Em in H. exact H.
    + cbn [snd]. split; [discriminate|].
      intros [_ (postId & E & _)]. discriminate E.
  - split; [discriminate | intros [H _]; discriminate H].
Qed.

Lemma attempt_without_settings event :
  getAllSettings reddit = Throw ->
  (forall postId, getPostById reddit postId <> Beyond) ->
  snd (attempt number_text pf reddit event) = Throw.
Proof.
  intros Es Hg. unfold attempt.
  destruct (truthy (event_post_id event)) as [postId|]; [|reflexivity].
  destruct (truthy (event_subreddit_name event)) as [sub|]; [|reflexivity].
  destruct (truthy (event_author_name event)) as [author|]; [|reflexivity].
  destruct (getPostById reddit _) as [fetched| |] eqn:Eg;
    [|reflexivity | exfalso; exact (Hg _ Eg)].
  unfold processPost. destruct (new_URL pf (raw_url fetched)); [|reflexivity].
  rewrite Es. reflexivity.
Qed.

End TriggerFacts.

(** X21.  The trigger touches a post - flair, comment, distinguish, lock - only
    when the event names a post and an author, the post was fetched and
    built, the settings are valid, the author is not on the ignore list and
    the matcher found a source; the post touched is the one fetched, which
    for a crosspost is the parent, and the comment is the report of what the
    matcher found. *)
Theorem report_only_on_a_match (number_text : Z -> string) (pf : Platform)
    (reddit : Reddit) (event : PostSubmit) (c : call) :
  In (report_call c) (fst (onPostSubmit number_text pf reddit event)) ->
  exists postId author fetched postData settings result,
    truthy (event_post_id event) = Some postId
    /\ truthy (event_author_name event) = Some author
    /\ getPostById reddit
         match truthy (event_crosspostParentId event) with
         | Some parent => parent
         | None => postId
         end = Ret fetched
    /\ processPost pf fetched = Ret postData
    /\ getAllSettings reddit = Ret settings
    /\ isIgnoredUser author settings = false
    /\ findSourcesInPost postData settings = Ret (Some result)
    /\ forall commented text, c = reddit_submitComment commented text ->
         commented = raw_id fetched
         /\ report_markdown number_text result settings = Ret text.
Proof.
  intros H. apply onPostSubmit_report_calls, attempt_report_calls in H.
  destruct H as (postId & author & fetched & postData & settings & result
                 & E1 & E2 & E3 & E4 & E5 & E6 & E7 & Hc).
  exists postId, author, fetched, postData, settings, result.
  repeat (split; [assumption|]).
  intros commented text ->.
  destruct (submitComment_calls number_text reddit postData result settings _ Hc
              _ _ eq_refl)
    as [-> Hm].
  split; [|exact Hm].
  unfold processPost in E4. destruct (new_URL pf (raw_url fetched)); [|discriminate E4].
  injection E4 as <-. reflexivity.
Qed.

(** X22.  The handler of the trigger fails exactly when reporting an error fails:
    handling the post threw, the event names the post, and then either the
    settings could not be read again or the private message was rejected.
    Every other error is caught.  So with settings that fail their
    validation the handler fails on every event that names a post, since
    handling the post throws and the report of the error reads the settings
    once more. *)
Theorem trigger_fails_iff_error_report_fails (number_text : Z -> string)
    (pf : Platform) (reddit : Reddit) (event : PostSubmit) :
  (snd (onPostSubmit number_text pf reddit event) = Throw <->
   snd (attempt number_text pf reddit event) = Throw
   /\ exists postId,
        truthy (event_post_id event) = Some postId
        /\ (getAllSettings reddit = Throw
            \/ exists settings,
                 getAllSettings reddit = Ret settings
                 /\ errorReportSubredditName settings <> EmptyString
                 /\ message_answer reddit
                      "An error occurred with the media reliability app"
                      ("https://redd.it/" ++ strip_t3 postId)
                      (errorReportSubredditName settings) = rejected))
  /\ (getAllSettings reddit = Throw ->
      (forall postId, getPostById reddit postId <> Beyond) ->
      truthy (event_post_id event) <> None ->
      snd (onPostSubmit number_text pf reddit event) = Throw).
Proof.
  split.
  - rewrite onPostSubmit_throws. split.
    + intros [Ha (postId & Ei & Hm)]. split; [exact Ha|]. exists postId.
      split; [exact Ei|]. apply modmail_throws in Hm. exact Hm.
    + intros [Ha (postId & Ei & Hm)]. split; [exact Ha|]. exists postId.
      split; [exact Ei|]. apply modmail_throws. exact Hm.
  - intros Es Hg Hi. apply onPostSubmit_throws.
    split; [apply attempt_without_settings; assumption|].
    destruct (truthy (event_post_id event)) as [postId|]; [|contradiction].
    exists postId. split; [reflexivity|]. apply modmail_throws. left. exact Es.
Qed.

(** X23.  When handling a post throws, a private message with the link of the
    post goes to the subreddit named in the settings, provided the event
    names the post and that setting is not empty. *)
Theorem thrown_error_is_reported (number_text : Z -> string) (pf : Platform)
    (reddit : Reddit) (event : PostSubmit) (settings : AppSettings)
    (postId : string) :
  snd (attempt number_text pf reddit event) = Throw ->
  truthy (event_post_id event) = Some postId ->
  getAllSettings reddit = Ret settings ->
  errorReportSubredditName settings <> EmptyString ->
  In (sendPrivateMessage "An error occurred with the media reliability app"
        ("https://redd.it/" ++ strip_t3 postId)
        (errorReportSubredditName settings))
     (fst (onPostSubmit number_text pf reddit event)).
Proof.
  intros Ht Ei Es Hne. unfold onPostSubmit.
  destruct (attempt number_text pf reddit event) as [calls outcome].
  simpl in Ht. subst outcome. rewrite Ei.
  unfold trySendPostErrorModmail. rewrite Es.
  destruct (errorReportSubredditName settings) as [|ch rest] eqn:En; [contradiction|].
  cbn [truthy fst]. apply in_or_app. right. right. left. reflexivity.
Qed.

Lemma report_only_on_a_match_witness :
  exists c,
    In (report_call c)
       (fst (onPostSubmit (fun _ => "") sample_platform sample_reddit
               (sample_event "t3_1")))
    /\ exists result,
         findSourcesInPost (mkPostData "t3_1" "soccer" "a story"
                              (Some "see https://www.foo.com/a")
                              (Some (mkURL "www.example.com" "/story"))
                              (Some [mkURL "www.foo.com" "/a"]))
           (mkAppSettings [sample_source "story" false None None None]
              "" "" "" true ["AutoModerator"] "barcadev")
         = Ret (Some result).
Proof.
  eexists. split; [left; reflexivity|].
  destruct (report_only_on_a_match (fun _ => "") sample_platform sample_reddit
              (sample_event "t3_1") _ (or_introl eq_refl))
    as (postId & author & fetched & postData & settings & result
        & Ei & _ & Eg & Ep & Es & _ & Ef & _).
  exists result.
  injection Ei as <-. injection Eg as <-. injection Ep as <-. injection Es as <-.
  exact Ef.
Defined.

Lemma trigger_fails_iff_error_report_fails_witness :
  (getAllSettings unsettled_reddit = Throw
   /\ truthy (event_post_id (sample_event "t3_1")) <> None)
  /\ snd (onPostSubmit (fun _ => "") sample_platform unsettled_reddit
            (sample_event "t3_1")) = Throw
  /\ snd (attempt (fun _ => "") sample_platform unsettled_reddit
            (sample_event "t3_1")) = Throw.
Proof.
  assert (Hi : truthy (event_post_id (sample_event "t3_1")) <> None) by discriminate.
  split; [split; [reflexivity | exact Hi]|].
  assert (H : snd (onPostSubmit (fun _ => "") sample_platform unsettled_reddit
                     (sample_event "t3_1")) = Throw).
  { apply (proj2 (trigger_fails_iff_error_report_fails (fun _ => "") sample_platform
                    unsettled_reddit (sample_event "t3_1"))).
    - reflexivity.
    - intros postId. simpl. destruct (String.eqb postId "t3_1"); discriminate.
    - exact Hi. }
  split; [exact H|].
  exact (proj1 (proj1 (proj1 (trigger_fails_iff_error_report_fails (fun _ => "")
                                sample_platform unsettled_reddit
                                (sample_event "t3_1"))) H)).
Defined.

Lemma thrown_error_is_reported_witness :
  snd (attempt (fun _ => "") sample_platform sample_reddit (sample_event "t3_404"))
  = Throw
  /\ In (sendPrivateMessage "An error occurred with the media reliability app"
           "https://redd.it/404" "barcadev")
        (fst (onPostSubmit (fun _ => "") sample_platform sample_reddit
                (sample_event "t3_404"))).
Proof.
  split; [reflexivity|].
  exact (thrown_error_is_reported (fun _ => "") sample_platform sample_reddit
           (sample_event "t3_404") _ "t3_404" eq_refl eq_refl eq_refl
           ltac:(discriminate)).
Defined.

(** * Content construction, once more ([src/helpers.ts]) *)

(** X24.  The links of a built post are never an empty list - no link is null -
    and a post without a body, or with an empty one, has neither links nor a
    normalized body, so the matcher reads its title and its URL only. *)
Theorem built_post_without_links (pf : Platform) (raw : RedditPostV1)
    (post : PostData) :
  processPost pf raw = Ret post ->
  links post <> Some []
  /\ (truthy (raw_body raw) = None ->
      links post = None /\ bodyNormalized post = None)
  /\ (forall ls, links post = Some ls ->
      exists body, truthy (raw_body raw) = Some body
                   /\ bodyNormalized post = Some (normalizeText pf body)).
Proof.
  unfold processPost. intros H.
  destruct (new_URL pf (raw_url raw)) as [u|]; [|discriminate H].
  injection H as <-. cbn [links bodyNormalized].
  destruct (truthy (raw_body raw)) as [body|].
  - split; [|split].
    + unfold getPostLinks.
      destruct (filter_nonNullable _) as [|l ls]; simpl; discriminate.
    + discriminate.
    + intros ls _. exists body. auto.
  - split; [discriminate|]. split; [auto | discriminate].
Qed.

Lemma built_post_without_links_witness :
  exists post,
    processPost sample_platform
      (mkPost "t3_2" "soccer" "a story" None "https://www.example.com/story")
    = Ret post
    /\ links post = None /\ bodyNormalized post = None.
Proof.
  eexists. split; [reflexivity|].
  exact (proj1 (proj2 (built_post_without_links sample_platform
                         (mkPost "t3_2" "soccer" "a story" None
                                 "https://www.example.com/story")
                         _ eq_refl)) eq_refl).
Defined.
